(** * Draupnir: DeadDocument rendering to Matrix events

    A shallow embedding of the render orchestrator [renderMatrix] (the
    module of commands/interface-manager that imports DeadDocument,
    DeadDocumentHtml, DeadDocumentMarkdown and PagedDuplexStream) and of
    the [JSXFactory] (commands/interface-manager/JSXFactory.ts),
    together with the properties the specification states about them.

    Part I holds the definitions:
    - [DeadDocument]: the document tree (tags, nodes, node identity);
    - [JSX]: the JSX factory building document nodes from raw children,
      over an interface for what it leaves to the JavaScript engine;
    - [ECMAScript]: [toString()] on numbers as ECMAScript prescribes it,
      the engine of the samples;
    - [Matrix]: [checkEqual] and [renderMatrix] over an interface for the
      walker and the paged stream, with a journal of every call made;
    - [Paged]: the paged stream, the fringe walker and two renderers as
      the specification describes them;
    - [Traces]: shapes of the journal of a run of [renderMatrix];
    - [MatrixSend]: [renderMatrixAndSend], over a client that sends;
    - [ManagementRoom]: [logMessage] and [replaceRoomIdsWithPills]
      (ManagementRoomOutput.ts), with a journal of the calls made on the
      client, on Sentry and on the console;
    - [Timeline]: [handleTimelineEvent] and
      [managementRoomMessageListener] (Draupnir.ts), with a journal of
      the calls made on the parts of the bot.
    Part II holds the lemmas and theorems, module by module. *)

From Stdlib Require Import String Ascii List ZArith Lia Bool Arith DecimalString.
From Stdlib Require Import PrimFloat FloatOps SpecFloat.
Import ListNotations.

#[local] Set Warnings "-register-all".

(** * Part I: definitions *)

(** ** Strings *)

Module Str.

(** Concatenation of a list of strings, in order (JS [join('')]). *)
Definition join (l : list string) : string :=
  fold_right String.append ""%string l.

(** The text of a page handed to the callback: [undefined] carries none. *)
Definition text (page : option string) : string :=
  match page with Some p => p | None => ""%string end.

Definition isEmpty (s : string) : bool :=
  match s with EmptyString => true | String _ _ => false end.

End Str.

(** ** The document tree *)

Module DeadDocument.

(** Node kinds. [Root] and [TextNode] are the two the sources name; the
    others are the kinds the specification lists. *)
Inductive NodeTag : Type :=
| Root | Fragment | Heading | Paragraph | ListTag | ListItem
| Bold | Italic | Code | CodeBlock | Link | LineBreak | TextNode.

Definition NodeTag_eqb (a b : NodeTag) : bool :=
  match a, b with
  | Root, Root | Fragment, Fragment | Heading, Heading
  | Paragraph, Paragraph | ListTag, ListTag | ListItem, ListItem
  | Bold, Bold | Italic, Italic | Code, Code | CodeBlock, CodeBlock
  | Link, Link | LineBreak, LineBreak | TextNode, TextNode => true
  | _, _ => false
  end.

(** A node is a JS object: [ref] stands for its identity (the address
    [Object.is] compares), the rest for its fields. Inner nodes
    ([leafNode] false) own an ordered list of children, leaves carry a
    string payload. The [parent] back-reference is navigational only and
    is not part of the model. *)
Inductive AbstractNode : Type :=
| DocumentNode (ref : nat) (tag : NodeTag) (children : list AbstractNode)
| LeafNode (ref : nat) (tag : NodeTag) (data : string).

Definition ref (n : AbstractNode) : nat :=
  match n with DocumentNode r _ _ | LeafNode r _ _ => r end.

Definition tag (n : AbstractNode) : NodeTag :=
  match n with DocumentNode _ t _ | LeafNode _ t _ => t end.

Definition leafNode (n : AbstractNode) : bool :=
  match n with DocumentNode _ _ _ => false | LeafNode _ _ _ => true end.

Definition children (n : AbstractNode) : list AbstractNode :=
  match n with DocumentNode _ _ cs => cs | LeafNode _ _ _ => [] end.

(** [Object.is] on the values a walker returns: a node or [undefined]. *)
Definition Object_is (node1 node2 : option AbstractNode) : bool :=
  match node1, node2 with
  | None, None => true
  | Some a, Some b => Nat.eqb (ref a) (ref b)
  | _, _ => false
  end.

End DeadDocument.

(** ** Thrown values *)

(** What a [throw] (or a rejected promise) carries: a [TypeError] raised
    by the code modelled here, with its message, or any value [e] raised
    by a collaborator (the send callback, a walker). *)
Inductive Exn (E : Type) : Type :=
| TypeError (message : string)
| Foreign (e : E).

Arguments TypeError {E} message.
Arguments Foreign {E} e.

(** ** The JSX factory *)

Module JSX.
Import DeadDocument.

(** [null] and [undefined]. *)
Inductive Nullish : Type := JSNull | JSUndefined.

(** The values a JSX child can be at run time, as far as the factory
    tells them apart; [E] is the type of the values a getter or a
    [toJSON] method may throw. The TypeScript type [rawJSX] admits the
    first four.
    - [RawNumber] carries a number, an IEEE 754 double.
    - [RawArray] is an array, carried as its elements in index order
      ([forEach] skips the holes of a sparse array); arrays that contain
      themselves are not covered.
    - [RawNode] is a node of the document tree, an object whose
      [leafNode] property is a boolean, which is all the factory asks of
      it; an object that has such a property and is no node would be
      handed to [addChild] alike, and is not covered.
    - [RawNullish] is [null] or [undefined].
    - [RawOther] is any other value (a boolean, a bigint, a function, an
      object whose [leafNode] property is no boolean), carried as what
      the two operations the factory applies to it do: [leafNode] is the
      value that reading its [leafNode] property throws, if it throws;
      [json] is what [JSON.stringify] does with it: it throws, or
      returns a text, or returns [undefined] ([None]). *)
Inductive rawJSX (E : Type) : Type :=
| RawString (s : string)
| RawNumber (x : float)
| RawArray (items : list (rawJSX E))
| RawNode (n : AbstractNode)
| RawNullish (v : Nullish)
| RawOther (leafNode : option (Exn E)) (json : Exn E + option string).

Arguments RawString {E} s.
Arguments RawNumber {E} x.
Arguments RawArray {E} items.
Arguments RawNode {E} n.
Arguments RawNullish {E} v.
Arguments RawOther {E} leafNode json.

(** What the factory leaves to the JavaScript engine:
    - [Number_toString x] is [x.toString()] on a number;
    - [cannotRead v] is the message of the [TypeError] the engine raises
      when the property [leafNode] is read off [null] or [undefined]. *)
Record Engine : Type := {
  Number_toString : float -> string;
  cannotRead : Nullish -> string
}.

(** Allocation: the state threaded through the factory is the node under
    construction together with the next unused object identity. *)
Definition Building : Type := (AbstractNode * nat)%type.

(** Modelled from the spec: [addChild] of DeadDocument.ts, which is not
    among the sources; children are an ordered sequence and insertion
    order is rendering order, so a child is added at the end. *)
Definition addChild (node child : AbstractNode) : AbstractNode :=
  match node with
  | DocumentNode r t cs => DocumentNode r t (cs ++ [child])
  | LeafNode r t d => LeafNode r t d
  end.

(** Modelled from the spec: [makeDocumentNode] of DeadDocument.ts, which
    is not among the sources; a new inner node of the given tag without
    children. *)
Definition makeDocumentNode (t : NodeTag) (next : nat) : Building :=
  (DocumentNode next t [], S next).

(** Modelled from the spec: [makeLeafNode] of DeadDocument.ts, which is
    not among the sources; a new leaf with the given payload, attached to
    [parent]. *)
Definition makeLeafNode (t : NodeTag) (data : string) (st : Building) : Building :=
  let '(parent, next) := st in
  (addChild parent (LeafNode next t data), S next).

(** [Array.prototype.forEach] with a callback that may throw. *)
Definition forEach {A S X : Type} (f : A -> S -> X + S) : list A -> S -> X + S :=
  fix go (l : list A) (st : S) : X + S :=
    match l with
    | [] => inr st
    | x :: l' => match f x st with
                 | inr st' => go l' st'
                 | inl e => inl e
                 end
    end.

(** The text of [JSON.stringify(rawChild)] inside the template literal:
    [undefined] prints as its name. *)
Definition templateText (json : option string) : string :=
  match json with Some text => text | None => "undefined"%string end.

Section Factory.

Context {E : Type}.
Variable engine : Engine.

(** The closure [ensureChild] of [JSXFactory]; [st] holds the captured
    [node]. In the last two branches of the source, reading [leafNode]
    off [null] or [undefined] is a [TypeError] of the engine, reading it
    off another value may throw, and so may [JSON.stringify]. *)
Fixpoint ensureChild (rawChild : rawJSX E) (st : Building) : Exn E + Building :=
  match rawChild with
  | RawString s => inr (makeLeafNode TextNode s st)
  | RawNumber x => inr (makeLeafNode TextNode (Number_toString engine x) st)
  | RawArray items => forEach ensureChild items st
  | RawNode child => inr (addChild (fst st) child, snd st)
  | RawNullish v => inl (TypeError (cannotRead engine v))
  | RawOther (Some thrown) _ => inl thrown
  | RawOther None (inl thrown) => inl thrown
  | RawOther None (inr json) =>
      inl (TypeError ("Unexpected raw child " ++ templateText json))
  end.

Definition JSXFactory {Props : Type} (t : NodeTag) (properties : Props)
    (rawChildren : list (rawJSX E)) (next : nat) : Exn E + Building :=
  let node := makeDocumentNode t next in
  forEach ensureChild rawChildren node.

(** *** What the factory is expected to build *)

(** Raw children with nested arrays flattened, in order. *)
Fixpoint flattenRaw (r : rawJSX E) : list (rawJSX E) :=
  match r with
  | RawArray items => flat_map flattenRaw items
  | _ => [r]
  end.

Definition flattenAll (rs : list (rawJSX E)) : list (rawJSX E) := flat_map flattenRaw rs.

(** A string, a number or an existing node. *)
Definition accepted (r : rawJSX E) : bool :=
  match r with
  | RawString _ | RawNumber _ | RawNode _ => true
  | _ => false
  end.

(** [becomes lo hi r c]: the child [c] built for the flattened raw child
    [r]; a text leaf is a new object, with an identity in [lo, hi). *)
Inductive becomes (lo hi : nat) : rawJSX E -> AbstractNode -> Prop :=
| becomes_string s r :
    lo <= r < hi -> becomes lo hi (RawString s) (LeafNode r TextNode s)
| becomes_number x r :
    lo <= r < hi ->
    becomes lo hi (RawNumber x) (LeafNode r TextNode (Number_toString engine x))
| becomes_node n : becomes lo hi (RawNode n) n.

(** What the call throws on account of a child that is neither a string,
    a number, an array nor a node. *)
Definition refusal (bad : rawJSX E) : Exn E :=
  match bad with
  | RawNullish v => TypeError (cannotRead engine v)
  | RawOther (Some thrown) _ => thrown
  | RawOther None (inl thrown) => thrown
  | RawOther None (inr json) =>
      TypeError ("Unexpected raw child " ++ templateText json)
  | _ => TypeError ""
  end.

(** What one call of [ensureChild] does to the node under construction:
    it appends the children built for the flattened raw child when all of
    them are accepted, and throws otherwise. *)
Definition ensures (r : list (rawJSX E)) (res : Exn E + Building)
    (ref0 : nat) (t : NodeTag) (cs : list AbstractNode) (next : nat) : Prop :=
  if forallb accepted r
  then exists new next',
      res = inr (DocumentNode ref0 t (cs ++ new), next') /\
      next <= next' /\ Forall2 (becomes next next') r new
  else exists e, res = inl e.

End Factory.

(** A decimal numeral: digits with at most one point among them, and
    possibly a sign before them. *)
Fixpoint decimalDigits (s : string) (point : bool) : bool :=
  match s with
  | EmptyString => true
  | String c s' =>
      if Ascii.eqb c "."%char then negb point && decimalDigits s' true
      else (Nat.leb 48 (nat_of_ascii c) && Nat.leb (nat_of_ascii c) 57)
           && decimalDigits s' point
  end.

Definition decimalNumeral (s : string) : bool :=
  match s with
  | EmptyString => false
  | String c s' =>
      if Ascii.eqb c "-"%char then negb (Str.isEmpty s') && decimalDigits s' false
      else decimalDigits s false
  end.

End JSX.

(** ** The JavaScript engine, for the samples *)

Module ECMAScript.

Local Open Scope Z_scope.

(** [b^p] by repeated squaring. *)
Fixpoint power (b : Z) (p : positive) : Z :=
  match p with
  | xH => b
  | xO p' => let h := power b p' in h * h
  | xI p' => let h := power b p' in b * (h * h)
  end.

(** [10^p] and [2^p] for [p > 0], [1] otherwise. *)
Definition pow10 (p : Z) : Z :=
  match p with Zpos p' => power 10 p' | _ => 1 end.

Definition pow2 (p : Z) : Z :=
  match p with Zpos p' => Z.shiftl 1 (Zpos p') | _ => 1 end.

(** Comparison of [a * 10^p] with [b * 2^q], exact. *)
Definition compareScaled (a p b q : Z) : comparison :=
  (a * pow10 p * pow2 (- q)) ?= (b * pow2 q * pow10 (- p)).

(** The exponent [n] with [10^(n-1) <= m * 2^e < 10^n], searched from
    an estimate, downwards first and then upwards. *)
Fixpoint magnitudeDown (fuel : nat) (m e n : Z) : Z :=
  match fuel with
  | O => n
  | S fuel' =>
      match compareScaled 1 (n - 1) m e with
      | Gt => magnitudeDown fuel' m e (n - 1)
      | _ => n
      end
  end.

Fixpoint magnitudeUp (fuel : nat) (m e n : Z) : Z :=
  match fuel with
  | O => n
  | S fuel' =>
      match compareScaled 1 n m e with
      | Gt => n
      | _ => magnitudeUp fuel' m e (n + 1)
      end
  end.

Definition magnitude (m e : Z) : Z :=
  let estimate := (Z.log2 m + e) * 30103 / 100000 in
  magnitudeUp 700 m e (magnitudeDown 700 m e estimate).

(** [floor (m * 2^e / 10^p)]. *)
Definition scaledFloor (m e p : Z) : Z :=
  (m * pow2 e * pow10 (- p)) / (pow2 (- e) * pow10 p).

(** The decimal [s * 10^p] rounds to the double [m * 2^e] (to nearest,
    ties to even): it lies between the midpoints to the two neighbours,
    which count when [m] is even. *)
Definition roundsTo (m e s p : Z) : bool :=
  let low := if (m =? 2 ^ 52) && (-1074 <? e) then 4 * m - 1 else 4 * m - 2 in
  let high := 4 * m + 2 in
  let inclusive := Z.even m in
  match compareScaled s p low (e - 2), compareScaled s p high (e - 2) with
  | Gt, Lt => true
  | Eq, Lt => inclusive
  | Gt, Eq => inclusive
  | _, _ => false
  end.

(** The digits [s] and the exponent [p] of the decimal [s * 10^p] with
    the fewest digits that rounds to [m * 2^e], tried with
    [k = 1, 2, ...] digits; of two such decimals the closer one, and the
    even one when they are as close. *)
Fixpoint shortest (fuel : nat) (m e n k : Z) : Z * Z :=
  let p := n - k in
  let a := scaledFloor m e p in
  match fuel with
  | O => (a, p)
  | S fuel' =>
      let lo := roundsTo m e a p in
      let hi := roundsTo m e (a + 1) p in
      if lo && hi then
        match compareScaled (2 * a + 1) p (2 * m) e with
        | Gt => (a, p)
        | Lt => (a + 1, p)
        | Eq => if Z.even a then (a, p) else (a + 1, p)
        end
      else if lo then (a, p)
      else if hi then (a + 1, p)
      else shortest fuel' m e n (k + 1)
  end.

(** Trailing zeros of [s] moved to the exponent. *)
Fixpoint strip (fuel : nat) (s p : Z) : Z * Z :=
  match fuel with
  | O => (s, p)
  | S fuel' =>
      if (0 <? s) && (s mod 10 =? 0) then strip fuel' (s / 10) (p + 1) else (s, p)
  end.

Definition digits (s : Z) : string := NilZero.string_of_uint (N.to_uint (Z.to_N s)).

Fixpoint zeros (n : nat) : string :=
  match n with O => EmptyString | S n' => String "0" (zeros n') end.

Local Open Scope string_scope.

(** Steps 5 to 7 of Number::toString of ECMAScript, radix 10, for the
    positive finite double [m * 2^e]: [k] digits [ds] and the exponent
    [n] of the decimal point. *)
Definition positive_toString (m e : Z) : string :=
  let '(s, p) := shortest 17 m e (magnitude m e) 1 in
  let '(s, p) := strip 20 s p in
  let ds := digits s in
  let k := Z.of_nat (String.length ds) in
  let n := (p + k)%Z in
  if ((-6 <? n) && (n <=? 21))%Z then
    if (k <=? n)%Z then ds ++ zeros (Z.to_nat (n - k))
    else if (0 <? n)%Z then
      substring 0 (Z.to_nat n) ds ++ "."
        ++ substring (Z.to_nat n) (Z.to_nat (k - n)) ds
    else "0." ++ zeros (Z.to_nat (- n)) ++ ds
  else
    let e' := (n - 1)%Z in
    let sign := if (e' <? 0)%Z then "-" else "+" in
    let exponent := digits (Z.abs e') in
    if (k =? 1)%Z then ds ++ "e" ++ sign ++ exponent
    else substring 0 1 ds ++ "." ++ substring 1 (Z.to_nat (k - 1)) ds
           ++ "e" ++ sign ++ exponent.

(** [Number.prototype.toString()] as ECMAScript prescribes it
    (Number::toString, radix 10). *)
Definition Number_toString (x : float) : string :=
  match Prim2SF x with
  | S754_nan => "NaN"
  | S754_zero _ => "0"
  | S754_infinity false => "Infinity"
  | S754_infinity true => "-Infinity"
  | S754_finite false m e => positive_toString (Zpos m) e
  | S754_finite true m e => "-" ++ positive_toString (Zpos m) e
  end.

(** The engine of Node.js: numbers print as ECMAScript prescribes, and
    the messages are those of V8. *)
Definition node : JSX.Engine :=
  {| JSX.Number_toString := Number_toString;
     JSX.cannotRead := fun v =>
       match v with
       | JSX.JSNull => "Cannot read properties of null (reading 'leafNode')"
       | JSX.JSUndefined => "Cannot read properties of undefined (reading 'leafNode')"
       end |}.

End ECMAScript.

(** ** The render orchestrator *)

Module Matrix.
Import DeadDocument.

(** The two serializations rendered side by side: [MARKDOWN_RENDERER]
    feeds the plain text of an event, [HTML_RENDERER] its formatted body. *)
Inductive Format : Type := Markdown | Html.

(** The collaborators [renderMatrix] imports: [PagedDuplexStream] and
    [FringeWalker] with the two renderers. They are taken as an
    interface, so that what is proved of the orchestrator holds for any
    implementation of them.
    - [newStream arg] is [new PagedDuplexStream(arg)], [None] when the
      call passes no argument;
    - [peekPage output] is the truth value of what [output.peekPage()]
      returns, which is all the orchestrator uses of it;
    - [newWalker node format commitHook] is
      [new FringeWalker(node, { output }, RENDERER, commitHook)];
    - [increment walker output] steps the walker, which writes to (and
      commits on) the stream of its context, and returns the node reached,
      [None] for [undefined], or throws. *)
Record Toolkit (E : Type) : Type := {
  Stream : Type;
  Walker : Type;
  newStream : option nat -> Stream;
  commit : Stream -> AbstractNode -> Stream;
  peekPage : Stream -> bool;
  ensureNewPage : Stream -> Stream;
  readPage : Stream -> option string * Stream;
  newWalker : AbstractNode -> Format -> (AbstractNode -> Stream -> Stream) -> Walker;
  increment : Walker -> Stream -> (E + option AbstractNode) * Walker * Stream
}.

Arguments Stream {E} _.
Arguments Walker {E} _.
Arguments newStream {E} _ _.
Arguments commit {E} _ _ _.
Arguments peekPage {E} _ _.
Arguments ensureNewPage {E} _ _.
Arguments readPage {E} _ _.
Arguments newWalker {E} _ _ _ _.
Arguments increment {E} _ _ _.

(** Every call the orchestrator makes on a collaborator, with what it
    returned. *)
Inductive Event (E : Type) : Type :=
| ENewStream (f : Format) (sizeLimit : option nat)
| ENewWalker (f : Format)
| EIncrement (f : Format) (r : E + option AbstractNode)
| EEnsureNewPage (f : Format)
| EReadPage (f : Format) (page : option string)
| ESend (text html : option string) (r : E + string).

Arguments ENewStream {E} f sizeLimit.
Arguments ENewWalker {E} f.
Arguments EIncrement {E} f r.
Arguments EEnsureNewPage {E} f.
Arguments EReadPage {E} f page.
Arguments ESend {E} text html r.

(** How a computation stops early: a thrown value, or the fuel that
    bounds the [while] loop of the model running out. *)
Inductive Abort (E : Type) : Type :=
| Throw (e : Exn E)
| Exhausted.

Arguments Throw {E} e.
Arguments Exhausted {E}.

(** How a call of [renderMatrix] ends. *)
Inductive Outcome (E : Type) : Type :=
| Returned (eventIds : list string)
| Thrown (e : Exn E)
| OutOfFuel.

Arguments Returned {E} eventIds.
Arguments Thrown {E} e.
Arguments OutOfFuel {E}.

Section Orchestrator.

Context {E World : Type}.

(** [SendMatrixEventCB]: [(text, html) => Promise<string>]; the promise
    resolves with an event id or rejects with some value, and the call
    may change the world outside. The arguments are what [readPage]
    returned, a string or [undefined]. *)
Definition SendMatrixEventCB : Type :=
  World -> option string -> option string -> (E + string) * World.

Variable T : Toolkit E.
Variable cb : SendMatrixEventCB.

(** The local variables of [renderMatrix] once the streams and walkers
    exist, the world the callback acts on, and the journal of calls made
    so far, latest first. *)
Record Frame : Type := {
  markdownOutput : Stream T;
  markdownWalker : Walker T;
  htmlOutput : Stream T;
  htmlWalker : Walker T;
  eventIds : list string;
  world : World;
  journal : list (Event E)
}.

Definition output (f : Format) (fr : Frame) : Stream T :=
  match f with Markdown => markdownOutput fr | Html => htmlOutput fr end.

Definition walker (f : Format) (fr : Frame) : Walker T :=
  match f with Markdown => markdownWalker fr | Html => htmlWalker fr end.

Definition setSide (f : Format) (s : Stream T) (w : Walker T) (fr : Frame) : Frame :=
  match f with
  | Markdown =>
      {| markdownOutput := s; markdownWalker := w;
         htmlOutput := htmlOutput fr; htmlWalker := htmlWalker fr;
         eventIds := eventIds fr; world := world fr; journal := journal fr |}
  | Html =>
      {| markdownOutput := markdownOutput fr; markdownWalker := markdownWalker fr;
         htmlOutput := s; htmlWalker := w;
         eventIds := eventIds fr; world := world fr; journal := journal fr |}
  end.

Definition record (ev : Event E) (fr : Frame) : Frame :=
  {| markdownOutput := markdownOutput fr; markdownWalker := markdownWalker fr;
     htmlOutput := htmlOutput fr; htmlWalker := htmlWalker fr;
     eventIds := eventIds fr; world := world fr; journal := ev :: journal fr |}.

Definition setWorld (w : World) (fr : Frame) : Frame :=
  {| markdownOutput := markdownOutput fr; markdownWalker := markdownWalker fr;
     htmlOutput := htmlOutput fr; htmlWalker := htmlWalker fr;
     eventIds := eventIds fr; world := w; journal := journal fr |}.

Definition setEventIds (ids : list string) (fr : Frame) : Frame :=
  {| markdownOutput := markdownOutput fr; markdownWalker := markdownWalker fr;
     htmlOutput := htmlOutput fr; htmlWalker := htmlWalker fr;
     eventIds := ids; world := world fr; journal := journal fr |}.

(** *** Computations over a frame that may throw *)

Definition M (A : Type) : Type := Frame -> (Abort E + A) * Frame.

Definition ret {A : Type} (a : A) : M A := fun fr => (inr a, fr).

Definition bind {A B : Type} (m : M A) (k : A -> M B) : M B :=
  fun fr =>
    match m fr with
    | (inr a, fr') => k a fr'
    | (inl x, fr') => (inl x, fr')
    end.

Definition throw {A : Type} (e : Exn E) : M A := fun fr => (inl (Throw e), fr).

Definition exhausted {A : Type} : M A := fun fr => (inl Exhausted, fr).

Notation "x <- m ;; k" := (bind m (fun x => k))
  (at level 61, m at next level, right associativity).
Notation "m ;; k" := (bind m (fun _ => k))
  (at level 61, right associativity).

(** *** The calls on the collaborators *)

(** [walker.increment()] for the walker of format [f]. *)
Definition incrementOf (f : Format) : M (option AbstractNode) :=
  fun fr =>
    let '(r, w, s) := increment T (walker f fr) (output f fr) in
    let fr' := record (EIncrement f r) (setSide f s w fr) in
    match r with
    | inr n => (inr n, fr')
    | inl e => (inl (Throw (Foreign e)), fr')
    end.

(** [outputs.some(o => o.peekPage())], with
    [outputs = [htmlOutput, markdownOutput]]. *)
Definition somePeekPage : M bool :=
  fun fr => (inr (peekPage T (htmlOutput fr) || peekPage T (markdownOutput fr)), fr).

Definition ensureNewPageOf (f : Format) : M unit :=
  fun fr =>
    (inr tt, record (EEnsureNewPage f)
               (setSide f (ensureNewPage T (output f fr)) (walker f fr) fr)).

(** [outputs.forEach(o => o.ensureNewPage())]. *)
Definition forEachEnsureNewPage : M unit :=
  ensureNewPageOf Html ;; ensureNewPageOf Markdown.

(** [output.readPage()!]: the assertion is erased at run time, so
    [undefined] passes through. *)
Definition readPageOf (f : Format) : M (option string) :=
  fun fr =>
    let '(page, s) := readPage T (output f fr) in
    (inr page, record (EReadPage f page) (setSide f s (walker f fr) fr)).

(** [await cb(text, html)]. *)
Definition awaitCb (text html : option string) : M string :=
  fun fr =>
    let '(r, w) := cb (world fr) text html in
    let fr' := record (ESend text html r) (setWorld w fr) in
    match r with
    | inr eventId => (inr eventId, fr')
    | inl e => (inl (Throw (Foreign e)), fr')
    end.

(** [eventIds.push(id)]. *)
Definition push (eventId : string) : M unit :=
  fun fr => (inr tt, setEventIds (eventIds fr ++ [eventId]) fr).

Definition getEventIds : M (list string) := fun fr => (inr (eventIds fr), fr).

(** *** The source, statement by statement *)

Definition checkEqual (node1 node2 : option AbstractNode) : M bool :=
  if negb (Object_is node1 node2)
  then throw (TypeError "There is an implementation bug in one of the walker")
  else ret true.

(** [eventIds.push(await cb(markdownOutput.readPage()!, htmlOutput.readPage()!))] *)
Definition sendPages : M unit :=
  text <- readPageOf Markdown ;;
  html <- readPageOf Html ;;
  eventId <- awaitCb text html ;;
  push eventId.

(** The two increments and the check that close the prologue and every
    iteration; the value is the new [currentHtmlNode]. *)
Definition stepBoth : M (option AbstractNode) :=
  currentMarkdownNode <- incrementOf Markdown ;;
  currentHtmlNode <- incrementOf Html ;;
  checkEqual currentHtmlNode currentMarkdownNode ;;
  ret currentHtmlNode.

(** The [if] statement that opens the loop body. *)
Definition sendIfReady : M unit :=
  ready <- somePeekPage ;;
  if ready : bool then forEachEnsureNewPage ;; sendPages else ret tt.

(** The body of the [while] loop. *)
Definition body : M (option AbstractNode) :=
  sendIfReady ;; stepBoth.

(** [while (currentHtmlNode !== undefined) { ... }]; [fuel] bounds the
    number of iterations. *)
Fixpoint while (fuel : nat) (currentHtmlNode : option AbstractNode) : M unit :=
  match currentHtmlNode with
  | None => ret tt
  | Some _ =>
      match fuel with
      | 0 => exhausted
      | S fuel' => next <- body ;; while fuel' next
      end
  end.

(** The statements after the loop. *)
Definition finish : M (list string) :=
  forEachEnsureNewPage ;;
  ready <- somePeekPage ;;
  (if ready : bool then sendPages else ret tt) ;;
  getEventIds.

(** From the first increment to the [return]. *)
Definition run (fuel : nat) : M (list string) :=
  currentHtmlNode <- stepBoth ;;
  while fuel currentHtmlNode ;;
  finish.

(** [commitHook]: [(commitNode, context) => context.output.commit(commitNode)]. *)
Definition commitHook (commitNode : AbstractNode) (contextOutput : Stream T) : Stream T :=
  commit T contextOutput commitNode.

(** The frame after the streams and walkers are constructed; the streams
    are built by [new PagedDuplexStream()], without argument. *)
Definition construct (node : AbstractNode) (w : World) : Frame :=
  {| markdownOutput := newStream T None;
     markdownWalker := newWalker T node Markdown commitHook;
     htmlOutput := newStream T None;
     htmlWalker := newWalker T node Html commitHook;
     eventIds := [];
     world := w;
     journal := [ENewWalker Html; ENewStream Html None;
                 ENewWalker Markdown; ENewStream Markdown None] |}.

(** What a caller and an observer of the calls see of one call of
    [renderMatrix]: how it ended, the calls made in order, the
    identifiers collected in [eventIds] when it ended, and the world
    left behind. *)
Record Run : Type := {
  outcome : Outcome E;
  trace : list (Event E);
  collected : list string;
  finalWorld : World
}.

Definition conclude (res : (Abort E + list string) * Frame) : Run :=
  let '(r, fr) := res in
  {| outcome := match r with
                | inr ids => Returned ids
                | inl (Throw e) => Thrown e
                | inl Exhausted => OutOfFuel
                end;
     trace := rev (journal fr);
     collected := eventIds fr;
     finalWorld := world fr |}.

Definition renderMatrix (fuel : nat) (node : AbstractNode) (w : World) : Run :=
  if negb (NodeTag_eqb (tag node) Root)
  then {| outcome := Thrown (TypeError
            "Tried to render a node without a root, this will not be committable");
          trace := []; collected := []; finalWorld := w |}
  else conclude (run fuel (construct node w)).

(** *** Specifications of computations *)

(** [triple P m Q X]: started in a frame satisfying [P], the computation
    [m] ends in a frame satisfying [Q] when it returns, and [X] when it
    stops early. *)
Definition triple {A : Type} (P : Frame -> Prop) (m : M A)
    (Q : A -> Frame -> Prop) (X : Abort E -> Frame -> Prop) : Prop :=
  forall fr, P fr ->
    match m fr with
    | (inr a, fr') => Q a fr'
    | (inl x, fr') => X x fr'
    end.

(** What the journal, the identifiers and the world look like after the
    two increments and the check. *)
Inductive stepBothSpec (fr : Frame)
  : (Abort E + option AbstractNode) * Frame -> Prop :=
| stepBoth_markdown_throws e fr' :
    journal fr' = EIncrement Markdown (inl e) :: journal fr ->
    eventIds fr' = eventIds fr -> world fr' = world fr ->
    stepBothSpec fr (inl (Throw (Foreign e)), fr')
| stepBoth_html_throws a e fr' :
    journal fr' = EIncrement Html (inl e)
                    :: EIncrement Markdown (inr a) :: journal fr ->
    eventIds fr' = eventIds fr -> world fr' = world fr ->
    stepBothSpec fr (inl (Throw (Foreign e)), fr')
| stepBoth_mismatch a b fr' :
    Object_is b a = false ->
    journal fr' = EIncrement Html (inr b)
                    :: EIncrement Markdown (inr a) :: journal fr ->
    eventIds fr' = eventIds fr -> world fr' = world fr ->
    stepBothSpec fr
      (inl (Throw (TypeError "There is an implementation bug in one of the walker")),
       fr')
| stepBoth_agree a b fr' :
    Object_is b a = true ->
    journal fr' = EIncrement Html (inr b)
                    :: EIncrement Markdown (inr a) :: journal fr ->
    eventIds fr' = eventIds fr -> world fr' = world fr ->
    stepBothSpec fr (inr b, fr').

(** What they look like after the two reads and the send. *)
Inductive sendPagesSpec (fr : Frame) : (Abort E + unit) * Frame -> Prop :=
| sendPages_sent text html eventId fr' :
    journal fr' = ESend text html (inr eventId) :: EReadPage Html html
                    :: EReadPage Markdown text :: journal fr ->
    eventIds fr' = eventIds fr ++ [eventId] ->
    sendPagesSpec fr (inr tt, fr')
| sendPages_failed text html e fr' :
    journal fr' = ESend text html (inl e) :: EReadPage Html html
                    :: EReadPage Markdown text :: journal fr ->
    eventIds fr' = eventIds fr ->
    sendPagesSpec fr (inl (Throw (Foreign e)), fr').

End Orchestrator.

(** *** Reading a trace *)

(** The identifiers the callback returned, in call order. *)
Fixpoint sentIds {E : Type} (t : list (Event E)) : list string :=
  match t with
  | [] => []
  | ESend _ _ (inr eventId) :: t' => eventId :: sentIds t'
  | _ :: t' => sentIds t'
  end.

(** The pages passed to the callback, in call order. *)
Fixpoint sentPages {E : Type} (t : list (Event E)) : list (option string * option string) :=
  match t with
  | [] => []
  | ESend text html _ :: t' => (text, html) :: sentPages t'
  | _ :: t' => sentPages t'
  end.

(** The text sent in one format, all pages concatenated in send order. *)
Definition sentText {E : Type} (f : Format) (t : list (Event E)) : string :=
  Str.join (map (fun p => Str.text (match f with Markdown => fst p | Html => snd p end))
                (sentPages t)).

(** *** Shapes of a journal (latest call first) *)

Definition bugMessage : string :=
  "There is an implementation bug in one of the walker".

Definition rootMessage : string :=
  "Tried to render a node without a root, this will not be committable".

(** No call of the callback has failed. *)
Definition allSendsOk {E : Type} (j : list (Event E)) : Prop :=
  forall text html e, ~ In (ESend text html (inl e)) j.

(** Every completed pair of increments returned the same node. *)
Fixpoint lockstep {E : Type} (j : list (Event E)) : Prop :=
  match j with
  | [] => True
  | ev :: j' =>
      lockstep j' /\
      match ev, j' with
      | EIncrement Html (inr b), EIncrement Markdown (inr a) :: _ =>
          Object_is b a = true
      | _, _ => True
      end
  end.

(** Pages are read in pairs, markdown first, and a pair read is passed
    to the callback at once: a send follows the two reads of its
    arguments, and a read is followed by its partner or by its send. *)
Fixpoint paired {E : Type} (j : list (Event E)) : Prop :=
  match j with
  | [] => True
  | ev :: j' =>
      paired j' /\
      match ev with
      | ESend text html _ =>
          exists j'', j' = EReadPage Html html :: EReadPage Markdown text :: j''
      | EReadPage Html _ => exists text j'', j' = EReadPage Markdown text :: j''
      | _ => True
      end /\
      match j' with
      | EReadPage Html html :: _ => exists text r, ev = ESend text html r
      | EReadPage Markdown _ :: _ => exists html, ev = EReadPage Html html
      | _ => True
      end
  end.

(** The latest call is not a read. *)
Definition settled {E : Type} (j : list (Event E)) : Prop :=
  match j with
  | EReadPage _ _ :: _ => False
  | _ => True
  end.

(** The frame between two statements, while nothing has been thrown. *)
Definition steady {E World : Type} (T : Toolkit E) (fr : Frame (World:=World) T) : Prop :=
  eventIds T fr = sentIds (rev (journal T fr)) /\
  allSendsOk (journal T fr) /\
  lockstep (journal T fr) /\
  paired (journal T fr) /\
  settled (journal T fr).

(** The frame a computation stopped early in: a [TypeError] comes from
    [checkEqual] right after two increments that disagree, a failed call
    of the callback is the latest call made. *)
Definition stopped {E World : Type} (T : Toolkit E) (x : Abort E)
    (fr : Frame (World:=World) T) : Prop :=
  eventIds T fr = sentIds (rev (journal T fr)) /\
  paired (journal T fr) /\
  settled (journal T fr) /\
  match x with
  | Throw (TypeError message) =>
      message = bugMessage /\
      allSendsOk (journal T fr) /\
      exists a b j',
        journal T fr = EIncrement Html (inr b) :: EIncrement Markdown (inr a) :: j' /\
        Object_is b a = false /\ lockstep j'
  | Throw (Foreign e) =>
      lockstep (journal T fr) /\
      (allSendsOk (journal T fr) \/
       exists text html j',
         journal T fr = ESend text html (inl e) :: j' /\ allSendsOk j')
  | Exhausted => allSendsOk (journal T fr) /\ lockstep (journal T fr)
  end.

(** The calls that construct the streams and walkers, in order. *)
Definition constructions {E : Type} : list (Event E) :=
  [ENewStream Markdown None; ENewWalker Markdown;
   ENewStream Html None; ENewWalker Html].




End Matrix.

(** ** The paged stream, the fringe walker and the renderers *)

Module Paged.
Import DeadDocument Matrix.

(** *** Paged duplex stream *)

(** Modelled from the spec: the class [PagedDuplexStream]
    (PagedDuplexStream.ts is not among the sources). An append-only text
    buffer bound to a maximum page size: [pending] is the uncommitted
    tail, [committed] the text up to the latest safe cut that is not yet
    in a page, [pages] the pages ready to be read, oldest first. *)
Record PagedDuplexStream : Type := {
  sizeLimit : nat;
  pages : list string;
  committed : string;
  pending : string
}.

(** Modelled from the spec: a page holds unsent content, so no page is
    made of no text (part of [PagedDuplexStream], PagedDuplexStream.ts
    is not among the sources). *)
Definition pageOf (t : string) : list string :=
  if Str.isEmpty t then [] else [t].

(** Modelled from the spec: the constructor of [PagedDuplexStream],
    which takes a maximum page size; the value used when the caller
    passes none is a parameter. *)
Definition newPagedDuplexStream (defaultSizeLimit : nat) (arg : option nat)
  : PagedDuplexStream :=
  {| sizeLimit := match arg with Some n => n | None => defaultSizeLimit end;
     pages := []; committed := ""; pending := "" |}.

(** Modelled from the spec: [append(text)] of [PagedDuplexStream],
    which appends to the pending (uncommitted) tail buffer. *)
Definition append (s : PagedDuplexStream) (t : string) : PagedDuplexStream :=
  {| sizeLimit := sizeLimit s; pages := pages s; committed := committed s;
     pending := (pending s ++ t)%string |}.

(** Modelled from the spec: [commit(node)] of [PagedDuplexStream]. It
    advances the safe cut boundary to the end of the buffer; a page is
    ready once the committed region reaches the maximum, and is the text
    up to the best cut boundary at or before the limit: the whole region
    when it fits exactly, else the region as it was before this commit.
    A committed run that alone reaches the limit is a page of its own,
    as a page is never cut inside a run. *)
Definition commit (s : PagedDuplexStream) (node : AbstractNode) : PagedDuplexStream :=
  let whole := (committed s ++ pending s)%string in
  if String.length whole <? sizeLimit s then
    {| sizeLimit := sizeLimit s; pages := pages s; committed := whole; pending := "" |}
  else if String.length whole <=? sizeLimit s then
    {| sizeLimit := sizeLimit s; pages := pages s ++ pageOf whole;
       committed := ""; pending := "" |}
  else if sizeLimit s <=? String.length (pending s) then
    {| sizeLimit := sizeLimit s;
       pages := pages s ++ pageOf (committed s) ++ pageOf (pending s);
       committed := ""; pending := "" |}
  else
    {| sizeLimit := sizeLimit s; pages := pages s ++ pageOf (committed s);
       committed := pending s; pending := "" |}.

(** Modelled from the spec: [peekPage()] of [PagedDuplexStream], true
    when a page is ready to be read. *)
Definition peekPage (s : PagedDuplexStream) : bool :=
  match pages s with [] => false | _ :: _ => true end.

(** Modelled from the spec: [readPage()] of [PagedDuplexStream], which
    removes and returns the ready page (the text up to the best cut
    boundary, so the oldest one), or nothing if no page is ready. *)
Definition readPage (s : PagedDuplexStream) : option string * PagedDuplexStream :=
  match pages s with
  | [] => (None, s)
  | p :: ps =>
      (Some p, {| sizeLimit := sizeLimit s; pages := ps;
                  committed := committed s; pending := pending s |})
  end.

(** Modelled from the spec: [ensureNewPage()] of [PagedDuplexStream],
    which forces any remaining committed and pending content, even below
    the size limit, into a final ready page. *)
Definition ensureNewPage (s : PagedDuplexStream) : PagedDuplexStream :=
  {| sizeLimit := sizeLimit s;
     pages := pages s ++ pageOf (committed s ++ pending s);
     committed := ""; pending := "" |}.

(** Everything written to the stream and not read yet, in order. *)
Definition unsent (s : PagedDuplexStream) : string :=
  (Str.join (pages s) ++ committed s ++ pending s)%string.

(** *** Renderer contract *)

(** A fringe event enters or leaves a node. *)
Inductive Phase : Type := Enter | Exit.

(** Modelled from the spec: the renderer contract, a mapping from node
    tag to two optional fragment producers (the renderers of
    DeadDocumentMarkdown.ts and DeadDocumentHtml.ts are not among the
    sources). *)
Record Renderer : Type := {
  onEnter : NodeTag -> option (AbstractNode -> string);
  onExit : NodeTag -> option (AbstractNode -> string)
}.

(** Modelled from the spec: the text a renderer emits for one event;
    the absence of a producer for a phase means that nothing is emitted
    (the renderers are not among the sources). *)
Definition fragment (R : Renderer) (ph : Phase) (n : AbstractNode) : string :=
  match (match ph with Enter => onEnter R | Exit => onExit R end) (tag n) with
  | Some producer => producer n
  | None => ""%string
  end.

(** Modelled from the spec: the full single-pass rendering of a tree,
    each node rendered around its children in order (the renderers are
    not among the sources). *)
Fixpoint render (R : Renderer) (n : AbstractNode) : string :=
  match n with
  | DocumentNode _ _ cs =>
      (fragment R Enter n ++ Str.join (map (render R) cs) ++ fragment R Exit n)%string
  | LeafNode _ _ _ => fragment R Enter n
  end.

(** *** Fringe walker *)

(** Modelled from the spec: the fringe of a tree as [FringeWalker]
    walks it (DeadDocument.ts is not among the sources), depth first: an
    inner node is entered, its children are walked in order, and it is
    left; a leaf has its enter and exit coalesced into one event. *)
Fixpoint fringe (n : AbstractNode) : list (Phase * AbstractNode) :=
  match n with
  | DocumentNode _ _ cs => (Enter, n) :: flat_map fringe cs ++ [(Exit, n)]
  | LeafNode _ _ _ => [(Enter, n)]
  end.

(** Modelled from the spec: the class [FringeWalker] (DeadDocument.ts is
    not among the sources). The cursor is the part of the fringe still to
    walk; [terminated] is set once the terminal marker was returned. *)
Record FringeWalker : Type := {
  cursor : list (Phase * AbstractNode);
  renderer : Renderer;
  hook : AbstractNode -> PagedDuplexStream -> PagedDuplexStream;
  terminated : bool
}.

Definition newFringeWalker (root : AbstractNode) (R : Renderer)
    (commitHook : AbstractNode -> PagedDuplexStream -> PagedDuplexStream)
  : FringeWalker :=
  {| cursor := fringe root; renderer := R; hook := commitHook; terminated := false |}.

(** Modelled from the spec: where [FringeWalker] invokes the commit
    hook (DeadDocument.ts is not among the sources): after the text of a
    leaf, and after the exit text of a container. *)
Definition commits (ph : Phase) (n : AbstractNode) : bool :=
  match ph with Exit => true | Enter => leafNode n end.

(** Modelled from the spec: [increment()] of [FringeWalker]. One call
    advances by one fringe event: it appends the fragment of the event to
    the output, invokes the commit hook where a cut is safe, and returns
    the node of the event. Once the fringe is walked it returns the
    terminal marker; a further call is an error. *)
Definition increment (w : FringeWalker) (s : PagedDuplexStream)
  : (string + option AbstractNode) * FringeWalker * PagedDuplexStream :=
  match cursor w with
  | [] =>
      if terminated w
      then (inl "increment called after termination"%string, w, s)
      else (inr None,
            {| cursor := []; renderer := renderer w; hook := hook w;
               terminated := true |}, s)
  | (ph, n) :: rest =>
      let s1 := append s (fragment (renderer w) ph n) in
      let s2 := if commits ph n then hook w n s1 else s1 in
      (inr (Some n),
       {| cursor := rest; renderer := renderer w; hook := hook w;
          terminated := terminated w |}, s2)
  end.

(** The collaborators of [renderMatrix], put together. *)
Definition toolkit (defaultSizeLimit : nat) (rendererOf : Format -> Renderer)
  : Toolkit string :=
  {| Stream := PagedDuplexStream;
     Walker := FringeWalker;
     newStream := newPagedDuplexStream defaultSizeLimit;
     Matrix.commit := commit;
     Matrix.peekPage := peekPage;
     Matrix.ensureNewPage := ensureNewPage;
     Matrix.readPage := readPage;
     newWalker := fun node f commitHook => newFringeWalker node (rendererOf f) commitHook;
     Matrix.increment := increment |}.

(** *** Two renderers *)

Definition escapeChar (c : Ascii.ascii) : string :=
  if Ascii.eqb c "<"%char then "&lt;"%string
  else if Ascii.eqb c ">"%char then "&gt;"%string
  else if Ascii.eqb c "&"%char then "&amp;"%string
  else String c ""%string.

Fixpoint escapeHtml (s : string) : string :=
  match s with
  | EmptyString => ""%string
  | String c s' => (escapeChar c ++ escapeHtml s')%string
  end.

Definition payload (n : AbstractNode) : string :=
  match n with LeafNode _ _ d => d | DocumentNode _ _ _ => ""%string end.

Definition emit (t : string) : option (AbstractNode -> string) := Some (fun _ => t).

(** Modelled from the spec: the plain, markdown-like renderer: [**]
    around Bold, a [- ] prefix for list items, the raw payload for a text
    leaf, a blank line after a paragraph. *)
Definition MARKDOWN_RENDERER : Renderer :=
  {| onEnter := fun t =>
       match t with
       | Bold => emit "**"
       | ListItem => emit "- "
       | TextNode => Some payload
       | _ => None
       end;
     onExit := fun t =>
       match t with
       | Bold => emit "**"
       | Paragraph => emit (String (Ascii.ascii_of_nat 10) (String (Ascii.ascii_of_nat 10) ""))
       | _ => None
       end |}.

(** Modelled from the spec: the rich, markup-like renderer: an opening
    and a closing element per node kind, and the payload of a text leaf
    escaped. *)
Definition HTML_RENDERER : Renderer :=
  {| onEnter := fun t =>
       match t with
       | Bold => emit "<b>"
       | Italic => emit "<i>"
       | Paragraph => emit "<p>"
       | ListTag => emit "<ul>"
       | ListItem => emit "<li>"
       | Code => emit "<code>"
       | TextNode => Some (fun n => escapeHtml (payload n))
       | _ => None
       end;
     onExit := fun t =>
       match t with
       | Bold => emit "</b>"
       | Italic => emit "</i>"
       | Paragraph => emit "</p>"
       | ListTag => emit "</ul>"
       | ListItem => emit "</li>"
       | Code => emit "</code>"
       | _ => None
       end |}.

Definition rendererOf (f : Format) : Renderer :=
  match f with Markdown => MARKDOWN_RENDERER | Html => HTML_RENDERER end.


(** *** The state of a stream and of a run, for the proofs *)

(** At most one page is waiting, and then nothing else is buffered. *)
Definition caughtUp (s : PagedDuplexStream) : Prop :=
  match pages s with
  | [] => True
  | [_] => committed s = ""%string /\ pending s = ""%string
  | _ => False
  end.

(** Forcing a page would leave at most two pages waiting. *)
Definition oneAhead (s : PagedDuplexStream) : Prop :=
  length (pages s ++ pageOf (committed s ++ pending s)) <= 2.

(** The text a renderer emits along a run of fringe events. *)
Definition frags (R : Renderer) (evs : list (Phase * AbstractNode)) : string :=
  Str.join (map (fun ev => fragment R (fst ev) (snd ev)) evs).

(** What one increment does to the stream of its walker. *)
Definition advance (R : Renderer) (ph : Phase) (n : AbstractNode)
    (s : PagedDuplexStream) : PagedDuplexStream :=
  let s1 := append s (fragment R ph n) in
  if commits ph n then commit s1 n else s1.

(** A text below the page limit, or no text at all. *)
Definition fits (limit : nat) (t : string) : Prop :=
  String.length t < limit \/ t = ""%string.

(** What [readPage] returns from a stream whose only content is [t]. *)
Definition pageOpt (t : string) : option string :=
  if Str.isEmpty t then None else Some t.

Section Synced.

Variable d : nat.
Variable R : Format -> Renderer.
Context {World : Type}.

Local Abbreviation T := (toolkit d R).
Local Abbreviation Frame := (Frame (World:=World) (toolkit d R)).

(** One format of a run: its walker renders with the renderer of the
    format and commits on its stream, and what was sent, what the stream
    holds and what the walker has still to emit make up the rendering of
    the tree. *)
Definition sideOk (P : PagedDuplexStream -> Prop) (node : AbstractNode)
    (f : Format) (fr : Frame) : Prop :=
  renderer (walker T f fr) = R f /\
  hook (walker T f fr) = commitHook T /\
  P (output T f fr) /\
  sizeLimit (output T f fr) = d /\
  (sentText f (rev (journal T fr)) ++ unsent (output T f fr)
     ++ frags (R f) (cursor (walker T f fr)))%string
  = render (R f) node.

(** Before the two increments. *)
Definition synced (node : AbstractNode) (fr : Frame) : Prop :=
  cursor (markdownWalker T fr) = cursor (htmlWalker T fr) /\
  terminated (markdownWalker T fr) = false /\
  terminated (htmlWalker T fr) = false /\
  sideOk caughtUp node Markdown fr /\ sideOk caughtUp node Html fr.

(** After two increments that returned a node. *)
Definition stepped (node : AbstractNode) (fr : Frame) : Prop :=
  cursor (markdownWalker T fr) = cursor (htmlWalker T fr) /\
  terminated (markdownWalker T fr) = false /\
  terminated (htmlWalker T fr) = false /\
  sideOk oneAhead node Markdown fr /\ sideOk oneAhead node Html fr.

(** After two increments that returned the terminal marker. *)
Definition drained (node : AbstractNode) (fr : Frame) : Prop :=
  cursor (markdownWalker T fr) = [] /\
  cursor (htmlWalker T fr) = [] /\
  sideOk caughtUp node Markdown fr /\ sideOk caughtUp node Html fr.

(** No page is waiting and none has been sent. *)
Definition quiet (fr : Frame) : Prop :=
  (forall f, pages (output T f fr) = []) /\
  sentPages (rev (journal T fr)) = [] /\
  eventIds T fr = [].

(** The computation was stopped by a failure of the callback. *)
Definition cbFailed (cb : @SendMatrixEventCB string World) (x : Abort string) : Prop :=
  exists w0 text html e, fst (cb w0 text html) = inl e /\ x = Throw (Foreign e).

End Synced.

Arguments cbFailed {World} cb x.

(** *** Two properties as first stated *)

(** The callback is invoked exactly once in a run. *)
Definition sentOnce {E World : Type} (r : Run (E:=E) (World:=World)) : Prop :=
  length (sentPages (trace r)) = 1.

(** Nothing is rendered ahead of a send: whenever an iteration of the
    loop sends a page, the streams hold no text beyond what was sent, so
    that no increment made before the send contributes to a later page.
    The frames at the head of the loop are those a run with too little
    fuel stops in. *)
Definition nothingRenderedAhead {World : Type} (d : nat) (R : Format -> Renderer)
    (cb : @SendMatrixEventCB string World) (node : AbstractNode) (w : World) : Prop :=
  forall (k : nat) (fr fr' : Frame (World:=World) (toolkit d R)),
    run (toolkit d R) cb k (construct (toolkit d R) node w) = (inl Exhausted, fr) ->
    sendIfReady (toolkit d R) cb fr = (inr tt, fr') ->
    journal (toolkit d R) fr' <> journal (toolkit d R) fr ->
    unsent (markdownOutput (toolkit d R) fr') = ""%string /\
    unsent (htmlOutput (toolkit d R) fr') = ""%string.

End Paged.

(** ** Shapes of the journal of a run *)

Module Traces.
Import DeadDocument Matrix.

(** Increments come in pairs, markdown then html: an html increment
    follows a markdown increment that returned, and a markdown increment
    that returned is followed by an html increment. *)
Fixpoint alternating {E : Type} (j : list (Event E)) : Prop :=
  match j with
  | [] => True
  | ev :: j' =>
      alternating j' /\
      match ev with
      | EIncrement Html _ => exists a j'', j' = EIncrement Markdown (inr a) :: j''
      | _ => True
      end /\
      match j' with
      | EIncrement Markdown (inr _) :: _ => exists r, ev = EIncrement Html r
      | _ => True
      end
  end.

(** The latest call is not a markdown increment that returned. *)
Definition rested {E : Type} (j : list (Event E)) : Prop :=
  match j with
  | EIncrement Markdown (inr _) :: _ => False
  | _ => True
  end.

(** Every send comes right after a pair of increments that returned,
    the flush of both streams and the reads of its two pages. *)
Fixpoint flushedSends {E : Type} (j : list (Event E)) : Prop :=
  match j with
  | [] => True
  | ev :: j' =>
      flushedSends j' /\
      match ev with
      | ESend text html _ =>
          exists a b j'',
            j' = EReadPage Html html :: EReadPage Markdown text
                   :: EEnsureNewPage Markdown :: EEnsureNewPage Html
                   :: EIncrement Html (inr b) :: EIncrement Markdown (inr a) :: j''
      | _ => True
      end
  end.

(** The latest calls are a pair of increments that returned. *)
Definition justStepped {E : Type} (j : list (Event E)) : Prop :=
  exists a b j'',
    j = EIncrement Html (inr b) :: EIncrement Markdown (inr a) :: j''.

(** No walker has returned [undefined] yet. *)
Definition live {E : Type} (j : list (Event E)) : Prop :=
  forall f, ~ In (EIncrement f (inr None)) j.

(** No walker is incremented after it returned [undefined]. *)
Fixpoint retired {E : Type} (j : list (Event E)) : Prop :=
  match j with
  | [] => True
  | ev :: j' =>
      retired j' /\
      match ev with
      | EIncrement f _ => ~ In (EIncrement f (inr None)) j'
      | _ => True
      end
  end.

(** The world left by the calls of the callback recorded in a trace,
    made in order from the world [w]. *)
Fixpoint replay {E World : Type} (cb : @SendMatrixEventCB E World) (w : World)
    (t : list (Event E)) : World :=
  match t with
  | [] => w
  | ESend text html _ :: t' => replay cb (snd (cb w text html)) t'
  | _ :: t' => replay cb w t'
  end.

(** Every result recorded in a trace is what the callback answers when
    the recorded calls are made in order from the world [w]. *)
Fixpoint answered {E World : Type} (cb : @SendMatrixEventCB E World) (w : World)
    (t : list (Event E)) : Prop :=
  match t with
  | [] => True
  | ESend text html r :: t' =>
      r = fst (cb w text html) /\ answered cb (snd (cb w text html)) t'
  | _ :: t' => answered cb w t'
  end.

(** The frame between two statements, as far as increments go. *)
Definition inStep {E : Type} (j : list (Event E)) : Prop :=
  alternating j /\ rested j.

(** Both walkers have just returned [undefined], for the first time. *)
Definition ended {E : Type} (j : list (Event E)) : Prop :=
  exists j0,
    j = EIncrement Html (inr None) :: EIncrement Markdown (inr None) :: j0 /\ live j0.

(** The journal of a call that returned: both walkers returned
    [undefined] for the first time, both streams were flushed, and at
    most one more page was read and sent. *)
Definition finale {E : Type} (j : list (Event E)) : Prop :=
  exists last j0,
    j = last ++ EEnsureNewPage Markdown :: EEnsureNewPage Html
          :: EIncrement Html (inr None) :: EIncrement Markdown (inr None) :: j0 /\
    live j0 /\
    (last = [] \/
     exists text html eventId,
       last = [ESend text html (inr eventId); EReadPage Html html;
               EReadPage Markdown text]).

(** The world [w'] and the journal [j] agree with the callback [cb]
    started in the world [w]. *)
Definition threaded {E World : Type} (cb : @SendMatrixEventCB E World) (w : World)
    (j : list (Event E)) (w' : World) : Prop :=
  w' = replay cb w (rev j) /\ answered cb w (rev j).

(** *** Two runs side by side *)

(** The frame [fr] with the world replaced by a world of another kind. *)
Definition reworld {E World World' : Type} {T : Toolkit E}
    (fr : Frame (World:=World) T) (w : World') : Frame (World:=World') T :=
  {| markdownOutput := markdownOutput T fr; markdownWalker := markdownWalker T fr;
     htmlOutput := htmlOutput T fr; htmlWalker := htmlWalker T fr;
     eventIds := eventIds T fr; world := w; journal := journal T fr |}.

(** Two callbacks answer alike in worlds related by [R], and leave
    related worlds. *)
Definition alike {E World World' : Type} (R : World -> World' -> Prop)
    (cb : @SendMatrixEventCB E World) (cb' : @SendMatrixEventCB E World') : Prop :=
  forall w w' text html,
    R w w' ->
    fst (cb w text html) = fst (cb' w' text html) /\
    R (snd (cb w text html)) (snd (cb' w' text html)).

(** Two computations ended alike: same result, same frame but for the
    worlds, which are related by [R]. *)
Definition endedAlike {E World World' A : Type} {T : Toolkit E}
    (R : World -> World' -> Prop)
    (res : (Abort E + A) * Frame (World:=World) T)
    (res' : (Abort E + A) * Frame (World:=World') T) : Prop :=
  fst res' = fst res /\
  snd res' = reworld (snd res) (world T (snd res')) /\
  R (world T (snd res)) (world T (snd res')).

(** Two computations end alike from frames that differ by related
    worlds only. *)
Definition alikeM {E World World' A : Type} {T : Toolkit E}
    (R : World -> World' -> Prop)
    (m : M (World:=World) T A) (m' : M (World:=World') T A) : Prop :=
  forall fr w', R (world T fr) w' -> endedAlike R (m fr) (m' (reworld fr w')).

End Traces.

(** ** Rendering and sending to a room *)

Module MatrixSend.
Import DeadDocument Matrix.

(** The content [renderMatrixAndSend] hands to [client.sendMessage]; a
    page that [readPage] returned as [undefined] stays [undefined]. *)
Record MessageContent : Type := {
  msgtype : string;
  body : option string;
  format : string;
  formatted_body : option string
}.

(** [MatrixSendClient], of which only [sendMessage(roomId, content)] is
    used: the promise resolves with an event id or rejects, and the call
    may change the state of the client. *)
Record MatrixSendClient (E World : Type) : Type := {
  sendMessage : World -> string -> MessageContent -> (E + string) * World
}.

Arguments sendMessage {E World} _ _ _ _.

(** The callback [renderMatrixAndSend] passes to [renderMatrix]. *)
Definition sendNotice {E World : Type} (client : MatrixSendClient E World)
    (roomId : string) : @SendMatrixEventCB E World :=
  fun w text html =>
    sendMessage client w roomId
      {| msgtype := "m.notice";
         body := text;
         format := "org.matrix.custom.html";
         formatted_body := html |}.

(** [renderMatrixAndSend(node, roomId, event, client)]; [event] is of
    type [any] and is not used. *)
Definition renderMatrixAndSend {E World Any : Type} (T : Toolkit E) (fuel : nat)
    (node : AbstractNode) (roomId : string) (event : Any)
    (client : MatrixSendClient E World) (w : World) : Run :=
  renderMatrix T (sendNotice client roomId) fuel node w.

(** *** Reading what a client was asked *)

(** One request to the client: the room and the content. *)
Definition Request : Type := (string * MessageContent)%type.

(** The state of the client after the requests [reqs], made in order. *)
Definition deliver {E World : Type} (client : MatrixSendClient E World)
    (w : World) (reqs : list Request) : World :=
  fold_left (fun w q => snd (sendMessage client w (fst q) (snd q))) reqs w.

(** A client that keeps a log of the requests it gets, oldest first, and
    hands each of them to [client]. *)
Definition logging {E World : Type} (client : MatrixSendClient E World)
  : MatrixSendClient E (list Request * World) :=
  {| sendMessage := fun lw roomId content =>
       let '(r, w') := sendMessage client (snd lw) roomId content in
       (r, (fst lw ++ [(roomId, content)], w')) |}.

(** The requests that carry the pages of a trace to [roomId]. *)
Definition notices {E : Type} (roomId : string) (t : list (Event E)) : list Request :=
  map (fun p => (roomId,
                 {| msgtype := "m.notice"; body := fst p;
                    format := "org.matrix.custom.html"; formatted_body := snd p |}))
      (sentPages t).

End MatrixSend.

(** ** The management room output (ManagementRoomOutput.ts) *)

Module ManagementRoom.
Import Matrix.

Local Open Scope string_scope.

(** [LogLevel] of the bot SDK: five values, compared by identity;
    [toString] gives the name. *)
Inductive LogLevel : Type := TRACE | DEBUG | INFO | WARN | ERROR.

Definition LogLevel_toString (level : LogLevel) : string :=
  match level with
  | TRACE => "TRACE" | DEBUG => "DEBUG" | INFO => "INFO"
  | WARN => "WARN" | ERROR => "ERROR"
  end.

Definition LogLevel_is (a b : LogLevel) : bool :=
  match a, b with
  | TRACE, TRACE | DEBUG, DEBUG | INFO, INFO | WARN, WARN | ERROR, ERROR => true
  | _, _ => false
  end.

(** The four console functions of [LogService]. *)
Inductive LogFunction : Type :=
| LogService_debug | LogService_info | LogService_warn | LogService_error.

(** The table [levelToFn], keyed by the name of the level. *)
Definition levelToFn : list (string * LogFunction) :=
  [(LogLevel_toString DEBUG, LogService_debug);
   (LogLevel_toString INFO, LogService_info);
   (LogLevel_toString WARN, LogService_warn);
   (LogLevel_toString ERROR, LogService_error)].

(** [table[key]]: [None] stands for [undefined]. *)
Fixpoint lookup (key : string) (table : list (string * LogFunction)) : option LogFunction :=
  match table with
  | [] => None
  | (k, fn) :: table' => if String.eqb k key then Some fn else lookup key table'
  end.

Record TextualMessageEventContent : Type := {
  body : string;
  formatted_body : string;
  msgtype : string;
  format : string
}.

(** The argument [additionalRoomIds]: [string[] | string | null]. *)
Inductive RoomIdsArg : Type :=
| Null
| OneRoomId (roomId : string)
| RoomIds (roomIds : list string).

(** What the file imports and does not define:
    - [htmlEscape] of ./utils;
    - [serverName] and [Permalinks.forRoom] of the protection suite;
    - [includes a b] is [a.includes(b)] on log levels;
    - [replace pattern subject replacement] is
      [subject.replace(new RegExp(pattern, "g"), replacement)]. *)
Record Externals : Type := {
  htmlEscape : string -> string;
  serverName : string -> string;
  forRoom : string -> list string -> string;
  includes : LogLevel -> LogLevel -> bool;
  replace : string -> string -> string -> string
}.

(** [MatrixSendClient], of which two methods are used; each promise
    resolves or rejects with a value of [E], and a call may change the
    state [C] of the client. [getPublishedAlias] resolves with an alias
    or with nothing. *)
Record Client (E C : Type) : Type := {
  getPublishedAlias : C -> string -> (E + option string) * C;
  sendMessage : C -> string -> TextualMessageEventContent -> (E + string) * C
}.

Arguments getPublishedAlias {E C} _ _ _.
Arguments sendMessage {E C} _ _ _ _.

(** The fields of a [ManagementRoomOutput]; of [config] only
    [verboseLogging] is read. *)
Record ManagementRoomOutput (E C : Type) : Type := {
  managementRoomID : string;
  clientUserID : string;
  client : Client E C;
  verboseLogging : bool
}.

Arguments managementRoomID {E C} _.
Arguments clientUserID {E C} _.
Arguments client {E C} _.
Arguments verboseLogging {E C} _.

(** Every call made on the client, on Sentry and on the console. *)
Inductive Effect (E : Type) : Type :=
| CaptureMessage (message level : string)
| CaptureException (ex : E)
| GetPublishedAlias (roomId : string) (r : E + option string)
| SendMessage (roomId : string) (content : TextualMessageEventContent) (r : E + string)
| LogCall (fn : LogFunction) (module : string) (params : list (string + E)).

Arguments CaptureMessage {E} message level.
Arguments CaptureException {E} ex.
Arguments GetPublishedAlias {E} roomId r.
Arguments SendMessage {E} roomId content r.
Arguments LogCall {E} fn module params.

(** The state of the client and the calls made so far, latest first. *)
Record State (E C : Type) : Type := {
  clientState : C;
  effects : list (Effect E)
}.

Arguments clientState {E C} _.
Arguments effects {E C} _.

(** [new Set(roomIds)], in iteration order: the first occurrence of each
    room id, in order. *)
Fixpoint Set_of (seen roomIds : list string) : list string :=
  match roomIds with
  | [] => []
  | roomId :: roomIds' =>
      if existsb (String.eqb roomId) seen then Set_of seen roomIds'
      else roomId :: Set_of (roomId :: seen) roomIds'
  end.

(** Truth value of a string that may be missing. *)
Definition truthy (s : option string) : bool :=
  match s with
  | Some (String _ _) => true
  | _ => false
  end.

Definition quote : string := String "034"%char EmptyString.

(** The characters of the class [[-/\\^$*+?.()|[\]{}]] of [escapeRegex]. *)
Definition special (c : ascii) : bool :=
  existsb (Ascii.eqb c)
    ["-"; "/"; "\"; "^"; "$"; "*"; "+"; "?"; "."; "("; ")"; "|"; "["; "]"; "{"; "}"]%char.

(** [escapeRegex] of [replaceRoomIdsWithPills]:
    [v.replace(/[-/\\^$*+?.()|[\]{}]/g, "\\$&")] puts a backslash before
    every character of the class. *)
Fixpoint escapeRegex (v : string) : string :=
  match v with
  | EmptyString => EmptyString
  | String c v' =>
      if special c then String "\"%char (String c (escapeRegex v'))
      else String c (escapeRegex v')
  end.

(** The string a pattern stands for when it is made of plain characters
    and of characters of the class each after a backslash; [None] for
    any other pattern. *)
Fixpoint literal (pattern : string) : option string :=
  match pattern with
  | EmptyString => Some EmptyString
  | String c rest =>
      if Ascii.eqb c "\"%char
      then match rest with
           | String d rest' =>
               if special d then option_map (String d) (literal rest') else None
           | EmptyString => None
           end
      else if special c then None else option_map (String c) (literal rest)
  end.

Section Output.

Context {E C : Type}.
Variable X : Externals.
Variable this : ManagementRoomOutput E C.

Definition M (A : Type) : Type := State E C -> (Abort E + A) * State E C.

Definition ret {A : Type} (a : A) : M A := fun st => (inr a, st).

Definition bind {A B : Type} (m : M A) (k : A -> M B) : M B :=
  fun st =>
    match m st with
    | (inr a, st') => k a st'
    | (inl x, st') => (inl x, st')
    end.

Definition throw {A : Type} (e : Exn E) : M A := fun st => (inl (Throw e), st).

Definition exhausted {A : Type} : M A := fun st => (inl Exhausted, st).

Notation "x <- m ;; k" := (bind m (fun x => k))
  (at level 61, m at next level, right associativity).
Notation "m ;; k" := (bind m (fun _ => k))
  (at level 61, right associativity).

(** A call on Sentry or on the console. *)
Definition perform (ev : Effect E) : M unit :=
  fun st => (inr tt, {| clientState := clientState st; effects := ev :: effects st |}).

(** [await this.client.getPublishedAlias(roomId)] inside its [try]: the
    value is the resolution or the rejection. *)
Definition awaitGetPublishedAlias (roomId : string) : M (E + option string) :=
  fun st =>
    let '(r, c) := getPublishedAlias (client this) (clientState st) roomId in
    (inr r, {| clientState := c; effects := GetPublishedAlias roomId r :: effects st |}).

(** [await client.sendMessage(roomId, content)] inside its [try]. *)
Definition awaitSendMessage (roomId : string) (content : TextualMessageEventContent)
  : M (E + string) :=
  fun st =>
    let '(r, c) := sendMessage (client this) (clientState st) roomId content in
    (inr r, {| clientState := c; effects := SendMessage roomId content r :: effects st |}).

(** [for (const x of xs) { content = f x content }]. *)
Fixpoint forOf {A B : Type} (f : A -> B -> M B) (xs : list A) (acc : B) : M B :=
  match xs with
  | [] => ret acc
  | x :: xs' => acc' <- f x acc ;; forOf f xs' acc'
  end.

(** The type of [this.logMessage]. *)
Definition LogMessage : Type :=
  LogLevel -> string -> string -> RoomIdsArg -> bool -> M unit.

(** The [try] statement of the loop of [replaceRoomIdsWithPills]; the
    value is [alias]. *)
Definition resolveAlias (logMessage : LogMessage) (roomId : string) : M string :=
  r <- awaitGetPublishedAlias roomId ;;
  match r with
  | inr found => ret (if truthy found then Str.text found else roomId)
  | inl e =>
      logMessage WARN "utils"
        ("Failed to resolve room alias for " ++ roomId
           ++ " - see console for details") Null true ;;
      perform (LogCall LogService_warn "ManagementRoomOutput"
                 [inl "Failed resolving room alias when formatting a message";
                  inr e]) ;;
      ret roomId
  end.

(** The body of the loop of [replaceRoomIdsWithPills]. *)
Definition replaceRoomId (logMessage : LogMessage) (viaServers : list string)
    (roomId : string) (content : TextualMessageEventContent)
  : M TextualMessageEventContent :=
  alias <- resolveAlias logMessage roomId ;;
  let regexRoomId := escapeRegex roomId in
  ret {| body := replace X regexRoomId (body content) alias;
         formatted_body :=
           if negb (Str.isEmpty (formatted_body content))
           then
             let permalink :=
               forRoom X alias (if negb (String.eqb alias roomId) then [] else viaServers) in
             replace X regexRoomId (formatted_body content)
               ("<a href=" ++ quote ++ permalink ++ quote ++ ">"
                  ++ htmlEscape X alias ++ "</a>")
           else formatted_body content;
         msgtype := msgtype content;
         format := format content |}.

(** [replaceRoomIdsWithPills(text, roomIds, msgtype)]; [roomIds] is the
    set in iteration order. *)
Definition replaceRoomIdsWithPills (logMessage : LogMessage) (text : string)
    (roomIds : list string) (msgtype : string) : M TextualMessageEventContent :=
  let content :=
    {| body := text;
       formatted_body := htmlEscape X text;
       msgtype := msgtype;
       format := "org.matrix.custom.html" |} in
  let viaServers := [serverName X (clientUserID this)] in
  forOf (replaceRoomId logMessage viaServers) roomIds content.

(** The two statements that normalise [additionalRoomIds]. *)
Definition normalise (additionalRoomIds : RoomIdsArg) : list string :=
  match additionalRoomIds with
  | Null => []
  | OneRoomId EmptyString => []
  | OneRoomId roomId => [roomId]
  | RoomIds roomIds => roomIds
  end.

(** The [try] statement of [logMessage]. *)
Definition trySendMessage (evContent : TextualMessageEventContent) : M unit :=
  r <- awaitSendMessage (managementRoomID this) evContent ;;
  match r with
  | inr _ => ret tt
  | inl ex => perform (CaptureException ex)
  end.

(** [logMessage(level, module, message, additionalRoomIds, isRecursive)];
    [fuel] bounds the depth of the calls of [logMessage] from within
    [replaceRoomIdsWithPills]. *)
Fixpoint logMessage (fuel : nat) (level : LogLevel) (module message : string)
    (additionalRoomIds : RoomIdsArg) (isRecursive : bool) : M unit :=
  match fuel with
  | 0 => exhausted
  | S fuel' =>
      (if LogLevel_is level ERROR
       then perform (CaptureMessage (module ++ ": " ++ message) "error")
       else ret tt) ;;
      let additionalRoomIds := normalise additionalRoomIds in
      (if verboseLogging this || includes X INFO level
       then
         let clientMessage := message in
         let clientMessage :=
           if LogLevel_is level WARN then "⚠ | " ++ message else clientMessage in
         let clientMessage :=
           if LogLevel_is level ERROR then "‼ | " ++ message else clientMessage in
         let roomIds := managementRoomID this :: additionalRoomIds in
         let evContent :=
           {| body := message;
              formatted_body := htmlEscape X message;
              msgtype := "m.notice";
              format := "org.matrix.custom.html" |} in
         evContent <- (if negb isRecursive
                       then replaceRoomIdsWithPills (logMessage fuel') clientMessage
                              (Set_of [] roomIds) "m.notice"
                       else ret evContent) ;;
         trySendMessage evContent
       else ret tt) ;;
      match lookup (LogLevel_toString level) levelToFn with
      | None =>
          throw (TypeError ("Unable to find logFunction for log level: "
                              ++ LogLevel_toString level))
      | Some logFunction => perform (LogCall logFunction module [inl message])
      end
  end.

(** *** Shapes of the calls made (latest first) *)

(** The condition under which a message goes to the management room. *)
Definition shown (level : LogLevel) : bool :=
  verboseLogging this || includes X INFO level.

(** The content sent for [message] when room ids are not replaced. *)
Definition plainContent (message : string) : TextualMessageEventContent :=
  {| body := message;
     formatted_body := htmlEscape X message;
     msgtype := "m.notice";
     format := "org.matrix.custom.html" |}.

Definition failureNotice (roomId : string) : string :=
  "Failed to resolve room alias for " ++ roomId ++ " - see console for details".

(** One send to the management room; a failure goes to Sentry. *)
Inductive sendShape (content : TextualMessageEventContent) : list (Effect E) -> Prop :=
| send_ok eventId :
    sendShape content [SendMessage (managementRoomID this) content (inr eventId)]
| send_failed ex :
    sendShape content [CaptureException ex;
                       SendMessage (managementRoomID this) content (inl ex)].

(** The notice of a failed lookup: sent as it is when warnings are
    shown, and written to the console. *)
Inductive noticeShape (roomId : string) : list (Effect E) -> Prop :=
| notice_silent :
    shown WARN = false ->
    noticeShape roomId [LogCall LogService_warn "utils" [inl (failureNotice roomId)]]
| notice_sent s :
    shown WARN = true ->
    sendShape (plainContent (failureNotice roomId)) s ->
    noticeShape roomId (LogCall LogService_warn "utils" [inl (failureNotice roomId)] :: s).

(** The lookup of one room id. *)
Inductive aliasShape (roomId : string) : list (Effect E) -> Prop :=
| alias_found found : aliasShape roomId [GetPublishedAlias roomId (inr found)]
| alias_failed e notice :
    noticeShape roomId notice ->
    aliasShape roomId
      (LogCall LogService_warn "ManagementRoomOutput"
         [inl "Failed resolving room alias when formatting a message"; inr e]
         :: notice ++ [GetPublishedAlias roomId (inl e)]).

(** The lookups of the room ids of a set, in iteration order. *)
Inductive pillsShape : list string -> list (Effect E) -> Prop :=
| pills_nil : pillsShape [] []
| pills_cons roomId roomIds first rest :
    aliasShape roomId first -> pillsShape roomIds rest ->
    pillsShape (roomId :: roomIds) (rest ++ first).

(** What one call of [logMessage] adds to the calls made. *)
Definition logShape (level : LogLevel) (module message : string)
    (additionalRoomIds : RoomIdsArg) (isRecursive : bool) (new : list (Effect E)) : Prop :=
  exists console room,
    new = (console ++ room
             ++ (if LogLevel_is level ERROR
                 then [CaptureMessage (module ++ ": " ++ message)%string "error"]
                 else []))%list /\
    console = match lookup (LogLevel_toString level) levelToFn with
              | Some logFunction => [LogCall logFunction module [inl message]]
              | None => []
              end /\
    if shown level
    then exists content s lookups,
        room = (s ++ lookups)%list /\ sendShape content s /\
        msgtype content = "m.notice" /\ format content = "org.matrix.custom.html" /\
        if isRecursive
        then lookups = [] /\ content = plainContent message
        else pillsShape (Set_of [] (managementRoomID this :: normalise additionalRoomIds))
                        lookups
    else room = [].

End Output.

(** *** Reading the calls made *)

(** The room ids looked up, in call order. *)
Fixpoint lookedUp {E : Type} (effs : list (Effect E)) : list string :=
  match effs with
  | [] => []
  | GetPublishedAlias roomId _ :: effs' => (lookedUp effs' ++ [roomId])%list
  | _ :: effs' => lookedUp effs'
  end.

(** The number of lookups that failed. *)
Fixpoint failedLookups {E : Type} (effs : list (Effect E)) : nat :=
  match effs with
  | [] => 0
  | GetPublishedAlias _ (inl _) :: effs' => S (failedLookups effs')
  | _ :: effs' => failedLookups effs'
  end.

(** The number of messages the client was asked to send. *)
Fixpoint sends {E : Type} (effs : list (Effect E)) : nat :=
  match effs with
  | [] => 0
  | SendMessage _ _ _ :: effs' => S (sends effs')
  | _ :: effs' => sends effs'
  end.

(** The calls made between the states [st] and [st'], latest first. *)
Definition added {E C : Type} (st st' : State E C) : list (Effect E) :=
  firstn (length (effects st') - length (effects st)) (effects st').

(** A message, if [ev] is one, goes to the management room as a notice
    in the html format. *)
Definition toManagementRoom {E C : Type} (this : ManagementRoomOutput E C)
    (ev : Effect E) : Prop :=
  match ev with
  | SendMessage roomId content _ =>
      roomId = managementRoomID this /\ msgtype content = "m.notice"%string /\
      format content = "org.matrix.custom.html"%string
  | _ => True
  end.

(** No call on the client. *)
Definition clientFree {E : Type} (effs : list (Effect E)) : Prop :=
  forall ev, In ev effs ->
    match ev with
    | GetPublishedAlias _ _ | SendMessage _ _ _ => False
    | _ => True
    end.

End ManagementRoom.

(** ** The timeline listener of the bot (Draupnir.ts) *)

Module Timeline.

Local Open Scope string_scope.

(** The calls [handleTimelineEvent] and [managementRoomMessageListener]
    make on the parts of the bot, [Ev] being a room event as received. *)
Inductive Call (Ev : Type) : Type :=
| HandleExternalInvite (roomID : string) (event : Ev)
| LogInfo (message : string)
| AddReactionToEvent (roomID eventID key : string)
| HandleCommandMessageEvent (roomID : string) (event : Ev) (body : string)
| ReportManagerTimelineEvent (roomID : string) (event : Ev)
| ReactionHandlerEvent (roomID : string) (event : Ev)
| ProtectedRoomsTimelineEvent (roomID : string) (event : Ev).

Arguments HandleExternalInvite {Ev} roomID event.
Arguments LogInfo {Ev} message.
Arguments AddReactionToEvent {Ev} roomID eventID key.
Arguments HandleCommandMessageEvent {Ev} roomID event body.
Arguments ReportManagerTimelineEvent {Ev} roomID event.
Arguments ReactionHandlerEvent {Ev} roomID event.
Arguments ProtectedRoomsTimelineEvent {Ev} roomID event.

(** The fields of a [Draupnir] the listener uses, and the parts of the
    bot it calls, which are not defined in the file:
    - [isInvitation event userID] is
      [Value.Check(MembershipEvent, event) && isInvitationForUser(event, userID)];
    - [textBody event] is [event.content.body] when
      [Value.Check(RoomMessage, event)] and
      [Value.Check(TextMessageContent, event.content)] hold;
    - [perform call w] is the world after the call [call] was started in
      the world [w] (the protected rooms set, the command dispatcher, the
      report manager, the reaction handler and the client are parts of
      it); a call is taken to return;
    - [isProtectedRoom w roomID] is
      [this.protectedRoomsSet.isProtectedRoom(roomID)] in the world [w]. *)
Record Draupnir (Ev W : Type) : Type := {
  managementRoomID : string;
  clientUserID : string;
  managementRoomPermalink : string;
  isInvitation : Ev -> string -> bool;
  textBody : Ev -> option string;
  event_id : Ev -> string;
  sender : Ev -> string;
  perform : Call Ev -> W -> W;
  isProtectedRoom : W -> string -> bool
}.

Arguments managementRoomID {Ev W} _.
Arguments clientUserID {Ev W} _.
Arguments managementRoomPermalink {Ev W} _.
Arguments isInvitation {Ev W} _ _ _.
Arguments textBody {Ev W} _ _.
Arguments event_id {Ev W} _ _.
Arguments sender {Ev W} _ _.
Arguments perform {Ev W} _ _ _.
Arguments isProtectedRoom {Ev W} _ _ _.

(** The world and the calls made so far, latest first. *)
Record State (Ev W : Type) : Type := {
  world : W;
  calls : list (Call Ev)
}.

Arguments world {Ev W} _.
Arguments calls {Ev W} _.

Definition undecryptable : string :=
  "** Unable to decrypt: The sender's device has not sent us the keys for this message. **".

Section Listener.

Context {Ev W : Type}.
Variable this : Draupnir Ev W.

(** One call on a part of the bot. *)
Definition call (c : Call Ev) (st : State Ev W) : State Ev W :=
  {| world := perform this c (world st); calls := c :: calls st |}.

Definition managementRoomMessageListener (roomID : string) (event : Ev)
    (st : State Ev W) : State Ev W :=
  if negb (String.eqb roomID (managementRoomID this)) then st
  else
    match textBody this event with
    | Some body =>
        if String.eqb body undecryptable
        then
          let st := call (LogInfo ("Unable to decrypt an event " ++ event_id this event
                                     ++ " from " ++ sender this event
                                     ++ " in the management room "
                                     ++ managementRoomPermalink this ++ ".")) st in
          let st := call (AddReactionToEvent roomID (event_id this event) "⚠") st in
          let st := call (AddReactionToEvent roomID (event_id this event) "UISI") st in
          call (AddReactionToEvent roomID (event_id this event) "🚨") st
        else
          let st := call (HandleCommandMessageEvent roomID event body) st in
          call (ReportManagerTimelineEvent roomID event) st
    | None => call (ReportManagerTimelineEvent roomID event) st
    end.

Definition handleTimelineEvent (roomID : string) (event : Ev)
    (st : State Ev W) : State Ev W :=
  let st := if isInvitation this event (clientUserID this)
            then call (HandleExternalInvite roomID event) st
            else st in
  let st := managementRoomMessageListener roomID event st in
  let st := call (ReactionHandlerEvent roomID event) st in
  if isProtectedRoom this (world st) roomID
  then call (ProtectedRoomsTimelineEvent roomID event) st
  else st.

(** The listener at work on the events of a timeline, in order. *)
Definition handleAll (events : list (string * Ev)) (st : State Ev W) : State Ev W :=
  fold_left (fun st e => handleTimelineEvent (fst e) (snd e) st) events st.

(** *** Reading the calls made *)

(** The command a room event is, if any: the body of a text message
    of the management room other than the notice of an undecryptable
    message. *)
Definition command (e : string * Ev) : option string :=
  if String.eqb (fst e) (managementRoomID this)
  then match textBody this (snd e) with
       | Some body => if String.eqb body undecryptable then None else Some body
       | None => None
       end
  else None.

(** The event is the notice of an undecryptable message in the
    management room. *)
Definition unreadable (e : string * Ev) : bool :=
  String.eqb (fst e) (managementRoomID this)
  && match textBody this (snd e) with
     | Some body => String.eqb body undecryptable
     | None => false
     end.

End Listener.

(** The commands dispatched, in call order. *)
Fixpoint dispatched {Ev : Type} (cs : list (Call Ev)) : list (string * Ev * string) :=
  match cs with
  | [] => []
  | HandleCommandMessageEvent roomID event body :: cs' =>
      (dispatched cs' ++ [(roomID, event, body)])%list
  | _ :: cs' => dispatched cs'
  end.

(** The events handed to the report manager, in call order. *)
Fixpoint reported {Ev : Type} (cs : list (Call Ev)) : list (string * Ev) :=
  match cs with
  | [] => []
  | ReportManagerTimelineEvent roomID event :: cs' => (reported cs' ++ [(roomID, event)])%list
  | _ :: cs' => reported cs'
  end.

(** The reactions added, in call order. *)
Fixpoint reactions {Ev : Type} (cs : list (Call Ev)) : list (string * string * string) :=
  match cs with
  | [] => []
  | AddReactionToEvent roomID eventID key :: cs' =>
      (reactions cs' ++ [(roomID, eventID, key)])%list
  | _ :: cs' => reactions cs'
  end.

End Timeline.

(** ** Sample documents, callbacks and runs *)

Module Examples.
Import DeadDocument Matrix Paged.

Definition paragraph (r : nat) (s : string) : AbstractNode :=
  DocumentNode r Paragraph [LeafNode (S r) TextNode s].

(** [<root><p>hello</p><p>world</p></root>] *)
Definition twoParagraphs : AbstractNode :=
  DocumentNode 0 Root [paragraph 1 "hello"; paragraph 3 "world"].

(** [<root></root>] *)
Definition emptyRoot : AbstractNode := DocumentNode 0 Root [].

(** A deep copy: the same tree made of other objects. *)
Fixpoint clone (n : AbstractNode) : AbstractNode :=
  match n with
  | DocumentNode r t cs => DocumentNode (100 + r) t (map clone cs)
  | LeafNode r t d => LeafNode (100 + r) t d
  end.

(** The world of the samples counts the calls of the callback. *)
Definition eventIdOf (calls : nat) : string :=
  ("$" ++ NilZero.string_of_int (Z.to_int (Z.of_nat calls)))%string.

(** A callback that always succeeds. *)
Definition sendOk : @SendMatrixEventCB string nat :=
  fun calls _ _ => (inr (eventIdOf calls), S calls).

(** A callback whose second call fails. *)
Definition sendFailingSecond : @SendMatrixEventCB string nat :=
  fun calls _ _ =>
    if Nat.eqb calls 1 then (inl "M_LIMIT_EXCEEDED"%string, S calls)
    else (inr (eventIdOf calls), S calls).

(** Streams that hold 14 characters a page, and streams that hold 100. *)
Definition narrow : Toolkit string := toolkit 14 rendererOf.
Definition wide : Toolkit string := toolkit 100 rendererOf.

(** A faulty toolkit: its html walker walks a copy of the tree. *)
Definition skewed : Toolkit string :=
  {| Stream := PagedDuplexStream;
     Walker := FringeWalker;
     newStream := newPagedDuplexStream 100;
     Matrix.commit := commit;
     Matrix.peekPage := peekPage;
     Matrix.ensureNewPage := ensureNewPage;
     Matrix.readPage := readPage;
     newWalker := fun node f commitHook =>
       newFringeWalker (match f with Markdown => node | Html => clone node end)
                       (rendererOf f) commitHook;
     Matrix.increment := increment |}.

(** A fringe event in the other phase: a container is left where it
    would be entered and entered where it would be left; a leaf has one
    event only. *)
Definition otherPhase (ev : Phase * AbstractNode) : Phase * AbstractNode :=
  match ev with
  | (Enter, n) => if leafNode n then (Enter, n) else (Exit, n)
  | (Exit, n) => (Enter, n)
  end.

(** A faulty toolkit: its html walker returns the nodes the markdown
    walker returns, each in the other phase. *)
Definition phaseSkewed : Toolkit string :=
  {| Stream := PagedDuplexStream;
     Walker := FringeWalker;
     newStream := newPagedDuplexStream 100;
     Matrix.commit := commit;
     Matrix.peekPage := peekPage;
     Matrix.ensureNewPage := ensureNewPage;
     Matrix.readPage := readPage;
     newWalker := fun node f commitHook =>
       match f with
       | Markdown => newFringeWalker node (rendererOf f) commitHook
       | Html =>
           {| cursor := map otherPhase (fringe node); renderer := rendererOf f;
              hook := commitHook; terminated := false |}
       end;
     Matrix.increment := increment |}.

(** The phases the two walkers of [phaseSkewed] go through on a node. *)
Definition phasesOf (f : Format) (node : AbstractNode) : list Phase :=
  map fst (cursor (walker phaseSkewed f (construct (World:=nat) phaseSkewed node 0))).

(** The three-page run of [twoParagraphs] whose second send fails, up to
    the failing call. *)
Definition failingRunPrefix : list (Event string) :=
  Eval vm_compute in
    removelast (trace (renderMatrix narrow sendFailingSecond 10 twoParagraphs 0)).

(** The pages of the failing call. *)
Definition failedPages : option string * option string :=
  Eval vm_compute in
    last (sentPages (trace (renderMatrix narrow sendFailingSecond 10 twoParagraphs 0)))
         (None, None).

(** The frame at the head of the sixth iteration of the run of
    [twoParagraphs] on narrow streams. *)
Definition sixthIteration : Frame (World:=nat) narrow :=
  snd (run narrow sendOk 5 (construct narrow twoParagraphs 0)).

End Examples.

(** ** Further samples: clients and the management room *)

Module Samples.
Import DeadDocument Matrix Paged Examples.

Local Open Scope string_scope.

(** A client that numbers the messages it sends. *)
Definition numbering : MatrixSend.MatrixSendClient string nat :=
  {| MatrixSend.sendMessage := fun calls _ _ => (inr (eventIdOf calls), S calls) |}.

(** The run of [emptyRoot] up to the increment of the markdown walker
    that returns [undefined]. *)
Definition emptyRunStart : list (Event string) :=
  Eval vm_compute in firstn 8 (trace (renderMatrix wide sendOk 10 emptyRoot 0)).

(** [<p>{["a", [1.5, true]]}{null}</p>] *)
Definition badChildren : list (JSX.rawJSX string) :=
  [JSX.RawArray
     [JSX.RawString "a";
      JSX.RawArray [JSX.RawNumber 1.5%float; JSX.RawOther None (inr (Some "true"))]];
   JSX.RawNullish JSX.JSNull].

(** Stand-ins for what ManagementRoomOutput.ts imports: levels ordered
    from [TRACE] to [ERROR], a level including the levels above it. *)
Definition rank (level : ManagementRoom.LogLevel) : nat :=
  match level with
  | ManagementRoom.TRACE => 0
  | ManagementRoom.DEBUG => 1
  | ManagementRoom.INFO => 2
  | ManagementRoom.WARN => 3
  | ManagementRoom.ERROR => 4
  end.

Definition externals : ManagementRoom.Externals :=
  {| ManagementRoom.htmlEscape := fun s => s;
     ManagementRoom.serverName := fun _ => "example.org";
     ManagementRoom.forRoom := fun alias _ => "https://matrix.to/#/" ++ alias;
     ManagementRoom.includes := fun a b => Nat.leb (rank a) (rank b);
     ManagementRoom.replace := fun _ subject _ => subject |}.

(** A client that counts its calls, knows no alias, cannot look up
    [!gone:example.org] and cannot send its third message. *)
Definition flaky : ManagementRoom.Client string nat :=
  {| ManagementRoom.getPublishedAlias := fun calls roomId =>
       (if String.eqb roomId "!gone:example.org" then inl "M_NOT_FOUND" else inr None,
        S calls);
     ManagementRoom.sendMessage := fun calls _ _ =>
       (if Nat.eqb calls 3 then inl "M_LIMIT_EXCEEDED" else inr (eventIdOf calls),
        S calls) |}.

Definition output : ManagementRoom.ManagementRoomOutput string nat :=
  {| ManagementRoom.managementRoomID := "!admin:example.org";
     ManagementRoom.clientUserID := "@draupnir:example.org";
     ManagementRoom.client := flaky;
     ManagementRoom.verboseLogging := false |}.

Definition fresh : ManagementRoom.State string nat :=
  {| ManagementRoom.clientState := 0; ManagementRoom.effects := [] |}.

(** A bot whose events are a sender and, for a text message, a body; its
    world counts the calls made. *)
Definition bot : Timeline.Draupnir (string * option string) nat :=
  {| Timeline.managementRoomID := "!admin:example.org";
     Timeline.clientUserID := "@draupnir:example.org";
     Timeline.managementRoomPermalink := "https://matrix.to/#/!admin:example.org";
     Timeline.isInvitation := fun _ _ => false;
     Timeline.textBody := snd;
     Timeline.event_id := fun _ => "$event";
     Timeline.sender := fst;
     Timeline.perform := fun _ calls => S calls;
     Timeline.isProtectedRoom := fun _ _ => true |}.

(** A command in a protected room, the same command in the management
    room, and a message the bot could not decrypt. *)
Definition timeline : list (string * (string * option string)) :=
  [("!lobby:example.org", ("@mallory:example.org", Some "!draupnir ban @alice:example.org"));
   ("!admin:example.org", ("@admin:example.org", Some "!draupnir ban @mallory:example.org"));
   ("!admin:example.org", ("@admin:example.org", Some Timeline.undecryptable))].

End Samples.

(** * Part II: lemmas and theorems *)

(** ** Strings *)

Module StrFacts.

Lemma append_nil_r (s : string) : (s ++ "")%string = s.
Proof. induction s as [|c s IH]; simpl; [reflexivity | now rewrite IH]. Qed.

Lemma append_assoc (a b c : string) :
  ((a ++ b) ++ c)%string = (a ++ (b ++ c))%string.
Proof. induction a as [|x a IH]; simpl; [reflexivity | now rewrite IH]. Qed.

Lemma length_append (a b : string) :
  String.length (a ++ b) = String.length a + String.length b.
Proof. induction a as [|x a IH]; simpl; [reflexivity | now rewrite IH]. Qed.

Lemma isEmpty_true (s : string) : Str.isEmpty s = true <-> s = ""%string.
Proof. destruct s; simpl; split; congruence. Qed.

Lemma isEmpty_length (s : string) : Str.isEmpty s = true <-> String.length s = 0.
Proof. destruct s; simpl; split; congruence. Qed.

Lemma append_eq_nil (a b : string) :
  (a ++ b)%string = ""%string -> a = ""%string /\ b = ""%string.
Proof. destruct a; simpl; [auto | discriminate]. Qed.

Lemma join_app (l1 l2 : list string) :
  Str.join (l1 ++ l2) = (Str.join l1 ++ Str.join l2)%string.
Proof.
  induction l1 as [|x l1 IH]; simpl; [reflexivity|].
  now rewrite IH, append_assoc.
Qed.

End StrFacts.

(** ** The document tree *)

Module DeadDocumentFacts.
Import DeadDocument.

Lemma NodeTag_eqb_spec (a b : NodeTag) : reflect (a = b) (NodeTag_eqb a b).
Proof. destruct a, b; simpl; constructor; congruence. Qed.

(** Induction over trees, with the children handled by [Forall]. *)
Lemma AbstractNode_tree_ind (P : AbstractNode -> Prop) :
  (forall r t cs, Forall P cs -> P (DocumentNode r t cs)) ->
  (forall r t d, P (LeafNode r t d)) ->
  forall n, P n.
Proof.
  intros Hdoc Hleaf.
  fix rec 1.
  intros [r t cs | r t d]; [apply Hdoc | apply Hleaf].
  induction cs as [|c cs IH]; constructor; [apply rec | exact IH].
Qed.

End DeadDocumentFacts.

(** ** The JSX factory *)

Module JSXFacts.
Import DeadDocument JSX.

Lemma rawJSX_tree_ind {E : Type} (P : rawJSX E -> Prop) :
  (forall s, P (RawString s)) ->
  (forall x, P (RawNumber x)) ->
  (forall items, Forall P items -> P (RawArray items)) ->
  (forall n, P (RawNode n)) ->
  (forall v, P (RawNullish v)) ->
  (forall l j, P (RawOther l j)) ->
  forall r, P r.
Proof.
  intros Hs Hn Ha Hd Hu Ho.
  fix rec 1.
  intros [s | x | items | n | v | l j];
    [apply Hs | apply Hn | apply Ha | apply Hd | apply Hu | apply Ho].
  induction items as [|x items IH]; constructor; [apply rec | exact IH].
Qed.

Section Facts.

Context {E : Type}.
Variable engine : Engine.

Lemma becomes_widen lo hi lo' hi' (r : rawJSX E) c :
  becomes engine lo hi r c -> lo' <= lo -> hi <= hi' -> becomes engine lo' hi' r c.
Proof. intros H Hlo Hhi. destruct H; constructor; lia. Qed.

Lemma Forall2_becomes_widen lo hi lo' hi' (rs : list (rawJSX E)) cs :
  Forall2 (becomes engine lo hi) rs cs -> lo' <= lo -> hi <= hi' ->
  Forall2 (becomes engine lo' hi') rs cs.
Proof.
  intros H Hlo Hhi. induction H; constructor; eauto using becomes_widen.
Qed.

Lemma ensureChild_ensures (r : rawJSX E) :
  forall ref0 t cs next,
    ensures engine (flattenRaw r) (ensureChild engine r (DocumentNode ref0 t cs, next))
            ref0 t cs next.
Proof.
  induction r as [s | x | items IH | n | v | l j] using rawJSX_tree_ind;
    intros ref0 t cs next; unfold ensures; simpl.
  - exists [LeafNode next TextNode s], (S next).
    repeat split; [lia | repeat constructor; lia].
  - exists [LeafNode next TextNode (Number_toString engine x)], (S next).
    repeat split; [lia | repeat constructor; lia].
  - revert cs next.
    induction IH as [|x items Hx _ IHitems]; intros cs next; simpl.
    + exists [], next. rewrite app_nil_r. repeat split; [lia | constructor].
    + rewrite forallb_app.
      specialize (Hx ref0 t cs next). unfold ensures in Hx.
      destruct (forallb accepted (flattenRaw x)); simpl.
      * destruct Hx as (new1 & next1 & -> & Hle1 & Hb1).
        specialize (IHitems (cs ++ new1) next1).
        destruct (forallb accepted (flat_map flattenRaw items)).
        -- destruct IHitems as (new2 & next2 & -> & Hle2 & Hb2).
           exists (new1 ++ new2), next2. rewrite app_assoc.
           repeat split; [lia|].
           apply Forall2_app.
           ++ eapply Forall2_becomes_widen; eauto.
           ++ eapply Forall2_becomes_widen; eauto.
        -- exact IHitems.
      * destruct Hx as (e & ->). now exists e.
  - exists [n], next. repeat split; [lia | repeat constructor].
  - eexists; reflexivity.
  - destruct l as [thrown|]; [|destruct j as [thrown | json]]; eexists; reflexivity.
Qed.

Lemma forEach_ensures (rs : list (rawJSX E)) :
  forall ref0 t cs next,
    ensures engine (flattenAll rs)
            (forEach (ensureChild engine) rs (DocumentNode ref0 t cs, next))
            ref0 t cs next.
Proof.
  intros ref0 t cs next.
  exact (ensureChild_ensures (RawArray rs) ref0 t cs next).
Qed.

(** *** Arrays among the children *)

Lemma forEach_app {A S X : Type} (f : A -> S -> X + S) (l1 l2 : list A) :
  forall st,
    forEach f (l1 ++ l2) st
    = match forEach f l1 st with
      | inr st' => forEach f l2 st'
      | inl e => inl e
      end.
Proof.
  induction l1 as [|x l1 IH]; intros st; simpl; [reflexivity|].
  destruct (f x st) as [e | st']; [reflexivity | apply IH].
Qed.

(** An array among the children stands for its items. *)
Lemma ensureChild_flatten (r : rawJSX E) :
  forall st,
    ensureChild engine r st = forEach (ensureChild engine) (flattenRaw r) st.
Proof.
  induction r as [s | x | items IH | n | v | l j] using rawJSX_tree_ind; intros st;
    try reflexivity.
  - simpl. revert st.
    induction IH as [|x items Hx _ IHitems]; intros st; [reflexivity|].
    simpl. rewrite forEach_app, <- Hx.
    destruct (ensureChild engine x st) as [e | st']; [reflexivity | apply IHitems].
  - simpl. destruct l as [thrown|]; [|destruct j as [thrown | json]]; reflexivity.
Qed.

Lemma forEach_flatten (rs : list (rawJSX E)) :
  forall st,
    forEach (ensureChild engine) rs st = forEach (ensureChild engine) (flattenAll rs) st.
Proof. intros st. exact (ensureChild_flatten (RawArray rs) st). Qed.

Lemma forEach_accepted (rs : list (rawJSX E)) :
  forallb accepted rs = true ->
  forall st, exists st', forEach (ensureChild engine) rs st = inr st'.
Proof.
  induction rs as [|r rs IH]; intros Hacc st; [now exists st|].
  simpl in Hacc. apply andb_true_iff in Hacc. destruct Hacc as [Hr Hrs].
  destruct r; try discriminate; simpl; apply IH, Hrs.
Qed.

Lemma JSXFactory_flatten {Props : Type} (t : NodeTag)
    (properties : Props) (rawChildren : list (rawJSX E)) (next : nat) :
  JSXFactory engine t properties rawChildren next
  = JSXFactory engine t properties (flattenAll rawChildren) next.
Proof. unfold JSXFactory. apply forEach_flatten. Qed.

Lemma flattenRaw_no_array (r : rawJSX E) :
  forall x items, In x (flattenRaw r) -> x <> RawArray items.
Proof.
  induction r as [s | x | items IH | n | v | l j] using rawJSX_tree_ind;
    intros y items' Hin; simpl in Hin;
    try (destruct Hin as [<- | []]; discriminate).
  apply in_flat_map in Hin. destruct Hin as (z & Hz & Hy).
  rewrite Forall_forall in IH. exact (IH z Hz y items' Hy).
Qed.

Lemma flattenAll_no_array (rs : list (rawJSX E)) :
  forall x items, In x (flattenAll rs) -> x <> RawArray items.
Proof. exact (flattenRaw_no_array (RawArray rs)). Qed.

(** *** The child that is refused *)

(** A child that is refused and is no array makes [ensureChild] throw. *)
Lemma ensureChild_refusal (bad : rawJSX E) (st : Building) :
  accepted bad = false -> (forall items, bad <> RawArray items) ->
  ensureChild engine bad st = inl (refusal engine bad).
Proof.
  intros Hbad Harr.
  destruct bad as [s | x | items | n | v | l j]; try discriminate.
  - now destruct (Harr items).
  - reflexivity.
  - simpl. destruct l as [thrown|]; [|destruct j as [thrown | json]]; reflexivity.
Qed.

(** The first child that is refused decides. *)
Lemma JSXFactory_refuses {Props : Type} (t : NodeTag) (properties : Props)
    (rawChildren : list (rawJSX E)) (next : nat) (pre post : list (rawJSX E))
    (bad : rawJSX E) :
  flattenAll rawChildren = pre ++ bad :: post ->
  forallb accepted pre = true ->
  accepted bad = false ->
  JSXFactory engine t properties rawChildren next = inl (refusal engine bad).
Proof.
  intros Hflat Hpre Hbad.
  assert (Hin : In bad (flattenAll rawChildren)) by (rewrite Hflat; apply in_elt).
  rewrite JSXFactory_flatten, Hflat. unfold JSXFactory.
  rewrite forEach_app.
  destruct (forEach_accepted pre Hpre (makeDocumentNode t next)) as (st' & ->).
  simpl. rewrite ensureChild_refusal; [reflexivity | exact Hbad|].
  intros items. now apply (flattenAll_no_array rawChildren).
Qed.

(** A list with a child that is refused, cut at the first one. *)
Lemma first_refused (rs : list (rawJSX E)) :
  forallb accepted rs = false ->
  exists pre bad post,
    rs = pre ++ bad :: post /\ forallb accepted pre = true /\ accepted bad = false.
Proof.
  induction rs as [|r rs IH]; [discriminate|].
  simpl. destruct (accepted r) eqn:Hr; simpl.
  - intros H. destruct (IH H) as (pre & bad & post & -> & Hpre & Hbad).
    exists (r :: pre), bad, post. simpl. rewrite Hr. auto.
  - intros _. exists [], r, rs. auto.
Qed.

(** C10 (as amended): when the flattened children are all strings,
    numbers or nodes, [JSXFactory(tag, properties, ...children)] returns
    a new document node (its identity is the next unused one) with the
    given tag, whose children are the flattened raw children in order: a
    string becomes a text leaf carrying that string, a number a text leaf
    carrying what its [toString()] returns, an array is flattened
    recursively, an existing node is attached as it is. Otherwise the
    call throws on account of the first flattened child that is none of
    these: the [TypeError] of the engine for [null] and [undefined], the
    value that reading [leafNode] or [JSON.stringify] throws when one of
    them throws, and else the [TypeError] that carries the JSON text of
    the child. *)
Theorem JSXFactory_children :
  forall (Props : Type) (t : NodeTag) (properties : Props)
         (rawChildren : list (rawJSX E)) (next : nat),
    if forallb accepted (flattenAll rawChildren)
    then exists cs next',
        JSXFactory engine t properties rawChildren next
          = inr (DocumentNode next t cs, next') /\
        Forall2 (becomes engine (S next) next') (flattenAll rawChildren) cs
    else exists pre bad post thrown,
        flattenAll rawChildren = pre ++ bad :: post /\
        forallb accepted pre = true /\ accepted bad = false /\
        JSXFactory engine t properties rawChildren next = inl thrown /\
        match bad with
        | RawNullish v => thrown = TypeError (cannotRead engine v)
        | RawOther (Some e) _ | RawOther None (inl e) => thrown = e
        | RawOther None (inr json) =>
            thrown = TypeError ("Unexpected raw child " ++ templateText json)
        | _ => False
        end.
Proof.
  intros Props t properties rawChildren next.
  destruct (forallb accepted (flattenAll rawChildren)) eqn:Hacc.
  - unfold JSXFactory, makeDocumentNode.
    pose proof (forEach_ensures rawChildren next t [] (S next)) as H.
    unfold ensures in H. rewrite Hacc in H.
    destruct H as (new & next' & -> & _ & Hb). now exists new, next'.
  - destruct (first_refused _ Hacc) as (pre & bad & post & Hflat & Hpre & Hbad).
    exists pre, bad, post, (refusal engine bad).
    split; [exact Hflat|]. split; [exact Hpre|]. split; [exact Hbad|].
    split; [now apply (JSXFactory_refuses t properties rawChildren next pre post)|].
    assert (Hin : In bad (flattenAll rawChildren)) by (rewrite Hflat; apply in_elt).
    destruct bad as [s | x | items | n | v | l j]; try discriminate.
    + now destruct (flattenAll_no_array rawChildren _ items Hin).
    + reflexivity.
    + destruct l as [thrown|]; [|destruct j as [thrown | json]]; reflexivity.
Qed.

End Facts.

End JSXFacts.

(** ** Arrays among the children of the JSX factory *)

Module JSXArrayFacts.
Import DeadDocument JSX JSXFacts.

(** X8: arrays among the children of [JSXFactory] are transparent: the
    call builds the same node, allocates the same objects and throws the
    same error as with the items of the arrays given in their place, at
    any depth of nesting. *)
Theorem JSXFactory_nested_arrays_are_spliced :
  forall (E : Type) (engine : Engine) (Props : Type) (t : NodeTag) (properties : Props)
         (rawChildren : list (rawJSX E)) (next : nat),
    JSXFactory engine t properties rawChildren next
    = JSXFactory engine t properties (flattenAll rawChildren) next.
Proof.
  intros E engine Props t properties rawChildren next. unfold JSXFactory.
  apply forEach_flatten.
Qed.

(** X9: [JSXFactory] stops at the first child, in document order with
    arrays spliced, that is neither a string, a number nor a node: the
    children after it play no part, and what is thrown is decided by
    that child alone: the [TypeError] of the engine for [null] and
    [undefined], the value that reading [leafNode] or [JSON.stringify]
    throws when one of them throws, and else the [TypeError] whose
    message is [Unexpected raw child] followed by what [JSON.stringify]
    returned ([undefined] by its name). *)
Theorem JSXFactory_blames_first_bad_child :
  forall (E : Type) (engine : Engine) (Props : Type) (t : NodeTag) (properties : Props)
         (rawChildren : list (rawJSX E)) (next : nat)
         (pre post : list (rawJSX E)) (bad : rawJSX E),
    flattenAll rawChildren = pre ++ bad :: post ->
    forallb accepted pre = true ->
    accepted bad = false ->
    exists thrown,
      JSXFactory engine t properties rawChildren next = inl thrown /\
      JSXFactory engine t properties (pre ++ [bad]) next = inl thrown /\
      (forall v, bad = RawNullish v -> thrown = TypeError (cannotRead engine v)) /\
      (forall e j, bad = RawOther (Some e) j -> thrown = e) /\
      (forall e, bad = RawOther None (inl e) -> thrown = e) /\
      (forall json, bad = RawOther None (inr json) ->
         thrown = TypeError ("Unexpected raw child " ++ templateText json)).
Proof.
  intros E engine Props t properties rawChildren next pre post bad Hflat Hpre Hbad.
  assert (Hin : In bad (flattenAll rawChildren)) by (rewrite Hflat; apply in_elt).
  assert (Harr : forall items, bad <> RawArray items)
    by (intros items; now apply flattenAll_no_array with (rs := rawChildren)).
  exists (refusal engine bad).
  split; [now apply (JSXFactory_refuses engine t properties rawChildren next pre post)|].
  split.
  - unfold JSXFactory. rewrite forEach_app.
    destruct (forEach_accepted engine pre Hpre (makeDocumentNode t next)) as (st' & ->).
    simpl. now rewrite ensureChild_refusal.
  - repeat split; intros; subst bad; reflexivity.
Qed.

End JSXArrayFacts.

(** ** The render orchestrator *)

Module MatrixFacts.
Import DeadDocument Matrix.

(** *** Traces *)

Lemma sentIds_app {E : Type} (t1 t2 : list (Event E)) :
  sentIds (t1 ++ t2) = sentIds t1 ++ sentIds t2.
Proof.
  induction t1 as [|ev t1 IH]; simpl; [reflexivity|].
  destruct ev as [| | | | |? ? [e|eventId]]; simpl; now rewrite ?IH.
Qed.

Lemma sentPages_app {E : Type} (t1 t2 : list (Event E)) :
  sentPages (t1 ++ t2) = sentPages t1 ++ sentPages t2.
Proof.
  induction t1 as [|ev t1 IH]; simpl; [reflexivity|].
  destruct ev; simpl; now rewrite ?IH.
Qed.

(** A trace cut around one of its events, read off the journal. *)
Lemma rev_split {A : Type} (j : list A) (pre mid post : list A) :
  rev j = pre ++ mid ++ post -> j = rev post ++ rev mid ++ rev pre.
Proof.
  intros H. rewrite <- (rev_involutive j), H.
  now rewrite !rev_app_distr, app_assoc.
Qed.


(** *** Shapes of a journal *)

Lemma sentIds_snoc {E : Type} (j : list (Event E)) (ev : Event E) :
  sentIds (rev (ev :: j)) = sentIds (rev j) ++ sentIds [ev].
Proof. change (rev (ev :: j)) with (rev j ++ [ev]). apply sentIds_app. Qed.

Lemma allSendsOk_cons {E : Type} (ev : Event E) (j : list (Event E)) :
  (forall text html e, ev <> ESend text html (inl e)) ->
  allSendsOk j -> allSendsOk (ev :: j).
Proof.
  intros Hev Hj text html e [Heq | Hin]; [now apply (Hev text html e) | now apply (Hj text html e)].
Qed.

Lemma allSendsOk_length {E : Type} (t : list (Event E)) :
  allSendsOk t -> length (sentIds t) = length (sentPages t).
Proof.
  induction t as [|ev t IH]; intros Hok; [reflexivity|].
  assert (Ht : allSendsOk t) by (intros text html e Hin; apply (Hok text html e); now right).
  destruct ev as [| | | | |text html [e|eventId]]; simpl; auto.
  exfalso. apply (Hok text html e). now left.
Qed.

Lemma allSendsOk_rev {E : Type} (j : list (Event E)) :
  allSendsOk j -> allSendsOk (rev j).
Proof. intros H text html e Hin. apply (H text html e). now apply in_rev. Qed.

Lemma lockstep_app {E : Type} (l1 l2 : list (Event E)) :
  lockstep (l1 ++ l2) -> lockstep l2.
Proof. induction l1 as [|ev l1 IH]; simpl; [auto | intros [H _]; auto]. Qed.

Lemma lockstep_pair {E : Type} (l1 l2 : list (Event E)) a b :
  lockstep (l1 ++ EIncrement Html (inr b) :: EIncrement Markdown (inr a) :: l2) ->
  Object_is b a = true.
Proof. intros H. apply lockstep_app in H. simpl in H. tauto. Qed.

Lemma paired_app {E : Type} (l1 l2 : list (Event E)) :
  paired (l1 ++ l2) -> paired l2.
Proof. induction l1 as [|ev l1 IH]; simpl; [auto | intros [H _]; auto]. Qed.

(** A send comes right after the reads of its two arguments. *)
Lemma paired_send {E : Type} (l1 l2 : list (Event E)) text html r :
  paired (l1 ++ ESend text html r :: l2) ->
  exists l2', l2 = EReadPage Html html :: EReadPage Markdown text :: l2'.
Proof. intros H. apply paired_app in H. simpl in H. tauto. Qed.

(** A read is followed at once by its partner or by the send. *)
Lemma paired_read {E : Type} (l1 l2 : list (Event E)) f page :
  paired (l1 ++ EReadPage f page :: l2) -> settled (l1 ++ EReadPage f page :: l2) ->
  exists l1' ev, l1 = l1' ++ [ev] /\
    match f with
    | Html => exists text r, ev = ESend text page r
    | Markdown => exists html, ev = EReadPage Html html
    end.
Proof.
  intros Hp Hs.
  destruct (exists_last (l := l1)) as (l1' & ev & ->).
  { intros ->. simpl in Hs. exact Hs. }
  exists l1', ev. split; [reflexivity|].
  rewrite <- app_assoc in Hp. apply paired_app in Hp. simpl in Hp.
  destruct Hp as (_ & _ & H). destruct f; exact H.
Qed.

Lemma paired_cons_plain {E : Type} (ev : Event E) (j : list (Event E)) :
  match ev with ESend _ _ _ | EReadPage _ _ => False | _ => True end ->
  paired j -> settled j -> paired (ev :: j).
Proof.
  intros Hev Hp Hs. simpl. split; [exact Hp|].
  split; [destruct ev as [| | | |[] ?|]; tauto|].
  destruct j as [|[| | | |f ?|] j]; simpl in Hs; tauto.
Qed.

Lemma paired_sendPages {E : Type} (j : list (Event E)) text html r :
  paired j -> settled j ->
  paired (ESend text html r :: EReadPage Html html :: EReadPage Markdown text :: j).
Proof.
  intros Hp Hs. simpl. repeat split; eauto.
  destruct j as [|[| | | |f ?|] j]; simpl in Hs; tauto.
Qed.

Lemma rev_split1 {A : Type} (j pre post : list A) (x : A) :
  rev j = pre ++ x :: post -> j = rev post ++ x :: rev pre.
Proof. intros H. now apply (rev_split j pre [x] post) in H. Qed.

Lemma rev_split2 {A : Type} (j pre post : list A) (x y : A) :
  rev j = pre ++ x :: y :: post -> j = rev post ++ y :: x :: rev pre.
Proof. intros H. now apply (rev_split j pre [x; y] post) in H. Qed.

Section Facts.

Context {E World : Type}.
Variable T : Toolkit E.
Variable cb : @SendMatrixEventCB E World.

Local Abbreviation Frame := (Frame (World:=World) T).
Local Abbreviation M := (M (World:=World) T).

(** *** Rules for [triple] *)

Lemma triple_ret {A : Type} (a : A) (P : Frame -> Prop) Q X :
  (forall fr, P fr -> Q a fr) -> triple T P (ret T a) Q X.
Proof. intros H fr HP. simpl. auto. Qed.

Lemma triple_bind {A B : Type} (m : M A) (k : A -> M B) P Q R X :
  triple T P m Q X -> (forall a, triple T (Q a) (k a) R X) ->
  triple T P (bind T m k) R X.
Proof.
  intros Hm Hk fr HP. unfold bind. specialize (Hm fr HP).
  destruct (m fr) as [[x | a] fr']; [exact Hm | exact (Hk a fr' Hm)].
Qed.

Lemma triple_post {A : Type} (m : M A) P (Q Q' : A -> Frame -> Prop) X :
  triple T P m Q X -> (forall a fr, Q a fr -> Q' a fr) -> triple T P m Q' X.
Proof.
  intros Hm HQ fr HP. specialize (Hm fr HP).
  destruct (m fr) as [[x | a] fr']; auto.
Qed.

(** *** The three statements the loop is made of *)

Lemma stepBoth_cases (fr : Frame) : stepBothSpec T fr (stepBoth T fr).
Proof.
  unfold stepBoth, bind, incrementOf, checkEqual, ret, throw. simpl.
  destruct (increment T (markdownWalker T fr) (markdownOutput T fr))
    as [[[e | a] w1] s1]; simpl.
  - apply stepBoth_markdown_throws; reflexivity.
  - destruct (increment T (htmlWalker T fr) (htmlOutput T fr))
      as [[[e | b] w2] s2]; simpl.
    + apply (stepBoth_html_throws _ _ a); reflexivity.
    + destruct (Object_is b a) eqn:Hab; simpl.
      * apply (stepBoth_agree _ _ a b); [exact Hab | reflexivity ..].
      * apply (stepBoth_mismatch _ _ a b); [exact Hab | reflexivity ..].
Qed.

Lemma sendPages_cases (fr : Frame) : sendPagesSpec T fr (sendPages T cb fr).
Proof.
  unfold sendPages, bind, readPageOf, awaitCb, push. simpl.
  destruct (readPage T (markdownOutput T fr)) as [text s1]; simpl.
  destruct (readPage T (htmlOutput T fr)) as [html s2]; simpl.
  destruct (cb (world T fr) text html) as [[e | eventId] w']; simpl.
  - apply (sendPages_failed _ _ text html e); reflexivity.
  - apply (sendPages_sent _ _ text html eventId); reflexivity.
Qed.

Lemma forEachEnsureNewPage_eq (fr : Frame) :
  exists fr',
    forEachEnsureNewPage T fr = (inr tt, fr') /\
    journal T fr' = EEnsureNewPage Markdown :: EEnsureNewPage Html :: journal T fr /\
    eventIds T fr' = eventIds T fr /\ world T fr' = world T fr /\
    markdownOutput T fr' = ensureNewPage T (markdownOutput T fr) /\
    htmlOutput T fr' = ensureNewPage T (htmlOutput T fr) /\
    markdownWalker T fr' = markdownWalker T fr /\
    htmlWalker T fr' = htmlWalker T fr.
Proof. eexists. repeat split. Qed.

(** *** From the statements to the whole run *)

Section Invariant.

Variable I : Frame -> Prop.
Variable X : Abort E -> Frame -> Prop.

Hypothesis I_stepBoth : triple T I (stepBoth T) (fun _ => I) X.
Hypothesis I_sendPages : triple T I (sendPages T cb) (fun _ => I) X.
Hypothesis I_ensure : triple T I (forEachEnsureNewPage T) (fun _ => I) X.
Hypothesis I_exhausted : forall fr, I fr -> X Exhausted fr.

Lemma sendIfReady_invariant : triple T I (sendIfReady T cb) (fun _ => I) X.
Proof.
  intros fr HI. unfold sendIfReady, bind, somePeekPage.
  destruct (peekPage T (htmlOutput T fr) || peekPage T (markdownOutput T fr)).
  - assert (H : triple T I (bind T (forEachEnsureNewPage T) (fun _ => sendPages T cb))
                         (fun _ => I) X)
      by (eapply triple_bind; [exact I_ensure | intros u; exact I_sendPages]).
    exact (H fr HI).
  - exact HI.
Qed.

Lemma body_invariant : triple T I (body T cb) (fun _ => I) X.
Proof.
  unfold body. eapply triple_bind; [exact sendIfReady_invariant|].
  intros u. exact I_stepBoth.
Qed.

Lemma while_invariant (fuel : nat) :
  forall cur, triple T I (while T cb fuel cur) (fun _ => I) X.
Proof.
  induction fuel as [|fuel IH]; intros [n|]; simpl.
  - intros fr HI. apply I_exhausted, HI.
  - now apply triple_ret.
  - eapply triple_bind; [exact body_invariant | exact IH].
  - now apply triple_ret.
Qed.

Lemma finish_invariant :
  triple T I (finish T cb) (fun ids fr => I fr /\ ids = eventIds T fr) X.
Proof.
  unfold finish. eapply triple_bind; [exact I_ensure|]. intros u.
  intros fr HI. unfold bind, somePeekPage, getEventIds.
  destruct (peekPage T (htmlOutput T fr) || peekPage T (markdownOutput T fr)).
  - specialize (I_sendPages fr HI).
    destruct (sendPages T cb fr) as [[x | []] fr']; auto.
  - simpl. auto.
Qed.

Lemma run_invariant (fuel : nat) :
  triple T I (run T cb fuel) (fun ids fr => I fr /\ ids = eventIds T fr) X.
Proof.
  unfold run. eapply triple_bind; [exact I_stepBoth|]. intros cur.
  eapply triple_bind; [apply while_invariant|]. intros u.
  exact finish_invariant.
Qed.

End Invariant.

(** *** The journal of a run is well formed *)

Ltac ids_step :=
  rewrite ?sentIds_snoc; simpl sentIds; rewrite ?app_nil_r; congruence.

Ltac sends_ok_step :=
  repeat (apply allSendsOk_cons; [discriminate|]); assumption.

Ltac paired_step :=
  repeat (apply paired_cons_plain; [exact I | | first [exact I | assumption]]);
  assumption.

Lemma lockstep_cons_other (ev : Event E) (j : list (Event E)) :
  match ev with EIncrement Html (inr _) => False | _ => True end ->
  lockstep j -> lockstep (ev :: j).
Proof.
  intros Hev Hj. simpl. split; [exact Hj|].
  destruct ev as [| |[] [|]| | |]; try exact I. contradiction.
Qed.

Lemma lockstep_cons_pair (a b : option AbstractNode) (j : list (Event E)) :
  Object_is b a = true -> lockstep j ->
  lockstep (EIncrement Html (inr b) :: EIncrement Markdown (inr a) :: j).
Proof. intros Hab Hj. simpl. tauto. Qed.

Lemma steady_stepBoth :
  triple (World:=World) T (steady T) (stepBoth T) (fun _ => steady T) (stopped T).
Proof.
  intros fr (Hids & Hok & Hlock & Hpair & Hset).
  generalize (stepBoth_cases fr).
  destruct (stepBoth T fr) as [[x | cur] fr']; intros H; inversion H; subst; clear H;
    match goal with Hj : journal T fr' = _, He : eventIds T fr' = _ |- _ =>
      unfold stopped, steady; rewrite Hj, He end.
  - (* the markdown walker throws *)
    split; [ids_step|]. split; [paired_step|]. split; [exact I|].
    split; [now apply lockstep_cons_other|]. left. sends_ok_step.
  - (* the html walker throws *)
    split; [ids_step|]. split; [paired_step|]. split; [exact I|].
    split; [do 2 (apply lockstep_cons_other; [exact I|]); assumption|].
    left. sends_ok_step.
  - (* the two nodes differ *)
    split; [ids_step|]. split; [paired_step|]. split; [exact I|].
    split; [reflexivity|]. split; [sends_ok_step|].
    now exists a, b, (journal T fr).
  - (* the two nodes agree *)
    split; [ids_step|]. split; [sends_ok_step|].
    split; [now apply lockstep_cons_pair|]. split; [paired_step | exact I].
Qed.

Lemma steady_sendPages :
  triple (World:=World) T (steady T) (sendPages T cb) (fun _ => steady T) (stopped T).
Proof.
  intros fr (Hids & Hok & Hlock & Hpair & Hset).
  generalize (sendPages_cases fr).
  destruct (sendPages T cb fr) as [[x | []] fr']; intros H; inversion H; subst; clear H;
    match goal with Hj : journal T fr' = _, He : eventIds T fr' = _ |- _ =>
      unfold stopped, steady; rewrite Hj, He end.
  - split; [ids_step|]. split; [now apply paired_sendPages|]. split; [exact I|].
    split; [do 3 (apply lockstep_cons_other; [exact I|]); assumption|].
    right. exists text, html, (EReadPage Html html :: EReadPage Markdown text :: journal T fr).
    split; [reflexivity | sends_ok_step].
  - split; [ids_step|]. split; [sends_ok_step|].
    split; [do 3 (apply lockstep_cons_other; [exact I|]); assumption|].
    split; [now apply paired_sendPages | exact I].
Qed.

Lemma steady_ensure :
  triple (World:=World) T (steady T) (forEachEnsureNewPage T) (fun _ => steady T) (stopped T).
Proof.
  intros fr (Hids & Hok & Hlock & Hpair & Hset).
  destruct (forEachEnsureNewPage_eq fr) as (fr' & -> & Hj & He & _).
  unfold steady. rewrite Hj, He.
  split; [ids_step|]. split; [sends_ok_step|].
  split; [do 2 (apply lockstep_cons_other; [exact I|]); assumption|].
  split; [paired_step | exact I].
Qed.

Lemma steady_exhausted (fr : Frame) : steady T fr -> stopped T Exhausted fr.
Proof. intros (Hids & Hok & Hlock & Hpair & Hset). repeat split; auto. Qed.

Lemma steady_construct (node : AbstractNode) (w : World) :
  steady T (construct T node w).
Proof.
  unfold steady. simpl. repeat split; auto.
  intros text html e H. simpl in H. intuition discriminate.
Qed.

(** Every run that gets past the check on the root ends in a frame with
    a well-formed journal. *)
Lemma run_steady (fuel : nat) (node : AbstractNode) (w : World) :
  match run T cb fuel (construct T node w) with
  | (inr ids, fr) => steady T fr /\ ids = eventIds T fr
  | (inl x, fr) => stopped T x fr
  end.
Proof.
  apply (run_invariant _ _ steady_stepBoth steady_sendPages steady_ensure
           steady_exhausted fuel).
  apply steady_construct.
Qed.

Lemma conclude_trace (res : (Abort E + list string) * Frame) :
  trace (conclude T res) = rev (journal T (snd res)).
Proof. destruct res as [[[x | ] | ids] fr]; reflexivity. Qed.

Lemma conclude_outcome (res : (Abort E + list string) * Frame) :
  outcome (conclude T res)
  = match fst res with
    | inr ids => Returned ids
    | inl (Throw e) => Thrown e
    | inl Exhausted => OutOfFuel
    end.
Proof. destruct res as [[[x | ] | ids] fr]; reflexivity. Qed.

Lemma renderMatrix_unfold (fuel : nat) (node : AbstractNode) (w : World) :
  (tag node <> Root /\
   renderMatrix T cb fuel node w
   = {| outcome := Thrown (TypeError rootMessage); trace := [];
        collected := []; finalWorld := w |}) \/
  (tag node = Root /\
   renderMatrix T cb fuel node w = conclude T (run T cb fuel (construct T node w))).
Proof.
  unfold renderMatrix.
  destruct (DeadDocumentFacts.NodeTag_eqb_spec (tag node) Root) as [Heq | Hne]; simpl; auto.
Qed.

(** *** The check on the root *)

(** C1: given a node whose tag is not [Root], [renderMatrix] throws the
    [TypeError] of its first statement before any stream or walker is
    constructed and before any call is made: the trace is empty, so the
    callback is never invoked and the world is untouched. Given a node
    whose tag is [Root], that error is not raised. *)
Theorem renderMatrix_requires_root :
  forall (fuel : nat) (node : AbstractNode) (w : World),
    (tag node <> Root ->
     renderMatrix T cb fuel node w
     = {| outcome := Thrown (TypeError rootMessage); trace := [];
          collected := []; finalWorld := w |}) /\
    (tag node = Root ->
     outcome (renderMatrix T cb fuel node w) <> Thrown (TypeError rootMessage)).
Proof.
  intros fuel node w.
  destruct (renderMatrix_unfold fuel node w) as [[Hne ->] | [Heq ->]].
  - split; [reflexivity | contradiction].
  - split; [contradiction | intros _].
    pose proof (run_steady fuel node w) as H.
    destruct (run T cb fuel (construct T node w)) as [[[[message | e] | ] | ids] fr];
      simpl; try discriminate.
    destruct H as (_ & _ & _ & -> & _). discriminate.
Qed.

(** *** One send per ready page *)

(** The frame the two reads and the send leave. *)
Lemma sendPages_eq (fr : Frame) :
  let text := fst (readPage T (markdownOutput T fr)) in
  let html := fst (readPage T (htmlOutput T fr)) in
  let r := fst (cb (world T fr) text html) in
  let fr' := snd (sendPages T cb fr) in
  markdownOutput T fr' = snd (readPage T (markdownOutput T fr)) /\
  htmlOutput T fr' = snd (readPage T (htmlOutput T fr)) /\
  journal T fr' = ESend text html r :: EReadPage Html html
                    :: EReadPage Markdown text :: journal T fr /\
  markdownWalker T fr' = markdownWalker T fr /\
  htmlWalker T fr' = htmlWalker T fr /\
  match r with
  | inr eventId =>
      fst (sendPages T cb fr) = inr tt /\
      eventIds T fr' = eventIds T fr ++ [eventId]
  | inl e =>
      fst (sendPages T cb fr) = inl (Throw (Foreign e)) /\
      eventIds T fr' = eventIds T fr
  end.
Proof.
  simpl. unfold sendPages, bind, readPageOf, awaitCb, push. simpl.
  destruct (readPage T (markdownOutput T fr)) as [text s1]; simpl.
  destruct (readPage T (htmlOutput T fr)) as [html s2]; simpl.
  destruct (cb (world T fr) text html) as [[e | eventId] w']; simpl; repeat split.
Qed.

(** The frame the opening [if] of the loop body leaves when a page is
    ready. *)
Lemma sendIfReady_ready (fr : Frame) :
  peekPage T (htmlOutput T fr) || peekPage T (markdownOutput T fr) = true ->
  let markdown' := ensureNewPage T (markdownOutput T fr) in
  let html' := ensureNewPage T (htmlOutput T fr) in
  let text := fst (readPage T markdown') in
  let html := fst (readPage T html') in
  let r := fst (cb (world T fr) text html) in
  let fr' := snd (sendIfReady T cb fr) in
  (markdownOutput T fr' = snd (readPage T markdown') /\
   htmlOutput T fr' = snd (readPage T html') /\
   journal T fr' = ESend text html r :: EReadPage Html html
                     :: EReadPage Markdown text
                     :: EEnsureNewPage Markdown :: EEnsureNewPage Html
                     :: journal T fr /\
   world T fr' = snd (cb (world T fr) text html) /\
   match r with
   | inr eventId =>
       fst (sendIfReady T cb fr) = inr tt /\
       eventIds T fr' = eventIds T fr ++ [eventId]
   | inl e =>
       fst (sendIfReady T cb fr) = inl (Throw (Foreign e)) /\
       eventIds T fr' = eventIds T fr
   end) /\
  markdownWalker T fr' = markdownWalker T fr /\
  htmlWalker T fr' = htmlWalker T fr.
Proof.
  intros Hor. simpl.
  unfold sendIfReady, bind, somePeekPage. rewrite Hor.
  unfold forEachEnsureNewPage, ensureNewPageOf, sendPages, bind, readPageOf,
    awaitCb, push. simpl.
  destruct (readPage T (ensureNewPage T (markdownOutput T fr))) as [text s1]; simpl.
  destruct (readPage T (ensureNewPage T (htmlOutput T fr))) as [html s2]; simpl.
  destruct (cb (world T fr) text html) as [[e | eventId] w']; simpl; repeat split.
Qed.

(** When no stream reports a page, the iteration sends nothing. *)
Lemma no_ready_page_sends_nothing (fr : Frame) :
  peekPage T (htmlOutput T fr) = false -> peekPage T (markdownOutput T fr) = false ->
  sendIfReady T cb fr = (inr tt, fr).
Proof.
  intros H1 H2. unfold sendIfReady, bind, somePeekPage. now rewrite H1, H2.
Qed.

(** *** The loop, iteration by iteration *)











(** *** The lockstep check *)

(** C3 (as amended): in every run, a pair of increments whose results
    are not the same value under [Object.is] (two node objects, or a
    node and [undefined]) is the last thing the run does: nothing
    follows it in the trace (no further increment, no further send) and
    the run ends with the [TypeError] of [checkEqual]. When the two
    results agree at every pair, that error is not raised. What an
    increment returns is a node or [undefined]; the phase the walker is
    in is no part of it and is not compared. *)
Theorem checkEqual_stops_on_mismatch :
  forall (fuel : nat) (node : AbstractNode) (w : World),
    let r := renderMatrix T cb fuel node w in
    (forall pre a b post,
        trace r = pre ++ [EIncrement Markdown (inr a); EIncrement Html (inr b)] ++ post ->
        Object_is b a = false ->
        post = [] /\ outcome r = Thrown (TypeError bugMessage)) /\
    ((forall pre a b post,
         trace r = pre ++ [EIncrement Markdown (inr a); EIncrement Html (inr b)] ++ post ->
         Object_is b a = true) ->
     outcome r <> Thrown (TypeError bugMessage)).
Proof.
  intros fuel node w r. subst r.
  destruct (renderMatrix_unfold fuel node w) as [[Hne ->] | [Heq ->]].
  { split.
    - intros pre a b post H. simpl in H. now destruct pre.
    - intros _. simpl. discriminate. }
  pose proof (run_steady fuel node w) as H.
  destruct (run T cb fuel (construct T node w)) as [[x | ids] fr]; simpl.
  - destruct H as (_ & _ & _ & Hx). split.
    + intros pre a b post Htr Hab. apply rev_split2 in Htr.
      destruct x as [[message | e] | ].
      * destruct Hx as (-> & _ & a' & b' & j' & Hj & Hab' & Hlock).
        split; [|reflexivity].
        rewrite Hj in Htr.
        destruct (rev post) as [|x1 [|x2 l]] eqn:Hpost.
        -- apply (f_equal (@rev _)) in Hpost. now rewrite rev_involutive in Hpost.
        -- simpl in Htr. discriminate.
        -- simpl in Htr. injection Htr as _ _ ->.
           apply lockstep_pair in Hlock. congruence.
      * destruct Hx as (Hlock & _). rewrite Htr in Hlock.
        apply lockstep_pair in Hlock. congruence.
      * destruct Hx as (_ & Hlock). rewrite Htr in Hlock.
        apply lockstep_pair in Hlock. congruence.
    + intros Hall. destruct x as [[message | e] | ]; try discriminate.
      destruct Hx as (-> & _ & a' & b' & j' & Hj & Hab' & _).
      exfalso. specialize (Hall (rev j') a' b' []).
      rewrite Hj in Hall. simpl in Hall. rewrite <- app_assoc in Hall.
      specialize (Hall eq_refl). congruence.
  - destruct H as ((_ & _ & Hlock & _) & _). split; [|discriminate].
    intros pre a b post Htr Hab. apply rev_split2 in Htr.
    rewrite Htr in Hlock. apply lockstep_pair in Hlock. congruence.
Qed.

(** *** Failure of the callback *)

(** C4: in every run, a call of the callback that fails is the last
    thing the run does: nothing follows it in the trace (no further
    increment, no further send, nothing undoing an earlier send), the
    run ends by throwing the very value the callback failed with, and
    the identifiers collected are those of the sends made before it. *)
Theorem callback_failure_propagates :
  forall (fuel : nat) (node : AbstractNode) (w : World) pre text html e post,
    let r := renderMatrix T cb fuel node w in
    trace r = pre ++ ESend text html (inl e) :: post ->
    post = [] /\
    outcome r = Thrown (Foreign e) /\
    collected r = sentIds pre.
Proof.
  intros fuel node w pre text html e post r. subst r.
  destruct (renderMatrix_unfold fuel node w) as [[Hne ->] | [Heq ->]].
  { intros H. simpl in H. now destruct pre. }
  pose proof (run_steady fuel node w) as H.
  destruct (run T cb fuel (construct T node w)) as [[x | ids] fr]; simpl;
    intros Htr.
  - destruct H as (Hids & _ & _ & Hx).
    assert (Hin : In (ESend text html (inl e)) (journal T fr)).
    { apply in_rev. rewrite Htr. apply in_elt. }
    assert (Hlast : exists j', journal T fr = ESend text html (inl e) :: j'
                               /\ allSendsOk j' /\ x = Throw (Foreign e)).
    { destruct x as [[message | e'] | ].
      - destruct Hx as (_ & Hok & _). now apply Hok in Hin.
      - destruct Hx as (_ & [Hok | (text' & html' & j' & Hj & Hok)]).
        + now apply Hok in Hin.
        + rewrite Hj in Hin. destruct Hin as [Heq' | Hin].
          * injection Heq' as -> -> ->. now exists j'.
          * now apply Hok in Hin.
      - destruct Hx as (Hok & _). now apply Hok in Hin. }
    destruct Hlast as (j' & Hj & Hok & ->).
    apply rev_split1 in Htr. rewrite Hj in Htr.
    destruct (rev post) as [|x1 l] eqn:Hpost.
    + apply (f_equal (@rev _)) in Hpost. rewrite rev_involutive in Hpost.
      simpl in Htr. injection Htr as Hj'.
      repeat split; [exact Hpost|].
      rewrite Hids, Hj, sentIds_snoc. simpl. rewrite app_nil_r.
      now rewrite Hj', rev_involutive.
    + exfalso. simpl in Htr. injection Htr as _ Hj'.
      apply (Hok text html e). rewrite Hj'. apply in_or_app. right. now left.
  - destruct H as ((_ & Hok & _) & _).
    exfalso. apply (Hok text html e). apply in_rev. rewrite Htr. apply in_elt.
Qed.

(** What a failing call of the callback leaves behind: the value thrown
    is the one it failed with, [eventIds] is unchanged, and the world is
    as the call left it. *)
Lemma awaitCb_failure (fr : Frame) (text html : option string) (e : E) (w' : World) :
  cb (world T fr) text html = (inl e, w') ->
  fst (awaitCb T cb text html fr) = inl (Throw (Foreign e)) /\
  eventIds T (snd (awaitCb T cb text html fr)) = eventIds T fr /\
  world T (snd (awaitCb T cb text html fr)) = w'.
Proof. intros H. unfold awaitCb. rewrite H. simpl. auto. Qed.

(** *** Order of reads and sends *)

(** The identifiers returned are those the callback returned, in call
    order, one per page sent. *)
Lemma returned_ids_are_sent (fuel : nat) (node : AbstractNode) (w : World) ids :
  outcome (renderMatrix T cb fuel node w) = Returned ids ->
  ids = sentIds (trace (renderMatrix T cb fuel node w)) /\
  length ids = length (sentPages (trace (renderMatrix T cb fuel node w))).
Proof.
  destruct (renderMatrix_unfold fuel node w) as [[Hne ->] | [Heq ->]];
    [discriminate|].
  pose proof (run_steady fuel node w) as H.
  destruct (run T cb fuel (construct T node w)) as [[[x | ] | ids'] fr]; simpl;
    try discriminate.
  intros [= <-]. destruct H as ((Hids & Hok & _) & ->).
  split; [exact Hids|].
  rewrite Hids. apply allSendsOk_length, allSendsOk_rev, Hok.
Qed.

(** C8 (as amended): pages are passed to the callback as they are read.
    In every run a call of the callback comes right after the reads of
    its two arguments, markdown then html; a page read is followed at
    once by the read of its partner and the call of the callback, before
    any further increment or read; and the identifiers returned are
    those the callback returned, in call order. *)
Theorem pages_sent_as_read :
  forall (fuel : nat) (node : AbstractNode) (w : World),
    let r := renderMatrix T cb fuel node w in
    (forall pre text html res post,
        trace r = pre ++ ESend text html res :: post ->
        exists pre', pre = pre' ++ [EReadPage Markdown text; EReadPage Html html]) /\
    (forall pre text post,
        trace r = pre ++ EReadPage Markdown text :: post ->
        exists html res post', post = EReadPage Html html :: ESend text html res :: post') /\
    (forall pre html post,
        trace r = pre ++ EReadPage Html html :: post ->
        exists text res post', post = ESend text html res :: post') /\
    (forall ids, outcome r = Returned ids -> ids = sentIds (trace r)).
Proof.
  intros fuel node w r.
  split; [|split; [|split]]; cycle 3.
  { intros ids Hret. now apply returned_ids_are_sent. }
  all: subst r;
    destruct (renderMatrix_unfold fuel node w) as [[Hne ->] | [Heq ->]];
    [ intros pre ? ? ; intros; exfalso;
      match goal with Htr : trace _ = _ |- _ => simpl in Htr; now destruct pre end | ].
  all: pose proof (run_steady fuel node w) as H;
    assert (Hps : paired (journal T (snd (run T cb fuel (construct T node w))))
                  /\ settled (journal T (snd (run T cb fuel (construct T node w)))))
      by (destruct (run T cb fuel (construct T node w)) as [[x | ids] fr]; simpl;
          [destruct H as (_ & ? & ? & _) | destruct H as ((_ & _ & _ & ? & ?) & _)];
          auto);
    clear H; destruct Hps as [Hp Hs];
    assert (Htrace : trace (conclude T (run T cb fuel (construct T node w)))
                     = rev (journal T (snd (run T cb fuel (construct T node w)))))
      by (destruct (run T cb fuel (construct T node w)) as [[[x | ] | ids] fr];
          reflexivity);
    rewrite Htrace; clear Htrace;
    set (j := journal T (snd (run T cb fuel (construct T node w)))) in *;
    clearbody j.
  - (* a send follows its reads *)
    intros pre text html res post Htr.
    apply rev_split1 in Htr. subst j.
    apply paired_send in Hp. destruct Hp as (l2' & Hl2).
    exists (rev l2'). apply (f_equal (@rev _)) in Hl2.
    rewrite rev_involutive in Hl2. rewrite Hl2. simpl.
    now rewrite <- app_assoc.
  - (* a markdown read is followed by the html read and the send *)
    intros pre text post Htr.
    apply rev_split1 in Htr. subst j.
    destruct (paired_read _ _ _ _ Hp Hs) as (l1' & ev & Hl1 & html & ->).
    rewrite Hl1, <- app_assoc in Hp, Hs. simpl in Hp, Hs.
    destruct (paired_read _ _ _ _ Hp Hs) as (l1'' & ev & Hl1' & text' & res & ->).
    rewrite Hl1', <- app_assoc in Hp. simpl in Hp.
    destruct (paired_send _ _ _ _ _ Hp) as (l2' & Hl2).
    injection Hl2 as <- _.
    exists html, res, (rev l1'').
    rewrite <- (rev_involutive post), Hl1, Hl1'.
    now rewrite !rev_app_distr.
  - (* an html read is followed by the send *)
    intros pre html post Htr.
    apply rev_split1 in Htr. subst j.
    destruct (paired_read _ _ _ _ Hp Hs) as (l1' & ev & Hl1 & text & res & ->).
    exists text, res, (rev l1').
    rewrite <- (rev_involutive post), Hl1.
    now rewrite !rev_app_distr.
Qed.

(** *** How the streams are constructed *)







End Facts.

End MatrixFacts.

(** ** The paged stream and the fringe walker *)

Module PagedFacts.
Import DeadDocument Matrix Paged StrFacts MatrixFacts.

(** *** Streams *)

Lemma join_pageOf (l : list string) (t : string) :
  Str.join (l ++ pageOf t) = (Str.join l ++ t)%string.
Proof.
  rewrite join_app. unfold pageOf. destruct t; simpl; [reflexivity|].
  now rewrite append_nil_r.
Qed.

Ltac str_norm :=
  repeat (progress (rewrite ?join_pageOf, ?append_assoc, ?append_nil_r; simpl)).

Lemma unsent_append s t : unsent (append s t) = (unsent s ++ t)%string.
Proof. unfold unsent, append. simpl. now str_norm. Qed.

Lemma unsent_commit s n : unsent (commit s n) = unsent s.
Proof.
  unfold unsent, commit.
  repeat match goal with |- context [if ?b then _ else _] => destruct b end;
    simpl; rewrite ?app_assoc; now str_norm.
Qed.

Lemma unsent_ensureNewPage s : unsent (ensureNewPage s) = unsent s.
Proof. unfold unsent, ensureNewPage. simpl. now str_norm. Qed.

Lemma unsent_readPage s :
  unsent s = (Str.text (fst (readPage s)) ++ unsent (snd (readPage s)))%string.
Proof.
  unfold unsent, readPage. destruct (pages s) as [|p ps] eqn:Hp; simpl.
  - now rewrite Hp.
  - now rewrite append_assoc.
Qed.

Lemma unsent_advance R ph n s :
  unsent (advance R ph n s) = (unsent s ++ fragment R ph n)%string.
Proof.
  unfold advance. destruct (commits ph n); [rewrite unsent_commit|]; apply unsent_append.
Qed.

Lemma sizeLimit_advance R ph n s : sizeLimit (advance R ph n s) = sizeLimit s.
Proof.
  unfold advance, commit, append. simpl.
  destruct (commits ph n); simpl; [|reflexivity].
  repeat match goal with |- context [if ?b then _ else _] => destruct b end; reflexivity.
Qed.

Lemma length_pageOf t : length (pageOf t) <= 1.
Proof. unfold pageOf. destruct (Str.isEmpty t); simpl; lia. Qed.

Lemma pageOf_nil : pageOf "" = [].
Proof. reflexivity. Qed.

Lemma caughtUp_cases s :
  caughtUp s ->
  pages s = [] \/ exists p, pages s = [p] /\ committed s = ""%string /\ pending s = ""%string.
Proof.
  unfold caughtUp. destruct (pages s) as [|p [|q l]]; [auto | | contradiction].
  intros [H1 H2]. right. now exists p.
Qed.

Lemma caughtUp_append s t : caughtUp s -> oneAhead (append s t).
Proof.
  intros H. unfold oneAhead, append. simpl.
  destruct (caughtUp_cases s H) as [-> | (p & -> & _ & _)]; simpl;
    match goal with |- context [pageOf ?x] => pose proof (length_pageOf x) end; lia.
Qed.

Ltac count_pages :=
  rewrite ?length_app; simpl;
  repeat match goal with |- context [length (pageOf ?x)] =>
    let H := fresh in pose proof (length_pageOf x) as H; revert H;
    generalize (length (pageOf x)); intros ? ?
  end; lia.

Lemma caughtUp_commit s t n : caughtUp s -> oneAhead (commit (append s t) n).
Proof.
  intros H. unfold oneAhead, commit, append. simpl.
  destruct (caughtUp_cases s H) as [Hp | (p & Hp & Hc & Hpe)]; rewrite Hp.
  - repeat match goal with |- context [if ?b then _ else _] => destruct b end;
      simpl; count_pages.
  - rewrite Hc, Hpe. simpl.
    repeat match goal with |- context [if ?b then _ else _] => destruct b end;
      simpl; count_pages.
Qed.

Lemma caughtUp_advance R ph n s : caughtUp s -> oneAhead (advance R ph n s).
Proof.
  intros H. unfold advance.
  destruct (commits ph n); [now apply caughtUp_commit | now apply caughtUp_append].
Qed.

Lemma oneAhead_flush s : oneAhead s -> caughtUp (snd (readPage (ensureNewPage s))).
Proof.
  unfold oneAhead, caughtUp, readPage, ensureNewPage. simpl.
  destruct (pages s ++ pageOf (committed s ++ pending s)) as [|p [|q [|x l]]]; simpl;
    intros H; auto; lia.
Qed.

Lemma quiet_caughtUp s : pages s = [] -> caughtUp s.
Proof. unfold caughtUp. now intros ->. Qed.

Lemma caughtUp_drain s :
  caughtUp s -> unsent (snd (readPage (ensureNewPage s))) = ""%string.
Proof.
  intros H. unfold unsent, readPage, ensureNewPage. simpl.
  destruct (caughtUp_cases s H) as [-> | (p & -> & -> & ->)]; simpl.
  - unfold pageOf. destruct (Str.isEmpty (committed s ++ pending s)); reflexivity.
  - reflexivity.
Qed.

Lemma caughtUp_nothing_ready s :
  caughtUp s -> peekPage (ensureNewPage s) = false -> unsent (ensureNewPage s) = ""%string.
Proof.
  intros H. unfold unsent, peekPage, ensureNewPage. simpl.
  destruct (pages s ++ pageOf (committed s ++ pending s)); [reflexivity | discriminate].
Qed.

Lemma fits_prefix limit a b : fits limit (a ++ b) -> fits limit a.
Proof.
  intros [H | H].
  - left. rewrite length_append in H. lia.
  - right. now apply append_eq_nil in H.
Qed.

Lemma fits_leb limit t :
  fits limit t -> (String.length t <? limit) = false -> t = ""%string.
Proof. intros [H | H] Hlt; [apply Nat.ltb_ge in Hlt; lia | exact H]. Qed.

Lemma commit_quiet s n :
  pages s = [] -> fits (sizeLimit s) (committed s ++ pending s) ->
  pages (commit s n) = [].
Proof.
  intros Hp Hfit. unfold commit.
  destruct (String.length (committed s ++ pending s) <? sizeLimit s) eqn:Hlt;
    [exact Hp|].
  apply (fits_leb _ _ Hfit) in Hlt.
  destruct (append_eq_nil _ _ Hlt) as [Hc Hpe].
  rewrite Hlt, Hc, Hpe, Hp.
  repeat match goal with |- context [if ?b then _ else _] => destruct b end; reflexivity.
Qed.

Lemma unsent_quiet s : pages s = [] -> unsent s = (committed s ++ pending s)%string.
Proof. unfold unsent. now intros ->. Qed.

Lemma advance_quiet R ph n s :
  pages s = [] -> fits (sizeLimit s) (unsent s ++ fragment R ph n) ->
  pages (advance R ph n s) = [].
Proof.
  intros Hp Hfit. unfold advance.
  destruct (commits ph n); [|exact Hp].
  apply commit_quiet; [exact Hp|].
  rewrite <- unsent_quiet by exact Hp. now rewrite unsent_append.
Qed.

Lemma ensureNewPage_quiet s :
  pages s = [] -> pages (ensureNewPage s) = pageOf (unsent s).
Proof. intros Hp. unfold ensureNewPage. simpl. now rewrite Hp, unsent_quiet. Qed.

Lemma readPage_pageOf s t :
  pages s = pageOf t -> fst (readPage s) = pageOpt t.
Proof.
  unfold readPage, pageOf, pageOpt. intros ->.
  destruct (Str.isEmpty t); reflexivity.
Qed.

Lemma peekPage_pageOf s t :
  pages s = pageOf t -> peekPage s = negb (Str.isEmpty t).
Proof.
  unfold peekPage, pageOf. intros ->. destruct (Str.isEmpty t); reflexivity.
Qed.

(** *** Text sent, read off a journal *)

Lemma sentText_app {E : Type} (f : Format) (t1 t2 : list (Event E)) :
  sentText f (t1 ++ t2) = (sentText f t1 ++ sentText f t2)%string.
Proof. unfold sentText. now rewrite sentPages_app, map_app, join_app. Qed.

Lemma sentText_snoc {E : Type} (f : Format) (j : list (Event E)) (ev : Event E) :
  sentText f (rev (ev :: j)) = (sentText f (rev j) ++ sentText f [ev])%string.
Proof. change (rev (ev :: j)) with (rev j ++ [ev]). apply sentText_app. Qed.

Lemma sentText_send {E : Type} (f : Format) (text html : option string) (r : E + string) :
  sentText f [ESend text html r]
  = Str.text (match f with Markdown => text | Html => html end).
Proof. unfold sentText. simpl. apply append_nil_r. Qed.

Lemma sentText_plain {E : Type} (f : Format) (j : list (Event E)) (ev : Event E) :
  match ev with ESend _ _ _ => False | _ => True end ->
  sentText f (rev (ev :: j)) = sentText f (rev j).
Proof.
  intros Hev. rewrite sentText_snoc.
  destruct ev; try contradiction; unfold sentText at 2; simpl; apply append_nil_r.
Qed.

Lemma sentText_app_plain {E : Type} (f : Format) (t : list (Event E)) (ev : Event E) :
  match ev with ESend _ _ _ => False | _ => True end ->
  sentText f (t ++ [ev]) = sentText f t.
Proof.
  intros Hev. pose proof (sentText_plain f (rev t) ev Hev) as H.
  simpl in H. now rewrite rev_involutive in H.
Qed.

Ltac sent_plain :=
  simpl; repeat (rewrite sentText_app_plain; [|exact I]); try reflexivity.

Lemma frags_app (R : Renderer) (l1 l2 : list (Phase * AbstractNode)) :
  frags R (l1 ++ l2) = (frags R l1 ++ frags R l2)%string.
Proof. unfold frags. now rewrite map_app, join_app. Qed.

(** Walking the fringe emits the rendering of the tree. *)
Lemma render_fringe (R : Renderer) (n : AbstractNode) :
  render R n = frags R (fringe n).
Proof.
  induction n as [r t cs IH | r t data] using DeadDocumentFacts.AbstractNode_tree_ind.
  - change (fringe (DocumentNode r t cs))
      with ((Enter, DocumentNode r t cs)
              :: flat_map fringe cs ++ [(Exit, DocumentNode r t cs)]).
    change (render R (DocumentNode r t cs))
      with (fragment R Enter (DocumentNode r t cs)
              ++ Str.join (map (render R) cs)
              ++ fragment R Exit (DocumentNode r t cs))%string.
    set (n := DocumentNode r t cs).
    change (frags R ((Enter, n) :: flat_map fringe cs ++ [(Exit, n)]))
      with (fragment R Enter n ++ frags R (flat_map fringe cs ++ [(Exit, n)]))%string.
    rewrite frags_app. f_equal. f_equal.
    + clear n. induction IH as [|c cs Hc _ IHcs]; [reflexivity|].
      simpl. now rewrite frags_app, Hc, IHcs.
    + unfold frags. simpl. now rewrite append_nil_r.
  - unfold frags. simpl. now rewrite append_nil_r.
Qed.

Lemma fringe_nonempty (n : AbstractNode) : fringe n <> [].
Proof. destruct n; discriminate. Qed.

(** *** Runs on the paged stream and the fringe walker *)

Section Run.

Variable d : nat.
Variable R : Format -> Renderer.
Context {World : Type}.
Variable cb : @SendMatrixEventCB string World.

Local Abbreviation T := (toolkit d R).
Local Abbreviation Frame := (Frame (World:=World) (toolkit d R)).
Local Abbreviation quiet := (Paged.quiet d R (World:=World)).
Local Abbreviation cbFailed := (Paged.cbFailed cb).

Lemma stepBoth_some (fr : Frame) ph n rest :
  cursor (markdownWalker T fr) = (ph, n) :: rest ->
  cursor (htmlWalker T fr) = (ph, n) :: rest ->
  hook (markdownWalker T fr) = commitHook T ->
  hook (htmlWalker T fr) = commitHook T ->
  stepBoth T fr
  = (inr (Some n),
     @Build_Frame string World T
       (advance (renderer (markdownWalker T fr)) ph n (markdownOutput T fr))
       {| cursor := rest; renderer := renderer (markdownWalker T fr);
          hook := commitHook T; terminated := terminated (markdownWalker T fr) |}
       (advance (renderer (htmlWalker T fr)) ph n (htmlOutput T fr))
       {| cursor := rest; renderer := renderer (htmlWalker T fr);
          hook := commitHook T; terminated := terminated (htmlWalker T fr) |}
       (eventIds T fr) (world T fr)
       (EIncrement Html (inr (Some n))
          :: EIncrement Markdown (inr (Some n)) :: journal T fr)).
Proof.
  destruct fr as [mo [c1 r1 h1 t1] ho [c2 r2 h2 t2] ids w j]. simpl.
  intros -> -> -> ->.
  unfold stepBoth, bind, incrementOf, checkEqual, ret. simpl.
  unfold increment. simpl. rewrite Nat.eqb_refl. simpl.
  unfold advance, commitHook. simpl. reflexivity.
Qed.

Lemma stepBoth_none (fr : Frame) :
  cursor (markdownWalker T fr) = [] ->
  cursor (htmlWalker T fr) = [] ->
  terminated (markdownWalker T fr) = false ->
  terminated (htmlWalker T fr) = false ->
  stepBoth T fr
  = (inr None,
     @Build_Frame string World T
       (markdownOutput T fr)
       {| cursor := []; renderer := renderer (markdownWalker T fr);
          hook := hook (markdownWalker T fr); terminated := true |}
       (htmlOutput T fr)
       {| cursor := []; renderer := renderer (htmlWalker T fr);
          hook := hook (htmlWalker T fr); terminated := true |}
       (eventIds T fr) (world T fr)
       (EIncrement Html (inr None) :: EIncrement Markdown (inr None) :: journal T fr)).
Proof.
  destruct fr as [mo [c1 r1 h1 t1] ho [c2 r2 h2 t2] ids w j]. simpl.
  intros -> -> -> ->. reflexivity.
Qed.

Lemma frags_cons ph n rest f :
  frags (R f) ((ph, n) :: rest) = (fragment (R f) ph n ++ frags (R f) rest)%string.
Proof. reflexivity. Qed.

Lemma peekPage_false (s : PagedDuplexStream) : peekPage s = false -> pages s = [].
Proof. unfold peekPage. destruct (pages s); [reflexivity | discriminate]. Qed.

(** The content equation of one side across a step of its walker. *)
Lemma sideOk_step (P : PagedDuplexStream -> Prop) node f (fr fr' : Frame) ph n rest :
  sideOk d R caughtUp node f fr ->
  cursor (walker T f fr) = (ph, n) :: rest ->
  renderer (walker T f fr') = renderer (walker T f fr) ->
  hook (walker T f fr') = commitHook T ->
  cursor (walker T f fr') = rest ->
  output T f fr' = advance (renderer (walker T f fr)) ph n (output T f fr) ->
  sentText f (rev (journal T fr')) = sentText f (rev (journal T fr)) ->
  sideOk d R oneAhead node f fr'.
Proof.
  intros (Hr & Hh & HP & Hl & Hc) Hcur Hr' Hh' Hcur' Ho Hs.
  unfold sideOk. rewrite Hr', Hr, Hh', Hcur', Ho, Hs, Hr.
  repeat split.
  - now apply caughtUp_advance.
  - now rewrite sizeLimit_advance.
  - rewrite <- Hc, Hcur, frags_cons, unsent_advance. now rewrite !append_assoc.
Qed.

Lemma sideOk_keep (P : PagedDuplexStream -> Prop) node f (fr fr' : Frame) :
  sideOk d R P node f fr ->
  renderer (walker T f fr') = renderer (walker T f fr) ->
  hook (walker T f fr') = hook (walker T f fr) ->
  cursor (walker T f fr') = cursor (walker T f fr) ->
  output T f fr' = output T f fr ->
  sentText f (rev (journal T fr')) = sentText f (rev (journal T fr)) ->
  sideOk d R P node f fr'.
Proof.
  intros (Hr & Hh & HP & Hl & Hc) Hr' Hh' Hcur' Ho Hs.
  unfold sideOk. rewrite Hr', Hr, Hh', Hcur', Ho, Hs. auto.
Qed.

Lemma synced_stepBoth node (fr : Frame) :
  synced d R node fr ->
  match cursor (markdownWalker T fr) with
  | (ph, n) :: rest =>
      exists fr',
        stepBoth T fr = (inr (Some n), fr') /\
        stepped d R node fr' /\
        cursor (markdownWalker T fr') = rest /\
        (forall f, output T f fr' = advance (R f) ph n (output T f fr)) /\
        eventIds T fr' = eventIds T fr /\
        journal T fr' = EIncrement Html (inr (Some n))
                          :: EIncrement Markdown (inr (Some n)) :: journal T fr
  | [] =>
      exists fr',
        stepBoth T fr = (inr None, fr') /\
        drained d R node fr' /\
        (forall f, output T f fr' = output T f fr) /\
        eventIds T fr' = eventIds T fr /\
        journal T fr' = EIncrement Html (inr None)
                          :: EIncrement Markdown (inr None) :: journal T fr
  end.
Proof.
  intros (Hcur & Ht1 & Ht2 & Hmd & Hhtml).
  destruct (cursor (markdownWalker T fr)) as [|[ph n] rest] eqn:Hc1.
  - symmetry in Hcur. eexists. split; [now apply stepBoth_none|].
    split; [|split; [now intros [] | split; reflexivity]].
    split; [reflexivity|]. split; [reflexivity|]. split.
    + apply (sideOk_keep caughtUp node Markdown fr); simpl; auto. sent_plain.
    + apply (sideOk_keep caughtUp node Html fr); simpl; auto. sent_plain.
  - symmetry in Hcur.
    pose proof Hmd as (Hr1 & Hh1 & _). pose proof Hhtml as (Hr2 & Hh2 & _).
    eexists. split; [exact (stepBoth_some fr ph n rest Hc1 Hcur Hh1 Hh2)|].
    simpl in Hr1, Hr2. rewrite Hr1, Hr2.
    split; [|split; [reflexivity | split; [now intros [] | split; reflexivity]]].
    split; [reflexivity|]. split; [exact Ht1|]. split; [exact Ht2|]. split.
    + apply (sideOk_step oneAhead node Markdown fr _ ph n rest); simpl; auto.
      * now rewrite Hr1.
      * sent_plain.
    + apply (sideOk_step oneAhead node Html fr _ ph n rest); simpl; auto.
      * now rewrite Hr2.
      * sent_plain.
Qed.

Lemma sizeLimit_flush (s : PagedDuplexStream) :
  sizeLimit (snd (readPage (ensureNewPage s))) = sizeLimit s.
Proof.
  unfold readPage, ensureNewPage. simpl.
  destruct (pages s ++ pageOf (committed s ++ pending s)); reflexivity.
Qed.

(** One side across the flush of its stream: what was read joins what
    was sent. *)
Lemma sideOk_flush node f (fr fr' : Frame) :
  sideOk d R oneAhead node f fr ->
  walker T f fr' = walker T f fr ->
  output T f fr' = snd (readPage (ensureNewPage (output T f fr))) ->
  sentText f (rev (journal T fr'))
  = (sentText f (rev (journal T fr))
       ++ Str.text (fst (readPage (ensureNewPage (output T f fr)))))%string ->
  sideOk d R caughtUp node f fr'.
Proof.
  intros (Hr & Hh & HP & Hl & Hc) Hw Ho Hs.
  unfold sideOk. rewrite Hw, Ho, Hs.
  repeat split; auto.
  - now apply oneAhead_flush.
  - now rewrite sizeLimit_flush.
  - rewrite <- Hc, <- (unsent_ensureNewPage (output T f fr)).
    rewrite (unsent_readPage (ensureNewPage (output T f fr))).
    now rewrite !append_assoc.
Qed.

Lemma stepped_sendIfReady node (fr : Frame) :
  stepped d R node fr ->
  match sendIfReady T cb fr with
  | (inr _, fr') =>
      synced d R node fr' /\
      cursor (markdownWalker T fr') = cursor (markdownWalker T fr)
  | (inl x, _) => cbFailed x
  end.
Proof.
  intros (Hcur & Ht1 & Ht2 & Hmd & Hhtml).
  destruct (Matrix.peekPage T (htmlOutput T fr) || Matrix.peekPage T (markdownOutput T fr))
    eqn:Hor.
  - pose proof (sendIfReady_ready T cb fr Hor) as H. simpl in H.
    destruct (sendIfReady T cb fr) as [res fr']. simpl in H.
    destruct H as ((Hmo & Hho & Hj & Hw & Hres) & Hmw & Hhw).
    destruct (fst (cb (world T fr) (fst (readPage (ensureNewPage (markdownOutput T fr))))
                      (fst (readPage (ensureNewPage (htmlOutput T fr))))))
      as [e | eventId] eqn:Hcb.
    + destruct Hres as [-> _]. repeat eexists. exact Hcb.
    + destruct Hres as [-> _].
      split; [|now rewrite Hmw].
      split; [now rewrite Hmw, Hhw|]. split; [now rewrite Hmw|]. split; [now rewrite Hhw|].
      split.
      * apply (sideOk_flush node Markdown fr); auto.
        rewrite Hj. rewrite sentText_snoc, sentText_send. sent_plain.
      * apply (sideOk_flush node Html fr); auto.
        rewrite Hj. rewrite sentText_snoc, sentText_send. sent_plain.
  - apply orb_false_iff in Hor. destruct Hor as [H1 H2].
    rewrite (no_ready_page_sends_nothing T cb fr H1 H2).
    split; [|reflexivity].
    split; [exact Hcur|]. split; [exact Ht1|]. split; [exact Ht2|].
    destruct Hmd as (? & ? & ? & ? & ?), Hhtml as (? & ? & ? & ? & ?).
    split; repeat split; auto; apply quiet_caughtUp, peekPage_false; assumption.
Qed.

Lemma drained_content node f (fr : Frame) :
  sideOk d R caughtUp node f fr -> cursor (walker T f fr) = [] ->
  caughtUp (output T f fr) /\
  (sentText f (rev (journal T fr)) ++ unsent (output T f fr))%string = render (R f) node.
Proof.
  intros (_ & _ & HP & _ & Hc) Hcur. split; [exact HP|].
  rewrite Hcur in Hc. unfold frags in Hc. simpl in Hc. now rewrite append_nil_r in Hc.
Qed.

Lemma drained_finish node (fr : Frame) :
  drained d R node fr ->
  match finish T cb fr with
  | (inr ids, fr') =>
      ids = eventIds T fr' /\
      forall f, sentText f (rev (journal T fr')) = render (R f) node
  | (inl x, _) => cbFailed x
  end.
Proof.
  intros (Hc1 & Hc2 & Hmd & Hhtml).
  assert (Hside : forall f, caughtUp (output T f fr) /\
             (sentText f (rev (journal T fr)) ++ unsent (output T f fr))%string
             = render (R f) node)
    by (intros []; now apply drained_content).
  clear Hmd Hhtml Hc1 Hc2.
  destruct (forEachEnsureNewPage_eq T fr) as (fr1 & Hens & Hj1 & He1 & Hw1 & Hmo1 & Hho1 & _).
  unfold finish, bind. rewrite Hens. unfold somePeekPage.
  destruct (Matrix.peekPage T (htmlOutput T fr1) || Matrix.peekPage T (markdownOutput T fr1))
    eqn:Hor.
  - pose proof (sendPages_eq T cb fr1) as H. simpl in H.
    destruct (sendPages T cb fr1) as [res fr2]. simpl in H.
    destruct H as (Hmo & Hho & Hj & _ & _ & Hres).
    destruct (fst (cb (world T fr1) (fst (readPage (markdownOutput T fr1)))
                      (fst (readPage (htmlOutput T fr1)))))
      as [e | eventId] eqn:Hcb.
    + destruct Hres as [-> _]. repeat eexists. exact Hcb.
    + destruct Hres as [-> _]. simpl. split; [reflexivity|].
      intros f. destruct (Hside f) as [Hcaught <-].
      rewrite Hj, Hj1, sentText_snoc, sentText_send.
      rewrite <- (unsent_ensureNewPage (output T f fr)).
      rewrite (unsent_readPage (ensureNewPage (output T f fr))).
      rewrite (caughtUp_drain _ Hcaught), append_nil_r.
      destruct f; simpl; [rewrite Hmo1 | rewrite Hho1]; sent_plain.
  - apply orb_false_iff in Hor. destruct Hor as [H1 H2].
    simpl. split; [reflexivity|].
    intros f. destruct (Hside f) as [Hcaught <-].
    rewrite <- (unsent_ensureNewPage (output T f fr)).
    rewrite Hmo1 in H2. rewrite Hho1 in H1.
    assert (Hn : unsent (ensureNewPage (output T f fr)) = ""%string)
      by (apply caughtUp_nothing_ready; [exact Hcaught | destruct f; assumption]).
    rewrite Hn, append_nil_r, Hj1. sent_plain.
Qed.

Lemma while_stepped node (fuel : nat) :
  forall (cur : option AbstractNode) (fr : Frame),
    match cur with
    | Some _ => stepped d R node fr /\ length (cursor (markdownWalker T fr)) < fuel
    | None => drained d R node fr
    end ->
    match while T cb fuel cur fr with
    | (inr _, fr') => drained d R node fr'
    | (inl x, _) => cbFailed x
    end.
Proof.
  induction fuel as [|fuel IH]; intros [n|] fr H; simpl; try exact H.
  - destruct H as [_ H]. lia.
  - destruct H as [Hst Hlen].
    unfold bind, body, bind.
    pose proof (stepped_sendIfReady node fr Hst) as Hsend.
    destruct (sendIfReady T cb fr) as [[x | u] fr1]; [exact Hsend|].
    destruct Hsend as [Hsync Hcur].
    pose proof (synced_stepBoth node fr1 Hsync) as Hstep.
    rewrite Hcur in Hstep.
    destruct (cursor (markdownWalker T fr)) as [|[ph m] rest].
    + destruct Hstep as (fr2 & -> & Hdr & _). apply (IH None). exact Hdr.
    + destruct Hstep as (fr2 & -> & Hst2 & Hcur2 & _). apply (IH (Some m)).
      split; [exact Hst2|]. rewrite Hcur2. simpl in Hlen. lia.
Qed.

Lemma construct_synced (node : AbstractNode) (w : World) :
  synced d R node (construct T node w).
Proof.
  unfold synced, sideOk. simpl.
  repeat split; unfold sentText, unsent; simpl; symmetry; apply render_fringe.
Qed.

(** A run on the paged stream and the fringe walker: with fuel for the
    whole fringe it is stopped by nothing but a failure of the callback,
    and when it returns, all of both renderings has been sent. *)
Lemma run_sends_everything (fuel : nat) (node : AbstractNode) (w : World) :
  length (fringe node) <= fuel ->
  match run T cb fuel (construct T node w) with
  | (inr ids, fr') =>
      ids = eventIds T fr' /\
      forall f, sentText f (rev (journal T fr')) = render (R f) node
  | (inl x, _) => cbFailed x
  end.
Proof.
  intros Hfuel. unfold run, bind.
  pose proof (synced_stepBoth node _ (construct_synced node w)) as Hstep.
  simpl cursor in Hstep.
  destruct (fringe node) as [|[ph n] rest] eqn:Hfr; [now apply fringe_nonempty in Hfr|].
  destruct Hstep as (fr1 & -> & Hst & Hcur & _).
  pose proof (while_stepped node fuel (Some n) fr1) as Hloop.
  destruct (while T cb fuel (Some n) fr1) as [[x | u] fr2].
  - apply Hloop. split; [exact Hst|]. rewrite Hcur. simpl in Hfuel. lia.
  - apply drained_finish, Hloop. split; [exact Hst|]. rewrite Hcur. simpl in Hfuel. lia.
Qed.

(** *** Runs that fit one page *)

Lemma sentPages_plain (j : list (Event string)) (ev : Event string) :
  match ev with ESend _ _ _ => False | _ => True end ->
  sentPages (rev (ev :: j)) = sentPages (rev j).
Proof.
  intros Hev. simpl. rewrite sentPages_app.
  destruct ev; try contradiction; simpl; apply app_nil_r.
Qed.

Lemma quiet_sentText (fr : Frame) f : quiet fr -> sentText f (rev (journal T fr)) = ""%string.
Proof. intros (_ & H & _). unfold sentText. now rewrite H. Qed.

Lemma quiet_sendIfReady (fr : Frame) : quiet fr -> sendIfReady T cb fr = (inr tt, fr).
Proof.
  intros (Hp & _). apply no_ready_page_sends_nothing.
  - change (peekPage (output T Html fr) = false). unfold peekPage. now rewrite Hp.
  - change (peekPage (output T Markdown fr) = false). unfold peekPage. now rewrite Hp.
Qed.

Lemma stepped_quiet_synced node (fr : Frame) :
  stepped d R node fr -> quiet fr -> synced d R node fr.
Proof.
  intros (Hcur & Ht1 & Ht2 & Hmd & Hhtml) (Hp & _).
  split; [exact Hcur|]. split; [exact Ht1|]. split; [exact Ht2|].
  destruct Hmd as (? & ? & ? & ? & ?), Hhtml as (? & ? & ? & ? & ?).
  split; repeat split; auto; apply quiet_caughtUp, Hp.
Qed.

Lemma quiet_stepBoth node (fr : Frame) :
  (forall f, fits d (render (R f) node)) ->
  synced d R node fr -> quiet fr ->
  exists fr',
    quiet fr' /\ world T fr' = world T fr /\
    match cursor (markdownWalker T fr) with
    | (ph, n) :: rest =>
        stepBoth T fr = (inr (Some n), fr') /\
        stepped d R node fr' /\
        cursor (markdownWalker T fr') = rest /\
        journal T fr' = EIncrement Html (inr (Some n))
                          :: EIncrement Markdown (inr (Some n)) :: journal T fr
    | [] =>
        stepBoth T fr = (inr None, fr') /\
        drained d R node fr' /\
        journal T fr' = EIncrement Html (inr None)
                          :: EIncrement Markdown (inr None) :: journal T fr
    end.
Proof.
  intros Hfits Hsync Hq.
  pose proof (synced_stepBoth node fr Hsync) as Hstep.
  assert (Hworld : world T (snd (stepBoth T fr)) = world T fr).
  { generalize (stepBoth_cases T fr).
    destruct (stepBoth T fr) as [res fr']; intros H; inversion H; subst; assumption. }
  destruct (cursor (markdownWalker T fr)) as [|[ph m] rest] eqn:Hc.
  - destruct Hstep as (fr2 & Heq & Hdr & Hout & Hids & Hj).
    rewrite Heq in Hworld. simpl in Hworld.
    exists fr2. split; [|split; [exact Hworld | split; [exact Heq | split; [exact Hdr | exact Hj]]]].
    split; [|split].
    + intros f. rewrite Hout. apply Hq.
    + rewrite Hj, !sentPages_plain by exact I. apply Hq.
    + rewrite Hids. apply Hq.
  - destruct Hstep as (fr2 & Heq & Hst2 & Hcur2 & Hout & Hids & Hj).
    rewrite Heq in Hworld. simpl in Hworld.
    exists fr2.
    split; [|split; [exact Hworld
                    | split; [exact Heq | split; [exact Hst2 | split; [exact Hcur2 | exact Hj]]]]].
    split; [|split].
    + intros f. rewrite Hout.
      assert (Hside : sideOk d R caughtUp node f fr)
        by (destruct f; apply Hsync).
      destruct Hside as (_ & _ & _ & Hl & Hcont).
      apply advance_quiet; [apply Hq|]. rewrite Hl.
      assert (Hcf : cursor (walker T f fr) = (ph, m) :: rest).
      { destruct f; simpl; [exact Hc|]. destruct Hsync as (<- & _). exact Hc. }
      rewrite Hcf, frags_cons, (quiet_sentText fr f Hq) in Hcont. simpl in Hcont.
      specialize (Hfits f). rewrite <- Hcont, <- append_assoc in Hfits.
      now apply fits_prefix in Hfits.
    + rewrite Hj, !sentPages_plain by exact I. apply Hq.
    + rewrite Hids. apply Hq.
Qed.

Lemma while_quiet node (fuel : nat) :
  (forall f, fits d (render (R f) node)) ->
  forall (cur : option AbstractNode) (fr : Frame),
    stepped d R node fr -> quiet fr ->
    cur <> None -> length (cursor (markdownWalker T fr)) < fuel ->
    exists fr' j0,
      while T cb fuel cur fr = (inr tt, fr') /\
      drained d R node fr' /\ quiet fr' /\ world T fr' = world T fr /\
      journal T fr' = EIncrement Html (inr None) :: EIncrement Markdown (inr None) :: j0.
Proof.
  intros Hfits.
  induction fuel as [|fuel IH]; intros cur fr Hst Hq Hcur Hlen; [lia|].
  destruct cur as [n|]; [clear Hcur | contradiction].
  simpl. unfold bind, body, bind. rewrite (quiet_sendIfReady fr Hq).
  pose proof (stepped_quiet_synced node fr Hst Hq) as Hsync.
  destruct (quiet_stepBoth node fr Hfits Hsync Hq) as (fr2 & Hq2 & Hw2 & Hstep).
  destruct (cursor (markdownWalker T fr)) as [|[ph m] rest] eqn:Hc.
  - destruct Hstep as (-> & Hdr & Hj).
    exists fr2, (journal T fr).
    split; [destruct fuel; reflexivity|].
    split; [exact Hdr|]. split; [exact Hq2|]. split; [exact Hw2 | exact Hj].
  - destruct Hstep as (-> & Hst2 & Hcur2 & Hj).
    destruct (IH (Some m) fr2 Hst2 Hq2) as (fr' & j0 & Hw & Hdr & Hq' & Hwo & Hj');
      [discriminate | rewrite Hcur2; simpl in Hlen; lia |].
    exists fr', j0.
    split; [exact Hw|]. split; [exact Hdr|]. split; [exact Hq'|].
    split; [congruence | exact Hj'].
Qed.

Lemma finish_quiet node (fr : Frame) :
  drained d R node fr -> quiet fr ->
  let p1 := pageOpt (render (R Markdown) node) in
  let p2 := pageOpt (render (R Html) node) in
  if Str.isEmpty (render (R Html) node) && Str.isEmpty (render (R Markdown) node)
  then fst (finish T cb fr) = inr [] /\
       journal T (snd (finish T cb fr))
       = EEnsureNewPage Markdown :: EEnsureNewPage Html :: journal T fr
  else let res := fst (cb (world T fr) p1 p2) in
       fst (finish T cb fr)
       = match res with
         | inr eventId => inr [eventId]
         | inl e => inl (Throw (Foreign e))
         end /\
       journal T (snd (finish T cb fr))
       = ESend p1 p2 res :: EReadPage Html p2 :: EReadPage Markdown p1
           :: EEnsureNewPage Markdown :: EEnsureNewPage Html :: journal T fr.
Proof.
  intros (Hc1 & Hc2 & Hmd & Hhtml) Hq. simpl.
  assert (Hside : forall f, unsent (output T f fr) = render (R f) node).
  { intros f.
    assert (H : sideOk d R caughtUp node f fr /\ cursor (walker T f fr) = [])
      by (destruct f; auto).
    destruct H as [Hs Hc]. destruct (drained_content node f fr Hs Hc) as [_ <-].
    now rewrite (quiet_sentText fr f Hq). }
  destruct (forEachEnsureNewPage_eq T fr) as (fr1 & Hens & Hj1 & He1 & Hw1 & Hmo1 & Hho1 & _).
  assert (Hpages : forall f, pages (output T f fr1) = pageOf (render (R f) node)).
  { intros f. rewrite <- Hside.
    destruct Hq as (Hp & _).
    destruct f; simpl; [rewrite Hmo1 | rewrite Hho1]; apply ensureNewPage_quiet;
      [exact (Hp Markdown) | exact (Hp Html)]. }
  unfold finish, bind. rewrite Hens. unfold somePeekPage.
  change (Matrix.peekPage T (htmlOutput T fr1)) with (peekPage (output T Html fr1)).
  change (Matrix.peekPage T (markdownOutput T fr1)) with (peekPage (output T Markdown fr1)).
  rewrite !(peekPage_pageOf _ _ (Hpages _)), <- negb_andb.
  destruct (Str.isEmpty (render (R Html) node) && Str.isEmpty (render (R Markdown) node));
    simpl.
  - split; [|exact Hj1]. unfold getEventIds. simpl. rewrite He1.
    destruct Hq as (_ & _ & ->). reflexivity.
  - pose proof (sendPages_eq T cb fr1) as H. simpl in H.
    destruct (sendPages T cb fr1) as [res fr2]. simpl in H.
    destruct H as (_ & _ & Hj & _ & _ & Hres).
    change (markdownOutput T fr1) with (output T Markdown fr1) in Hj, Hres.
    change (htmlOutput T fr1) with (output T Html fr1) in Hj, Hres.
    rewrite !(readPage_pageOf _ _ (Hpages _)), Hw1 in Hj, Hres.
    rewrite Hj1 in Hj.
    destruct (fst (cb (world T fr) (pageOpt (render (R Markdown) node))
                      (pageOpt (render (R Html) node)))) as [e | eventId].
    + destruct Hres as [-> _]. simpl. auto.
    + destruct Hres as [-> Hids]. simpl. split; [|exact Hj].
      unfold getEventIds. rewrite Hids, He1. destruct Hq as (_ & _ & ->). reflexivity.
Qed.

Lemma construct_quiet (node : AbstractNode) (w : World) :
  quiet (construct T node w).
Proof. split; [now intros [] | split; reflexivity]. Qed.

(** A run whose two renderings fit a page sends nothing inside the
    loop; after the two walkers returned the terminal marker it sends
    one page pair, unless there is no text at all. *)
Lemma run_quiet (node : AbstractNode) (fuel : nat) (w : World) :
  (forall f, fits d (render (R f) node)) ->
  length (fringe node) <= fuel ->
  exists j0,
    sentPages (rev j0) = [] /\
    let p1 := pageOpt (render (R Markdown) node) in
    let p2 := pageOpt (render (R Html) node) in
    let res := run T cb fuel (construct T node w) in
    if Str.isEmpty (render (R Html) node) && Str.isEmpty (render (R Markdown) node)
    then fst res = inr [] /\
         journal T (snd res)
         = EEnsureNewPage Markdown :: EEnsureNewPage Html
             :: EIncrement Html (inr None) :: EIncrement Markdown (inr None) :: j0
    else let sent := fst (cb w p1 p2) in
         fst res
         = match sent with
           | inr eventId => inr [eventId]
           | inl e => inl (Throw (Foreign e))
           end /\
         journal T (snd res)
         = ESend p1 p2 sent :: EReadPage Html p2 :: EReadPage Markdown p1
             :: EEnsureNewPage Markdown :: EEnsureNewPage Html
             :: EIncrement Html (inr None) :: EIncrement Markdown (inr None) :: j0.
Proof.
  intros Hfits Hfuel. unfold run, bind.
  destruct (quiet_stepBoth node _ Hfits (construct_synced node w) (construct_quiet node w))
    as (fr1 & Hq1 & Hw1 & Hstep).
  simpl cursor in Hstep.
  destruct (fringe node) as [|[ph n] rest] eqn:Hfr; [now apply fringe_nonempty in Hfr|].
  destruct Hstep as (-> & Hst1 & Hcur1 & Hj1).
  destruct (while_quiet node fuel Hfits (Some n) fr1 Hst1 Hq1)
    as (fr2 & j0 & -> & Hdr & Hq2 & Hw2 & Hj2);
    [discriminate | rewrite Hcur1; simpl in Hfuel; lia |].
  exists j0. split.
  - destruct Hq2 as (_ & Hs & _). rewrite Hj2, !sentPages_plain in Hs by exact I.
    exact Hs.
  - pose proof (finish_quiet node fr2 Hdr Hq2) as Hfin.
    simpl in Hfin |- *. rewrite Hj2, Hw2, Hw1 in Hfin. exact Hfin.
Qed.

(** *** The properties of the rendering *)

(** C5: on every tree whose root has tag [Root], with fuel for the whole
    fringe, a run that returns has passed to the callback pages whose
    markdown texts, concatenated in send order, are the full rendering
    of the tree in markdown, and whose html texts are its full rendering
    in html (a page that is [undefined] carries no text); and the run
    returns whenever the callback never fails. *)
Theorem pagination_keeps_all_content :
  forall (fuel : nat) (node : AbstractNode) (w : World),
    tag node = Root ->
    length (fringe node) <= fuel ->
    let r := renderMatrix T cb fuel node w in
    (forall ids, outcome r = Returned ids ->
       sentText Markdown (trace r) = render (R Markdown) node /\
       sentText Html (trace r) = render (R Html) node) /\
    ((forall w0 text html e, fst (cb w0 text html) <> inl e) ->
     exists ids, outcome r = Returned ids).
Proof.
  intros fuel node w Hroot Hfuel r. subst r.
  destruct (renderMatrix_unfold T cb fuel node w) as [[Hne _] | [_ ->]];
    [contradiction|].
  rewrite conclude_trace, conclude_outcome.
  pose proof (run_sends_everything fuel node w Hfuel) as H.
  destruct (run T cb fuel (construct T node w)) as [[x | ids] fr]; simpl.
  - destruct H as (w0 & text & html & e & Hcb & ->). split; [discriminate|].
    intros Hok. now apply Hok in Hcb.
  - destruct H as [_ H]. split; [intros _ _; split; apply H | now exists ids].
Qed.

(** C6 (as amended): on every tree whose root has tag [Root] and whose
    renderings in both formats are below the page limit, and not both
    empty, the callback is invoked exactly once, at the final flush:
    after the two walkers returned the terminal marker and
    [ensureNewPage] was called on both streams, with the full rendering
    of each format as its page ([undefined] for a format that rendered
    no text); the run returns the identifier of that send, or throws
    what the callback failed with. *)
Theorem one_page_when_content_fits :
  forall (fuel : nat) (node : AbstractNode) (w : World),
    tag node = Root ->
    length (fringe node) <= fuel ->
    String.length (render (R Markdown) node) < d ->
    String.length (render (R Html) node) < d ->
    render (R Markdown) node <> ""%string \/ render (R Html) node <> ""%string ->
    let r := renderMatrix T cb fuel node w in
    let p1 := pageOpt (render (R Markdown) node) in
    let p2 := pageOpt (render (R Html) node) in
    let sent := fst (cb w p1 p2) in
    (exists pre,
        trace r = pre ++ [EIncrement Markdown (inr None); EIncrement Html (inr None);
                          EEnsureNewPage Html; EEnsureNewPage Markdown;
                          EReadPage Markdown p1; EReadPage Html p2;
                          ESend p1 p2 sent] /\
        sentPages pre = []) /\
    sentPages (trace r) = [(p1, p2)] /\
    outcome r = match sent with
                | inr eventId => Returned [eventId]
                | inl e => Thrown (Foreign e)
                end.
Proof.
  intros fuel node w Hroot Hfuel Hmd Hhtml Hsome r p1 p2 sent. subst r p1 p2 sent.
  destruct (renderMatrix_unfold T cb fuel node w) as [[Hne _] | [_ ->]];
    [contradiction|].
  rewrite conclude_trace, conclude_outcome.
  destruct (run_quiet node fuel w) as (j0 & Hj0 & H);
    [intros []; left; assumption | exact Hfuel |].
  simpl in H.
  assert (Hne : Str.isEmpty (render (R Html) node)
                && Str.isEmpty (render (R Markdown) node) = false).
  { apply andb_false_iff.
    destruct Hsome as [Hs | Hs]; [right | left];
      apply not_true_is_false; intros He; apply isEmpty_true in He; contradiction. }
  rewrite Hne in H. destruct H as [Hres Hj]. rewrite Hj, Hres.
  split; [|split].
  - exists (rev j0). split; [|exact Hj0]. simpl. now rewrite <- !app_assoc.
  - simpl. rewrite !sentPages_app, Hj0. reflexivity.
  - destruct (fst (cb w (pageOpt (render (R Markdown) node))
                     (pageOpt (render (R Html) node)))); reflexivity.
Qed.

(** A tree that renders no text in either format: nothing is sent. *)
Lemma no_content_nothing_sent (fuel : nat) (node : AbstractNode) (w : World) :
  tag node = Root ->
  length (fringe node) <= fuel ->
  render (R Markdown) node = ""%string ->
  render (R Html) node = ""%string ->
  outcome (renderMatrix T cb fuel node w) = Returned [] /\
  sentPages (trace (renderMatrix T cb fuel node w)) = [].
Proof.
  intros Hroot Hfuel Hmd Hhtml.
  destruct (renderMatrix_unfold T cb fuel node w) as [[Hne _] | [_ ->]];
    [contradiction|].
  rewrite conclude_trace, conclude_outcome.
  destruct (run_quiet node fuel w) as (j0 & Hj0 & H);
    [intros []; right; assumption | exact Hfuel |].
  simpl in H. rewrite Hmd, Hhtml in H. simpl in H.
  destruct H as [Hres Hj]. rewrite Hj, Hres. split; [reflexivity|].
  simpl. rewrite !sentPages_app, Hj0. reflexivity.
Qed.

End Run.

(** C9: a run on a tree that produces no text in either format invokes
    the callback zero times and returns the empty sequence of
    identifiers; and whatever the collaborators, the sequence a run
    returns holds the identifiers the callback returned, in call order,
    one for each page sent. *)
Theorem one_identifier_per_page_sent :
  (forall (World : Type) (d : nat) (R : Format -> Renderer)
          (cb : @SendMatrixEventCB string World)
          (fuel : nat) (node : AbstractNode) (w : World),
      tag node = Root ->
      length (fringe node) <= fuel ->
      render (R Markdown) node = ""%string ->
      render (R Html) node = ""%string ->
      outcome (renderMatrix (toolkit d R) cb fuel node w) = Returned [] /\
      sentPages (trace (renderMatrix (toolkit d R) cb fuel node w)) = []) /\
  (forall (E World : Type) (T : Toolkit E) (cb : @SendMatrixEventCB E World)
          (fuel : nat) (node : AbstractNode) (w : World) (ids : list string),
      outcome (renderMatrix T cb fuel node w) = Returned ids ->
      ids = sentIds (trace (renderMatrix T cb fuel node w)) /\
      length ids = length (sentPages (trace (renderMatrix T cb fuel node w)))).
Proof.
  split.
  - intros World d R cb fuel node w. apply no_content_nothing_sent.
  - intros E World T cb fuel node w ids. apply returned_ids_are_sent.
Qed.

End PagedFacts.

(** ** The journal of a run, further *)

Module TracesFacts.
Import DeadDocument Matrix MatrixFacts Traces.

Lemma Object_is_None (a : option AbstractNode) : Object_is None a = true -> a = None.
Proof. destruct a; [discriminate | reflexivity]. Qed.

Lemma Object_is_Some (n : AbstractNode) (a : option AbstractNode) :
  Object_is (Some n) a = true -> a <> None.
Proof. destruct a; [discriminate | discriminate]. Qed.

Section Flow.

Context {E World : Type}.
Variable T : Toolkit E.
Variable cb : @SendMatrixEventCB E World.

Local Abbreviation Frame := (Frame (World:=World) T).

(** What the opening [if] of the loop body does: nothing, or the two
    flushes, the two reads and one call of the callback. *)
Lemma sendIfReady_shape (fr : Frame) :
  sendIfReady T cb fr = (inr tt, fr) \/
  exists text html,
    let r := fst (cb (world T fr) text html) in
    let fr' := snd (sendIfReady T cb fr) in
    journal T fr' = ESend text html r :: EReadPage Html html :: EReadPage Markdown text
                      :: EEnsureNewPage Markdown :: EEnsureNewPage Html :: journal T fr /\
    world T fr' = snd (cb (world T fr) text html) /\
    fst (sendIfReady T cb fr)
    = match r with inr _ => inr tt | inl e => inl (Throw (Foreign e)) end.
Proof.
  destruct (peekPage T (htmlOutput T fr) || peekPage T (markdownOutput T fr)) eqn:Hor.
  - right. destruct (sendIfReady_ready T cb fr Hor) as ((_ & _ & Hj & Hw & Hr) & _).
    eexists _, _. split; [exact Hj|]. split; [exact Hw|].
    destruct (fst (cb _ _ _)); tauto.
  - left. apply orb_false_iff in Hor. now apply no_ready_page_sends_nothing.
Qed.

(** What the statements after the loop do: the two flushes, then
    nothing more or the two reads and one call of the callback. *)
Lemma finish_shape (fr : Frame) :
  (exists fr',
      finish T cb fr = (inr (eventIds T fr), fr') /\
      journal T fr' = EEnsureNewPage Markdown :: EEnsureNewPage Html :: journal T fr /\
      world T fr' = world T fr) \/
  exists text html,
    let r := fst (cb (world T fr) text html) in
    let fr' := snd (finish T cb fr) in
    journal T fr' = ESend text html r :: EReadPage Html html :: EReadPage Markdown text
                      :: EEnsureNewPage Markdown :: EEnsureNewPage Html :: journal T fr /\
    world T fr' = snd (cb (world T fr) text html) /\
    fst (finish T cb fr)
    = match r with
      | inr eventId => inr (eventIds T fr ++ [eventId])
      | inl e => inl (Throw (Foreign e))
      end.
Proof.
  unfold finish, bind, forEachEnsureNewPage, ensureNewPageOf, somePeekPage, getEventIds.
  simpl.
  destruct (peekPage T (ensureNewPage T (htmlOutput T fr))
            || peekPage T (ensureNewPage T (markdownOutput T fr))).
  - right. unfold sendPages, bind, readPageOf, awaitCb, push. simpl.
    destruct (readPage T (ensureNewPage T (markdownOutput T fr))) as [text s1]; simpl.
    destruct (readPage T (ensureNewPage T (htmlOutput T fr))) as [html s2]; simpl.
    exists text, html.
    destruct (cb (world T fr) text html) as [[e | eventId] w']; simpl; repeat split.
  - left. eexists. repeat split.
Qed.

(** *** The control flow of a run *)

Section Phases.

Variable L : Frame -> Prop.
Variable I : option AbstractNode -> Frame -> Prop.
Variable Q : list string -> Frame -> Prop.
Variable X : Abort E -> Frame -> Prop.

Hypothesis L_stepBoth : forall fr, L fr ->
  match stepBoth T fr with
  | (inr cur, fr') => I cur fr'
  | (inl x, fr') => X x fr'
  end.
Hypothesis I_sendIfReady : forall n fr, I (Some n) fr ->
  match sendIfReady T cb fr with
  | (inr _, fr') => L fr'
  | (inl x, fr') => X x fr'
  end.
Hypothesis I_exhausted : forall n fr, I (Some n) fr -> X Exhausted fr.
Hypothesis I_finish : forall fr, I None fr ->
  match finish T cb fr with
  | (inr ids, fr') => Q ids fr'
  | (inl x, fr') => X x fr'
  end.

Lemma while_flow (fuel : nat) :
  forall cur fr, I cur fr ->
    match while T cb fuel cur fr with
    | (inr _, fr') => I None fr'
    | (inl x, fr') => X x fr'
    end.
Proof.
  induction fuel as [|fuel IH]; intros [n|] fr HI; simpl; try exact HI.
  - exact (I_exhausted n fr HI).
  - unfold body, bind. pose proof (I_sendIfReady n fr HI) as Hs.
    destruct (sendIfReady T cb fr) as [[x | u] fr1]; [exact Hs|].
    pose proof (L_stepBoth fr1 Hs) as Hb.
    destruct (stepBoth T fr1) as [[x | cur] fr2]; [exact Hb|].
    exact (IH cur fr2 Hb).
Qed.

Lemma run_flow (fuel : nat) (fr : Frame) :
  L fr ->
  match run T cb fuel fr with
  | (inr ids, fr') => Q ids fr'
  | (inl x, fr') => X x fr'
  end.
Proof.
  intros HL. unfold run, bind. pose proof (L_stepBoth fr HL) as Hb.
  destruct (stepBoth T fr) as [[x | cur] fr1]; [exact Hb|].
  pose proof (while_flow fuel cur fr1 Hb) as Hw.
  destruct (while T cb fuel cur fr1) as [[x | u] fr2]; [exact Hw|].
  exact (I_finish fr2 Hw).
Qed.

End Phases.

(** *** Properties of the journal closed under the steps of a run *)

Section Closed.

Variable P : list (Event E) -> Prop.

Hypothesis P_markdown_throws : forall e j, P j -> P (EIncrement Markdown (inl e) :: j).
Hypothesis P_pair : forall a r j,
  P j -> P (EIncrement Html r :: EIncrement Markdown (inr a) :: j).
Hypothesis P_flush : forall j,
  P j -> P (EEnsureNewPage Markdown :: EEnsureNewPage Html :: j).
Hypothesis P_send : forall text html r j,
  P j ->
  P (ESend text html r :: EReadPage Html html :: EReadPage Markdown text
       :: EEnsureNewPage Markdown :: EEnsureNewPage Html :: j).

Lemma run_closed (fuel : nat) (fr : Frame) :
  P (journal T fr) -> P (journal T (snd (run T cb fuel fr))).
Proof.
  intros HP.
  pose proof (run_flow (fun fr => P (journal T fr)) (fun _ fr => P (journal T fr))
                (fun _ fr => P (journal T fr)) (fun _ fr => P (journal T fr))) as H.
  specialize (fun a b c d => H a b c d fuel fr HP).
  destruct (run T cb fuel fr) as [[x | ids] fr']; apply H; clear H.
  all: try (intros; assumption).
  all: try (intros fr0 H0; generalize (stepBoth_cases T fr0);
            destruct (stepBoth T fr0) as [[x0 | cur] fr1]; intros Hs; inversion Hs; subst;
            match goal with Hj : journal T fr1 = _ |- _ => rewrite Hj end; auto).
  all: try (intros n fr0 H0; destruct (sendIfReady_shape fr0) as [-> | (text & html & Hj & _ & Hr)];
            [exact H0|];
            destruct (sendIfReady T cb fr0) as [[x0 | u] fr1]; simpl in Hj;
            rewrite Hj; auto).
  all: try (intros fr0 H0;
            destruct (finish_shape fr0) as [(fr1 & -> & Hj & _) | (text & html & Hj & _ & Hr)];
            [rewrite Hj; auto|];
            destruct (finish T cb fr0) as [[x0 | u] fr1]; simpl in Hj;
            rewrite Hj; auto).
Qed.

End Closed.

End Flow.

(** *** Increments come in pairs *)

Lemma alternating_app {E : Type} (l1 l2 : list (Event E)) :
  alternating (l1 ++ l2) -> alternating l2.
Proof. induction l1 as [|ev l1 IH]; simpl; [auto | intros [H _]; auto]. Qed.

Lemma inStep_cons_plain {E : Type} (ev : Event E) (j : list (Event E)) :
  match ev with EIncrement Html _ | EIncrement Markdown (inr _) => False | _ => True end ->
  inStep j -> inStep (ev :: j).
Proof.
  intros Hev [Ha Hr]. split.
  - simpl. split; [exact Ha|]. split.
    + destruct ev as [| |[] ?| | |]; try exact I. contradiction.
    + destruct j as [|[| |[] [|]| | |] j]; try exact I. contradiction.
  - destruct ev as [| |[] [|]| | |]; try exact I. contradiction.
Qed.

Lemma inStep_pair {E : Type} (a : option AbstractNode) (r : E + option AbstractNode)
    (j : list (Event E)) :
  inStep j -> inStep (EIncrement Html r :: EIncrement Markdown (inr a) :: j).
Proof.
  intros [Ha Hr]. split; [|exact I].
  simpl. split; [split; [exact Ha|]|].
  - split; [exact I|].
    destruct j as [|[| |[] [|]| | |] j]; try exact I. contradiction.
  - split; eauto.
Qed.

(** *** A walker that returned [undefined] *)

Lemma live_cons {E : Type} (ev : Event E) (j : list (Event E)) :
  (forall f, ev <> EIncrement f (inr None)) -> live j -> live (ev :: j).
Proof. intros Hev Hj f [Heq | Hin]; [now apply (Hev f) | now apply (Hj f)]. Qed.

Lemma live_retired {E : Type} (j : list (Event E)) : live j -> retired j.
Proof.
  induction j as [|ev j IH]; intros Hl; [exact I|].
  assert (Hj : live j) by (intros f Hin; apply (Hl f); now right).
  simpl. split; [auto|]. destruct ev; try exact I. apply Hj.
Qed.

Lemma retired_cons_plain {E : Type} (ev : Event E) (j : list (Event E)) :
  match ev with EIncrement _ _ => False | _ => True end ->
  retired j -> retired (ev :: j).
Proof. intros Hev Hj. simpl. split; [exact Hj|]. destruct ev; tauto. Qed.

Lemma retired_app {E : Type} (l1 l2 : list (Event E)) :
  retired (l1 ++ l2) -> retired l2.
Proof. induction l1 as [|ev l1 IH]; simpl; [auto | intros [H _]; auto]. Qed.

Lemma retired_pair {E : Type} (r r' : E + option AbstractNode) (j : list (Event E)) :
  live j -> retired (EIncrement Html r :: EIncrement Markdown r' :: j).
Proof.
  intros Hl. simpl. split; [split; [now apply live_retired | apply Hl]|].
  intros [Heq | Hin]; [discriminate | now apply (Hl Html)].
Qed.

Lemma ended_retired {E : Type} (j : list (Event E)) : ended j -> retired j.
Proof. intros (j0 & -> & Hl). now apply retired_pair. Qed.

Lemma finale_retired {E : Type} (j : list (Event E)) : finale j -> retired j.
Proof.
  intros (last & j0 & -> & Hl & Hlast).
  assert (H : retired (EEnsureNewPage Markdown :: EEnsureNewPage Html
                         :: EIncrement Html (inr None)
                         :: EIncrement Markdown (inr None) :: j0)).
  { do 2 (apply retired_cons_plain; [exact I|]). now apply retired_pair. }
  destruct Hlast as [-> | (text & html & eventId & ->)]; [exact H|].
  do 3 (apply retired_cons_plain; [exact I|]). exact H.
Qed.

(** *** The world is threaded through the calls of the callback *)

Lemma replay_app {E World : Type} (cb : @SendMatrixEventCB E World) (t1 t2 : list (Event E)) :
  forall w, replay cb w (t1 ++ t2) = replay cb (replay cb w t1) t2.
Proof.
  induction t1 as [|ev t1 IH]; intros w; [reflexivity|].
  destruct ev; simpl; apply IH.
Qed.

Lemma answered_app {E World : Type} (cb : @SendMatrixEventCB E World) (t1 t2 : list (Event E)) :
  forall w, answered cb w (t1 ++ t2) <-> answered cb w t1 /\ answered cb (replay cb w t1) t2.
Proof.
  induction t1 as [|ev t1 IH]; intros w; [simpl; tauto|].
  destruct ev; simpl; rewrite ?IH; tauto.
Qed.

Lemma threaded_plain {E World : Type} (cb : @SendMatrixEventCB E World) (w w' : World)
    (ev : Event E) (j : list (Event E)) :
  match ev with ESend _ _ _ => False | _ => True end ->
  threaded cb w j w' -> threaded cb w (ev :: j) w'.
Proof.
  intros Hev [Hw Ha]. unfold threaded. simpl rev.
  rewrite replay_app, answered_app, <- Hw.
  destruct ev; try contradiction; simpl; tauto.
Qed.

Lemma threaded_send {E World : Type} (cb : @SendMatrixEventCB E World) (w w' : World)
    (text html : option string) (j : list (Event E)) :
  threaded cb w j w' ->
  threaded cb w (ESend text html (fst (cb w' text html)) :: j) (snd (cb w' text html)).
Proof.
  intros [Hw Ha]. unfold threaded. simpl rev.
  rewrite replay_app, answered_app, <- Hw. simpl. tauto.
Qed.

Section Runs.

Context {E World : Type}.
Variable T : Toolkit E.
Variable cb : @SendMatrixEventCB E World.

Local Abbreviation Frame := (Frame (World:=World) T).

Lemma run_inStep (fuel : nat) (node : AbstractNode) (w : World) :
  inStep (journal T (snd (run T cb fuel (construct T node w)))).
Proof.
  apply (run_closed T cb inStep).
  - intros e j H. now apply inStep_cons_plain.
  - intros a r j H. now apply inStep_pair.
  - intros j H. do 2 (apply inStep_cons_plain; [exact I|]). exact H.
  - intros text html r j H. do 5 (apply inStep_cons_plain; [exact I|]). exact H.
  - simpl. repeat split; auto.
Qed.

Lemma run_flushedSends (fuel : nat) (node : AbstractNode) (w : World) :
  flushedSends (journal T (snd (run T cb fuel (construct T node w)))).
Proof.
  pose proof (run_flow T cb
           (fun fr => flushedSends (journal T fr))
           (fun _ fr => flushedSends (journal T fr) /\ justStepped (journal T fr))
           (fun _ fr => flushedSends (journal T fr))
           (fun _ fr => flushedSends (journal T fr))) as H.
  specialize (fun a b c d => H a b c d fuel (construct T node w)).
  assert (Hsend : forall text html r (j : list (Event E)),
             flushedSends j -> justStepped j ->
             flushedSends (ESend text html r :: EReadPage Html html
                             :: EReadPage Markdown text :: EEnsureNewPage Markdown
                             :: EEnsureNewPage Html :: j)).
  { intros text html r j Hf (a & b & j'' & ->). simpl. simpl in Hf.
    repeat split; try tauto. now exists a, b, j''. }
  destruct (run T cb fuel (construct T node w)) as [[x | ids] fr'] eqn:Hrun;
    apply H; clear H.
  all: try (simpl; tauto).
  all: try (intros n fr0 [H0 _]; exact H0).
  all: try (intros fr0 H0; generalize (stepBoth_cases T fr0);
            destruct (stepBoth T fr0) as [[x0 | cur] fr1]; intros Hs; inversion Hs; subst;
            match goal with Hj : journal T fr1 = _ |- _ => rewrite Hj end;
            simpl; repeat split; try tauto; eexists _, _, _; reflexivity).
  all: try (intros n fr0 [H0 H1];
            destruct (sendIfReady_shape T cb fr0) as [-> | (text & html & Hj & _ & Hr)];
            [exact H0|];
            destruct (sendIfReady T cb fr0) as [[x0 | u] fr1]; simpl in Hj;
            rewrite Hj; now apply Hsend).
  all: try (intros fr0 [H0 H1];
            destruct (finish_shape T cb fr0)
              as [(fr1 & -> & Hj & _) | (text & html & Hj & _ & Hr)];
            [rewrite Hj; simpl; tauto|];
            destruct (finish T cb fr0) as [[x0 | u] fr1]; simpl in Hj;
            rewrite Hj; now apply Hsend).
Qed.

Lemma flushedSends_app (l1 l2 : list (Event E)) :
  flushedSends (l1 ++ l2) -> flushedSends l2.
Proof. induction l1 as [|ev l1 IH]; simpl; [auto | intros [H _]; auto]. Qed.

Lemma run_retired (fuel : nat) (node : AbstractNode) (w : World) :
  match run T cb fuel (construct T node w) with
  | (inr ids, fr) => finale (journal T fr)
  | (inl x, fr) => retired (journal T fr)
  end.
Proof.
  apply (run_flow T cb
           (fun fr => live (journal T fr))
           (fun cur fr => match cur with
                          | Some _ => live (journal T fr)
                          | None => ended (journal T fr)
                          end)
           (fun _ fr => finale (journal T fr))
           (fun _ fr => retired (journal T fr))).
  - intros fr Hl. generalize (stepBoth_cases T fr).
    destruct (stepBoth T fr) as [[x | cur] fr']; intros H; inversion H; subst; clear H;
      match goal with Hj : journal T fr' = _ |- _ => rewrite Hj end.
    + apply live_retired, live_cons; [discriminate | exact Hl].
    + now apply retired_pair.
    + now apply retired_pair.
    + destruct cur as [n|].
      * apply live_cons; [discriminate|]. apply live_cons; [|exact Hl].
        intros f Heq. injection Heq as _ Ha.
        match goal with Hab : Object_is _ _ = true |- _ =>
          apply Object_is_Some in Hab; now apply Hab end.
      * match goal with Hab : Object_is _ _ = true |- _ =>
          apply Object_is_None in Hab; subst end.
        now exists (journal T fr).
  - intros n fr Hl.
    destruct (sendIfReady_shape T cb fr) as [-> | (text & html & Hj & _ & Hr)]; [exact Hl|].
    assert (Hl' : live (journal T (snd (sendIfReady T cb fr)))).
    { simpl in Hj. rewrite Hj. do 5 (apply live_cons; [discriminate|]). exact Hl. }
    destruct (sendIfReady T cb fr) as [[x | u] fr']; simpl in Hl';
      [now apply live_retired | exact Hl'].
  - intros n fr Hl. now apply live_retired.
  - intros fr He.
    destruct (finish_shape T cb fr) as [(fr' & -> & Hj & _) | (text & html & Hj & _ & Hr)].
    + rewrite Hj. destruct He as (j0 & -> & Hl). exists [], j0. auto.
    + simpl in Hj, Hr.
      destruct (finish T cb fr) as [[x | ids] fr']; simpl in Hj, Hr; rewrite Hj.
      * do 5 (apply retired_cons_plain; [exact I|]). now apply ended_retired.
      * destruct He as (j0 & -> & Hl).
        destruct (fst (cb (world T fr) text html)) as [e | eventId]; [discriminate|].
        exists [ESend text html (inr eventId); EReadPage Html html; EReadPage Markdown text], j0.
        split; [reflexivity|]. split; [exact Hl|]. right. now exists text, html, eventId.
  - simpl. intros f H. simpl in H. intuition discriminate.
Qed.

Lemma run_threaded (fuel : nat) (node : AbstractNode) (w : World) :
  let fr := snd (run T cb fuel (construct T node w)) in
  threaded cb w (journal T fr) (world T fr).
Proof.
  simpl.
  pose proof (run_flow T cb
           (fun fr => threaded cb w (journal T fr) (world T fr))
           (fun _ fr => threaded cb w (journal T fr) (world T fr))
           (fun _ fr => threaded cb w (journal T fr) (world T fr))
           (fun _ fr => threaded cb w (journal T fr) (world T fr))) as H.
  specialize (fun a b c d => H a b c d fuel (construct T node w)).
  assert (Hgoal : match run T cb fuel (construct T node w) with
                  | (inr _, fr') | (inl _, fr') =>
                      threaded cb w (journal T fr') (world T fr')
                  end).
  { destruct (run T cb fuel (construct T node w)) as [[x | ids] fr'] eqn:Hrun;
      apply H; clear H.
    all: try (intros; assumption).
    all: try (simpl; split; [reflexivity | exact I]).
    all: try (intros fr0 H0; generalize (stepBoth_cases T fr0);
              destruct (stepBoth T fr0) as [[x0 | cur] fr1]; intros Hs; inversion Hs; subst;
              match goal with Hj : journal T fr1 = _, Hw : world T fr1 = _ |- _ =>
                rewrite Hj, Hw end;
              repeat (apply threaded_plain; [exact I|]); exact H0).
    all: try (intros n fr0 H0;
              destruct (sendIfReady_shape T cb fr0) as [-> | (text & html & Hj & Hw & Hr)];
              [exact H0|];
              destruct (sendIfReady T cb fr0) as [[x0 | u] fr1]; simpl in Hj, Hw;
              rewrite Hj, Hw; apply threaded_send;
              repeat (apply threaded_plain; [exact I|]); exact H0).
    all: try (intros fr0 H0;
              destruct (finish_shape T cb fr0)
                as [(fr1 & -> & Hj & Hw) | (text & html & Hj & Hw & Hr)];
              [rewrite Hj, Hw; repeat (apply threaded_plain; [exact I|]); exact H0|];
              destruct (finish T cb fr0) as [[x0 | u] fr1]; simpl in Hj, Hw;
              rewrite Hj, Hw; apply threaded_send;
              repeat (apply threaded_plain; [exact I|]); exact H0). }
  destruct (run T cb fuel (construct T node w)) as [[x | ids] fr']; exact Hgoal.
Qed.

(** X1: in every run the walkers are incremented in pairs, markdown
    first: an increment of the html walker directly follows an increment
    of the markdown walker that returned, and an increment of the
    markdown walker that returned is directly followed by an increment
    of the html walker. *)
Theorem increments_alternate :
  forall (fuel : nat) (node : AbstractNode) (w : World),
    let r := renderMatrix T cb fuel node w in
    (forall pre res post,
        trace r = pre ++ EIncrement Html res :: post ->
        exists pre' a, pre = pre' ++ [EIncrement Markdown (inr a)]) /\
    (forall pre a post,
        trace r = pre ++ EIncrement Markdown (inr a) :: post ->
        exists res post', post = EIncrement Html res :: post').
Proof.
  intros fuel node w r. subst r.
  destruct (renderMatrix_unfold T cb fuel node w) as [[_ ->] | [_ ->]].
  - split; intros pre ? post H; simpl in H; now destruct pre.
  - rewrite conclude_trace.
    pose proof (run_inStep fuel node w) as [Ha Hr].
    split.
    + intros pre res post H. apply rev_split1 in H. rewrite H in Ha.
      apply alternating_app in Ha. simpl in Ha.
      destruct Ha as (_ & (a & j'' & Hpre) & _).
      exists (rev j''), a. rewrite <- (rev_involutive pre), Hpre. reflexivity.
    + intros pre a post H. apply rev_split1 in H. rewrite H in Ha, Hr.
      destruct (rev post) as [|ev l] eqn:Hpost using rev_ind.
      * simpl in Hr. contradiction.
      * clear IHl. rewrite <- app_assoc in Ha. apply alternating_app in Ha.
        simpl in Ha. destruct Ha as (_ & _ & (res & ->)).
        exists res, (rev l). rewrite <- (rev_involutive post), Hpost.
        now rewrite rev_app_distr.
Qed.

(** X2: in every run, every call of the callback, in the loop or after
    it, comes right after a pair of increments that returned, the flush
    of both streams, html first, and the reads of its two pages,
    markdown first; so at most one page is sent for each step of the
    walkers. *)
Theorem send_follows_flush :
  forall (fuel : nat) (node : AbstractNode) (w : World) pre text html res post,
    trace (renderMatrix T cb fuel node w) = pre ++ ESend text html res :: post ->
    exists pre' a b,
      pre = pre' ++ [EIncrement Markdown (inr a); EIncrement Html (inr b);
                     EEnsureNewPage Html; EEnsureNewPage Markdown;
                     EReadPage Markdown text; EReadPage Html html].
Proof.
  intros fuel node w pre text html res post.
  destruct (renderMatrix_unfold T cb fuel node w) as [[_ ->] | [_ ->]].
  - intros H. simpl in H. now destruct pre.
  - rewrite conclude_trace. intros H. apply rev_split1 in H.
    pose proof (run_flushedSends fuel node w) as Hf. rewrite H in Hf.
    apply flushedSends_app in Hf. simpl in Hf.
    destruct Hf as (_ & a & b & j'' & Hpre).
    exists (rev j''), a, b. rewrite <- (rev_involutive pre), Hpre. simpl.
    now rewrite <- !app_assoc.
Qed.

(** X3: in every run, a walker that returned [undefined] is not
    incremented again. *)
Theorem no_increment_after_undefined :
  forall (fuel : nat) (node : AbstractNode) (w : World) pre f post,
    trace (renderMatrix T cb fuel node w) = pre ++ EIncrement f (inr None) :: post ->
    forall res, ~ In (EIncrement f res) post.
Proof.
  intros fuel node w pre f post.
  destruct (renderMatrix_unfold T cb fuel node w) as [[_ ->] | [_ ->]].
  - intros H. simpl in H. now destruct pre.
  - rewrite conclude_trace. intros H res Hin. apply rev_split1 in H.
    assert (Hret : retired (journal T (snd (run T cb fuel (construct T node w))))).
    { pose proof (run_retired fuel node w) as Hr.
      destruct (run T cb fuel (construct T node w)) as [[x | ids] fr];
        [exact Hr | now apply finale_retired]. }
    rewrite H in Hret. apply in_rev, in_split in Hin. destruct Hin as (l1 & l2 & Hpost).
    rewrite Hpost, <- app_assoc in Hret. apply retired_app in Hret.
    simpl in Hret. destruct Hret as [_ Hnot]. apply Hnot, in_elt.
Qed.

(** X4: a call of [renderMatrix] returns only after both walkers
    returned [undefined] in the same pair of increments, for the first
    time; what follows is the flush of both streams and at most one last
    page, read and sent with success. *)
Theorem returns_after_both_walkers_end :
  forall (fuel : nat) (node : AbstractNode) (w : World) (ids : list string),
    outcome (renderMatrix T cb fuel node w) = Returned ids ->
    exists pre last,
      trace (renderMatrix T cb fuel node w)
      = pre ++ [EIncrement Markdown (inr None); EIncrement Html (inr None);
                EEnsureNewPage Html; EEnsureNewPage Markdown] ++ last /\
      live pre /\
      (last = [] \/
       exists text html eventId,
         last = [EReadPage Markdown text; EReadPage Html html;
                 ESend text html (inr eventId)]).
Proof.
  intros fuel node w ids.
  destruct (renderMatrix_unfold T cb fuel node w) as [[_ ->] | [_ ->]]; [discriminate|].
  rewrite conclude_trace, conclude_outcome.
  pose proof (run_retired fuel node w) as Hr.
  destruct (run T cb fuel (construct T node w)) as [[[e | ] | ids'] fr]; try discriminate.
  intros _. simpl. destruct Hr as (last & j0 & -> & Hl & Hlast).
  exists (rev j0), (rev last). split.
  - rewrite rev_app_distr. simpl. now rewrite <- !app_assoc.
  - split; [intros f Hin; apply (Hl f); now apply in_rev|].
    destruct Hlast as [-> | (text & html & eventId & ->)]; [now left | right].
    now exists text, html, eventId.
Qed.

(** The world is handed from one call of the callback to the next. *)
Lemma renderMatrix_threaded (fuel : nat) (node : AbstractNode) (w : World) :
  finalWorld (renderMatrix T cb fuel node w)
  = replay cb w (trace (renderMatrix T cb fuel node w)) /\
  answered cb w (trace (renderMatrix T cb fuel node w)).
Proof.
  destruct (renderMatrix_unfold T cb fuel node w) as [[_ ->] | [_ ->]].
  - simpl. auto.
  - rewrite conclude_trace. pose proof (run_threaded fuel node w) as Ht.
    simpl in Ht.
    destruct (run T cb fuel (construct T node w)) as [[[e | ] | ids] fr]; exact Ht.
Qed.

End Runs.

(** *** Two callbacks that answer alike *)

Section Simulation.

Context {E World World' : Type}.
Variable T : Toolkit E.
Variable R : World -> World' -> Prop.
Variable cb : @SendMatrixEventCB E World.
Variable cb' : @SendMatrixEventCB E World'.
Hypothesis cb_alike : alike R cb cb'.

Lemma bind_alike {A B : Type} (m : M T A) (m' : M T A) (k : A -> M T B) (k' : A -> M T B) :
  alikeM R m m' -> (forall a, alikeM R (k a) (k' a)) ->
  alikeM R (bind T m k) (bind T m' k').
Proof.
  intros Hm Hk fr w' HR. unfold bind.
  destruct (Hm fr w' HR) as (Hfst & Hsnd & Hw).
  destruct (m fr) as [r fr1]. destruct (m' (reworld fr w')) as [r' fr1'].
  simpl in Hfst, Hsnd, Hw. subst r'. destruct r as [x | a].
  - repeat split; assumption.
  - rewrite Hsnd. apply Hk, Hw.
Qed.

Lemma ret_alike {A : Type} (a : A) : alikeM R (ret T a) (ret T a).
Proof. intros fr w' HR. repeat split. exact HR. Qed.

Lemma stepBoth_alike : alikeM R (stepBoth T) (stepBoth T).
Proof.
  intros fr w' HR. unfold endedAlike, stepBoth, bind, incrementOf, checkEqual, ret, throw. simpl.
  destruct (increment T (markdownWalker T fr) (markdownOutput T fr))
    as [[[e | a] w1] s1]; simpl; [repeat split; exact HR|].
  destruct (increment T (htmlWalker T fr) (htmlOutput T fr))
    as [[[e | b] w2] s2]; simpl; [repeat split; exact HR|].
  destruct (Object_is b a); simpl; repeat split; exact HR.
Qed.

Lemma sendPages_alike : alikeM R (sendPages T cb) (sendPages T cb').
Proof.
  intros fr w' HR. unfold endedAlike, sendPages, bind, readPageOf, awaitCb, push. simpl.
  destruct (readPage T (markdownOutput T fr)) as [text s1]; simpl.
  destruct (readPage T (htmlOutput T fr)) as [html s2]; simpl.
  destruct (cb_alike (world T fr) w' text html HR) as [Hfst Hsnd].
  destruct (cb (world T fr) text html) as [r w1].
  destruct (cb' w' text html) as [r' w1']. simpl in Hfst, Hsnd. subst r'.
  destruct r as [e | eventId]; simpl; repeat split; exact Hsnd.
Qed.

Lemma forEachEnsureNewPage_alike :
  alikeM R (forEachEnsureNewPage T) (forEachEnsureNewPage T).
Proof. intros fr w' HR. repeat split. exact HR. Qed.

Lemma sendIfReady_alike : alikeM R (sendIfReady T cb) (sendIfReady T cb').
Proof.
  intros fr w' HR. unfold sendIfReady, bind, somePeekPage. simpl.
  destruct (peekPage T (htmlOutput T fr) || peekPage T (markdownOutput T fr)).
  - exact (bind_alike _ _ _ _ forEachEnsureNewPage_alike (fun _ => sendPages_alike) fr w' HR).
  - repeat split. exact HR.
Qed.

Lemma while_alike (fuel : nat) :
  forall cur, alikeM R (while T cb fuel cur) (while T cb' fuel cur).
Proof.
  induction fuel as [|fuel IH]; intros [n|]; simpl; try apply ret_alike.
  - intros fr w' HR. repeat split. exact HR.
  - apply bind_alike; [|exact IH].
    unfold body. apply bind_alike; [exact sendIfReady_alike|].
    intros u. exact stepBoth_alike.
Qed.

Lemma finish_alike : alikeM R (finish T cb) (finish T cb').
Proof.
  unfold finish. apply bind_alike; [exact forEachEnsureNewPage_alike|]. intros u.
  intros fr w' HR. unfold bind, somePeekPage, getEventIds. simpl.
  destruct (peekPage T (htmlOutput T fr) || peekPage T (markdownOutput T fr)).
  - destruct (sendPages_alike fr w' HR) as (Hfst & Hsnd & Hw).
    destruct (sendPages T cb fr) as [r fr1].
    destruct (sendPages T cb' (reworld fr w')) as [r' fr1'].
    simpl in Hfst, Hsnd, Hw. subst r'. destruct r as [x | u']; simpl.
    + repeat split; assumption.
    + rewrite Hsnd. repeat split. exact Hw.
  - repeat split. exact HR.
Qed.

Lemma run_alike (fuel : nat) : alikeM R (run T cb fuel) (run T cb' fuel).
Proof.
  unfold run. apply bind_alike; [exact stepBoth_alike|]. intros cur.
  apply bind_alike; [apply while_alike|]. intros u. exact finish_alike.
Qed.

(** Callbacks that answer alike in related worlds give runs that are
    alike. *)
Lemma renderMatrix_alike (fuel : nat) (node : AbstractNode) (w : World) (w' : World') :
  R w w' ->
  outcome (renderMatrix T cb' fuel node w') = outcome (renderMatrix T cb fuel node w) /\
  trace (renderMatrix T cb' fuel node w') = trace (renderMatrix T cb fuel node w) /\
  collected (renderMatrix T cb' fuel node w') = collected (renderMatrix T cb fuel node w) /\
  R (finalWorld (renderMatrix T cb fuel node w))
    (finalWorld (renderMatrix T cb' fuel node w')).
Proof.
  intros HR. unfold renderMatrix.
  destruct (negb (NodeTag_eqb (tag node) Root)); [simpl; auto|].
  destruct (run_alike fuel (construct T node w) w' HR) as (Hfst & Hsnd & Hw).
  change (reworld (construct T node w) w') with (construct T node w') in *.
  destruct (run T cb fuel (construct T node w)) as [r fr].
  destruct (run T cb' fuel (construct T node w')) as [r' fr'].
  simpl in Hfst, Hsnd, Hw. subst r'. rewrite Hsnd.
  destruct r as [[e | ] | ids]; simpl; auto.
Qed.

End Simulation.

End TracesFacts.

(** ** Rendering and sending to a room *)

Module MatrixSendFacts.
Import DeadDocument Matrix MatrixFacts Traces TracesFacts MatrixSend.

Lemma replay_sendNotice {E World : Type} (client : MatrixSendClient E World)
    (roomId : string) (t : list (Event E)) :
  forall w, replay (sendNotice client roomId) w t = deliver client w (notices roomId t).
Proof.
  induction t as [|ev t IH]; intros w; [reflexivity|].
  destruct ev; simpl; apply IH.
Qed.

Lemma deliver_logging {E World : Type} (client : MatrixSendClient E World)
    (reqs : list Request) :
  forall log w,
    deliver (logging client) (log, w) reqs = (log ++ reqs, deliver client w reqs).
Proof.
  induction reqs as [|[roomId content] reqs IH]; intros log w; simpl.
  - now rewrite app_nil_r.
  - destruct (sendMessage client w roomId content) as [r w'] eqn:Hs. simpl.
    rewrite IH, <- app_assoc. reflexivity.
Qed.

Lemma logging_alike {E World : Type} (client : MatrixSendClient E World) (roomId : string) :
  alike (fun w lw => snd lw = w) (sendNotice client roomId)
        (sendNotice (logging client) roomId).
Proof.
  intros w [log w'] text html Hw. simpl in Hw. subst w'. unfold sendNotice. simpl.
  destruct (sendMessage client w roomId _) as [r w1]. split; reflexivity.
Qed.

(** X7: [renderMatrixAndSend] asks the client for nothing but one
    [m.notice] per page, to the room it was given, with the markdown
    page as [body] and the html page as [formatted_body], in the order
    the pages were read: the client is left in the state these requests
    lead to, and a client that logs its requests ends with exactly them
    in its log, the run being otherwise the same. *)
Theorem renderMatrixAndSend_requests :
  forall (E World Any : Type) (T : Toolkit E) (fuel : nat) (node : AbstractNode)
         (roomId : string) (event : Any) (client : MatrixSendClient E World)
         (w : World) (log : list Request),
    let r := renderMatrixAndSend T fuel node roomId event client w in
    let r' := renderMatrixAndSend T fuel node roomId event (logging client) (log, w) in
    finalWorld r = deliver client w (notices roomId (trace r)) /\
    outcome r' = outcome r /\ trace r' = trace r /\
    finalWorld r' = (log ++ notices roomId (trace r), finalWorld r).
Proof.
  intros E World Any T fuel node roomId event client w log r r'. subst r r'.
  unfold renderMatrixAndSend.
  destruct (renderMatrix_alike T (fun w lw => snd lw = w) _ _
              (logging_alike client roomId) fuel node w (log, w) eq_refl)
    as (Hout & Htrace & _ & _).
  destruct (renderMatrix_threaded T (sendNotice client roomId) fuel node w) as [Hw _].
  destruct (renderMatrix_threaded T (sendNotice (logging client) roomId) fuel node (log, w))
    as [Hw' _].
  split; [now rewrite Hw, replay_sendNotice|].
  split; [exact Hout|]. split; [exact Htrace|].
  rewrite Hw', replay_sendNotice, deliver_logging, Htrace, Hw, replay_sendNotice.
  reflexivity.
Qed.

End MatrixSendFacts.

(** ** The management room output *)

Module ManagementRoomFacts.
Import Matrix ManagementRoom.

Local Open Scope string_scope.

Section Facts.

Context {E C : Type}.
Variable X : Externals.
Variable this : ManagementRoomOutput E C.

Lemma trySendMessage_shape (content : TextualMessageEventContent) (st : State E C) :
  exists s st',
    trySendMessage this content st = (inr tt, st') /\
    effects st' = (s ++ effects st)%list /\ sendShape this content s.
Proof.
  unfold trySendMessage, bind, awaitSendMessage.
  destruct (sendMessage (client this) (clientState st) (managementRoomID this) content)
    as [[ex | eventId] c].
  - eexists [_; _], _. split; [reflexivity|]. split; [reflexivity | apply send_failed].
  - eexists [_], _. split; [reflexivity|]. split; [reflexivity | apply send_ok].
Qed.

(** One call of [logMessage], statement by statement. *)
Lemma logMessage_S (n : nat) (level : LogLevel) (module message : string)
    (additionalRoomIds : RoomIdsArg) (isRecursive : bool) :
  logMessage X this (S n) level module message additionalRoomIds isRecursive
  = bind
      (if LogLevel_is level ERROR
       then perform (CaptureMessage (module ++ ": " ++ message) "error")
       else ret tt)
      (fun _ =>
         bind
           (if shown X this level
            then
              bind
                (if negb isRecursive
                 then replaceRoomIdsWithPills X this (logMessage X this n)
                        (if LogLevel_is level ERROR then "‼ | " ++ message
                         else if LogLevel_is level WARN then "⚠ | " ++ message
                              else message)
                        (Set_of [] (managementRoomID this :: normalise additionalRoomIds))
                        "m.notice"
                 else ret (plainContent X message))
                (fun evContent => trySendMessage this evContent)
            else ret tt)
           (fun _ =>
              match lookup (LogLevel_toString level) levelToFn with
              | None =>
                  throw (TypeError ("Unable to find logFunction for log level: "
                                      ++ LogLevel_toString level))
              | Some logFunction => perform (LogCall logFunction module [inl message])
              end)).
Proof. destruct level; reflexivity. Qed.

(** The call made when a lookup failed: it looks nothing up, so any
    positive fuel is enough. *)
Lemma logMessage_notice (n : nat) (roomId : string) (st : State E C) :
  exists notice st',
    logMessage X this (S n) WARN "utils" (failureNotice roomId) Null true st = (inr tt, st') /\
    effects st' = (notice ++ effects st)%list /\ noticeShape X this roomId notice.
Proof.
  rewrite logMessage_S. change (LogLevel_is WARN ERROR) with false.
  change (negb true) with false. cbv iota.
  change (lookup (LogLevel_toString WARN) levelToFn) with (Some LogService_warn).
  cbv iota. unfold bind at 1. unfold ret at 1. unfold bind at 1.
  destruct (shown X this WARN) eqn:Hshown.
  - unfold bind at 1. unfold ret at 1.
    destruct (trySendMessage_shape (plainContent X (failureNotice roomId)) st)
      as (s & st' & Hrun & Heff & Hs).
    rewrite Hrun. simpl.
    eexists (_ :: s), _. split; [reflexivity|]. simpl. rewrite Heff.
    split; [reflexivity | now apply notice_sent].
  - simpl. eexists [_], _. split; [reflexivity|]. split; [reflexivity | now apply notice_silent].
Qed.

Lemma resolveAlias_shape (n : nat) (roomId : string) (st : State E C) :
  exists alias first st',
    resolveAlias this (logMessage X this (S n)) roomId st = (inr alias, st') /\
    effects st' = (first ++ effects st)%list /\ aliasShape X this roomId first.
Proof.
  unfold resolveAlias. unfold bind at 1. unfold awaitGetPublishedAlias.
  destruct (getPublishedAlias (client this) (clientState st) roomId) as [[e | found] c].
  - match goal with |- context [logMessage X this (S n) WARN "utils" ?m Null true] =>
      change m with (failureNotice roomId) end.
    unfold bind at 1.
    match goal with |- context [logMessage X this (S n) WARN "utils" _ Null true ?st0] =>
      destruct (logMessage_notice n roomId st0) as (notice & st' & Hrun & Heff & Hn) end.
    rewrite Hrun. unfold bind, perform, ret. simpl in Heff. simpl.
    eexists _, (_ :: notice ++ [_])%list, _. split; [reflexivity|]. simpl.
    split; [now rewrite Heff, <- app_assoc | now apply alias_failed].
  - simpl. eexists _, [_], _. split; [reflexivity|]. split; [reflexivity | apply alias_found].
Qed.

Lemma replaceRoomId_shape (n : nat) (viaServers : list string) (roomId : string)
    (content : TextualMessageEventContent) (st : State E C) :
  exists content' first st',
    replaceRoomId X this (logMessage X this (S n)) viaServers roomId content st
    = (inr content', st') /\
    effects st' = (first ++ effects st)%list /\ aliasShape X this roomId first /\
    msgtype content' = msgtype content /\ format content' = format content.
Proof.
  unfold replaceRoomId, bind.
  destruct (resolveAlias_shape n roomId st) as (alias & first & st' & -> & Heff & Hshape).
  simpl. eexists _, first, st'. repeat split; assumption.
Qed.

Lemma forOf_shape (n : nat) (viaServers : list string) (roomIds : list string) :
  forall (content : TextualMessageEventContent) (st : State E C),
  exists content' lookups st',
    forOf (replaceRoomId X this (logMessage X this (S n)) viaServers) roomIds content st
    = (inr content', st') /\
    effects st' = (lookups ++ effects st)%list /\ pillsShape X this roomIds lookups /\
    msgtype content' = msgtype content /\ format content' = format content.
Proof.
  induction roomIds as [|roomId roomIds IH]; intros content st.
  - exists content, [], st. repeat split. apply pills_nil.
  - cbn [forOf]. unfold bind at 1.
    destruct (replaceRoomId_shape n viaServers roomId content st)
      as (content1 & first & st1 & -> & Heff1 & Hshape1 & Hm1 & Hf1).
    destruct (IH content1 st1) as (content' & rest & st' & -> & Heff & Hshape & Hm & Hf).
    exists content', (rest ++ first)%list, st'. split; [reflexivity|].
    split; [now rewrite Heff, Heff1, app_assoc|].
    split; [now apply pills_cons|]. split; congruence.
Qed.

(** What a call of [logMessage] does, once the fuel covers the call and
    the calls made for failed lookups. *)
Lemma logMessage_shape (n : nat) (level : LogLevel) (module message : string)
    (additionalRoomIds : RoomIdsArg) (isRecursive : bool) (st : State E C) :
  exists st' new,
    logMessage X this (S (S n)) level module message additionalRoomIds isRecursive st
    = (match lookup (LogLevel_toString level) levelToFn with
       | Some _ => inr tt
       | None => inl (Throw (TypeError ("Unable to find logFunction for log level: "
                                          ++ LogLevel_toString level)))
       end, st') /\
    (shown X this level = false -> clientState st' = clientState st) /\
    effects st' = (new ++ effects st)%list /\
    logShape X this level module message additionalRoomIds isRecursive new.
Proof.
  rewrite logMessage_S. unfold logShape.
  set (sentry := if LogLevel_is level ERROR
                 then perform (CaptureMessage (module ++ ": " ++ message) "error")
                 else ret tt).
  unfold bind at 1.
  assert (Hsentry : exists st0, sentry st = (inr tt, st0) /\
            clientState st0 = clientState st /\
            effects st0 = ((if LogLevel_is level ERROR
                            then [CaptureMessage (module ++ ": " ++ message) "error"]
                            else []) ++ effects st)%list).
  { subst sentry. destruct (LogLevel_is level ERROR); eexists; repeat split. }
  destruct Hsentry as (st0 & -> & Hc0 & He0).
  unfold bind at 1.
  set (console := match lookup (LogLevel_toString level) levelToFn with
                  | Some logFunction => [LogCall logFunction module [inl message]]
                  | None => []
                  end).
  assert (Hroom : exists room st1,
            (if shown X this level
             then bind
                    (if negb isRecursive
                     then replaceRoomIdsWithPills X this (logMessage X this (S n))
                            (if LogLevel_is level ERROR then "‼ | " ++ message
                             else if LogLevel_is level WARN then "⚠ | " ++ message
                                  else message)
                            (Set_of [] (managementRoomID this :: normalise additionalRoomIds))
                            "m.notice"
                     else ret (plainContent X message))
                    (fun evContent => trySendMessage this evContent)
             else ret tt) st0 = (inr tt, st1) /\
            effects st1 = (room ++ effects st0)%list /\
            (shown X this level = false -> clientState st1 = clientState st0) /\
            if shown X this level
            then exists content s lookups,
                room = (s ++ lookups)%list /\ sendShape this content s /\
                msgtype content = "m.notice" /\ format content = "org.matrix.custom.html" /\
                if isRecursive
                then lookups = [] /\ content = plainContent X message
                else pillsShape X this
                       (Set_of [] (managementRoomID this :: normalise additionalRoomIds))
                       lookups
            else room = []).
  { destruct (shown X this level).
    - destruct isRecursive; simpl negb; cbv iota.
      + unfold bind, ret.
        destruct (trySendMessage_shape (plainContent X message) st0)
          as (s & st1 & -> & Heff & Hs).
        exists s, st1. split; [reflexivity|]. split; [now rewrite Heff|].
        split; [discriminate|].
        exists (plainContent X message), s, []. rewrite app_nil_r. repeat split. exact Hs.
      + unfold bind, replaceRoomIdsWithPills.
        match goal with |- context [forOf ?f ?ids ?c0 st0] =>
          destruct (forOf_shape n [serverName X (clientUserID this)] ids c0 st0)
            as (content & lookups & st1 & -> & Heff1 & Hshape & Hm & Hf) end.
        destruct (trySendMessage_shape content st1) as (s & st2 & -> & Heff2 & Hs).
        exists (s ++ lookups)%list, st2. split; [reflexivity|].
        split; [now rewrite Heff2, Heff1, app_assoc|]. split; [discriminate|].
        exists content, s, lookups. repeat split; assumption.
    - exists [], st0. repeat split. }
  destruct Hroom as (room & st1 & -> & He1 & Hc1 & Hshape).
  destruct (lookup (LogLevel_toString level) levelToFn) as [logFunction|];
    unfold perform, throw; eexists _, _;
    (split; [reflexivity|]); simpl;
    (split; [intros H; rewrite (Hc1 H); exact Hc0|]);
    (split; [|exists console, room; split; [reflexivity|]; split; [reflexivity|];
              exact Hshape]);
    subst console; rewrite He1, He0; simpl; now rewrite <- ?app_assoc.
Qed.

(** *** Where the messages go *)

Lemma sendShape_toManagementRoom (content : TextualMessageEventContent) (s : list (Effect E)) :
  msgtype content = "m.notice" -> format content = "org.matrix.custom.html" ->
  sendShape this content s -> Forall (toManagementRoom this) s.
Proof. intros Hm Hf [eventId | ex]; repeat constructor; assumption. Qed.

Lemma noticeShape_toManagementRoom (roomId : string) (notice : list (Effect E)) :
  noticeShape X this roomId notice -> Forall (toManagementRoom this) notice.
Proof.
  intros [Hshown | s Hshown Hs]; constructor; try exact I; [constructor|].
  now apply (sendShape_toManagementRoom (plainContent X (failureNotice roomId))).
Qed.

Lemma aliasShape_toManagementRoom (roomId : string) (first : list (Effect E)) :
  aliasShape X this roomId first -> Forall (toManagementRoom this) first.
Proof.
  intros [found | e notice Hn]; constructor; try exact I; [constructor|].
  apply Forall_app. split; [now apply (noticeShape_toManagementRoom roomId)|].
  now repeat constructor.
Qed.

Lemma pillsShape_toManagementRoom (roomIds : list string) (lookups : list (Effect E)) :
  pillsShape X this roomIds lookups -> Forall (toManagementRoom this) lookups.
Proof.
  induction 1 as [|roomId roomIds first rest Hfirst _ IH]; [constructor|].
  apply Forall_app. split; [exact IH | now apply (aliasShape_toManagementRoom roomId)].
Qed.

Lemma logShape_toManagementRoom level module message additionalRoomIds isRecursive new :
  logShape X this level module message additionalRoomIds isRecursive new ->
  Forall (toManagementRoom this) new.
Proof.
  intros (console & room & -> & -> & Hroom).
  apply Forall_app. split.
  { destruct (lookup _ _); repeat constructor. }
  apply Forall_app. split; [|destruct (LogLevel_is level ERROR); repeat constructor].
  destruct (shown X this level); [|subst room; constructor].
  destruct Hroom as (content & s & lookups & -> & Hs & Hm & Hf & Hrec).
  apply Forall_app. split; [now apply (sendShape_toManagementRoom content)|].
  destruct isRecursive; [destruct Hrec as [-> _]; constructor|].
  now apply pillsShape_toManagementRoom in Hrec.
Qed.

(** *** Which rooms are looked up *)

Lemma lookedUp_app (a b : list (Effect E)) :
  lookedUp (a ++ b) = (lookedUp b ++ lookedUp a)%list.
Proof.
  induction a as [|ev a IH]; simpl; [now rewrite app_nil_r|].
  destruct ev; rewrite ?IH, ?app_assoc; reflexivity.
Qed.

Lemma failedLookups_app (a b : list (Effect E)) :
  failedLookups (a ++ b) = failedLookups a + failedLookups b.
Proof.
  induction a as [|ev a IH]; simpl; [reflexivity|].
  destruct ev as [| |? [|]| |]; simpl; rewrite ?IH; reflexivity.
Qed.

Lemma sends_app (a b : list (Effect E)) : sends (a ++ b) = sends a + sends b.
Proof.
  induction a as [|ev a IH]; simpl; [reflexivity|].
  destruct ev; simpl; rewrite ?IH; reflexivity.
Qed.

Lemma sendShape_counts content (s : list (Effect E)) :
  sendShape this content s -> lookedUp s = [] /\ failedLookups s = 0 /\ sends s = 1.
Proof. intros [eventId | ex]; repeat split. Qed.

Lemma noticeShape_counts (roomId : string) (notice : list (Effect E)) :
  noticeShape X this roomId notice ->
  lookedUp notice = [] /\ failedLookups notice = 0 /\
  sends notice = if shown X this WARN then 1 else 0.
Proof.
  intros [Hshown | s Hshown Hs]; rewrite Hshown; [repeat split|].
  simpl. now apply sendShape_counts in Hs.
Qed.

Lemma aliasShape_counts (roomId : string) (first : list (Effect E)) :
  aliasShape X this roomId first ->
  lookedUp first = [roomId] /\
  sends first = if shown X this WARN then failedLookups first else 0.
Proof.
  intros [found | e notice Hn]; simpl.
  - split; [reflexivity | now destruct (shown X this WARN)].
  - apply noticeShape_counts in Hn. destruct Hn as (Hl & Hf & Hs).
    rewrite lookedUp_app, failedLookups_app, sends_app, Hl, Hf, Hs. simpl.
    split; [reflexivity | now destruct (shown X this WARN)].
Qed.

Lemma pillsShape_counts (roomIds : list string) (lookups : list (Effect E)) :
  pillsShape X this roomIds lookups ->
  lookedUp lookups = roomIds /\
  sends lookups = if shown X this WARN then failedLookups lookups else 0.
Proof.
  induction 1 as [|roomId roomIds first rest Hfirst _ [IHl IHs]];
    [split; [reflexivity | now destruct (shown X this WARN)]|].
  apply aliasShape_counts in Hfirst. destruct Hfirst as [Hl Hs].
  rewrite lookedUp_app, failedLookups_app, sends_app, Hl, IHl, Hs, IHs.
  split; [reflexivity | destruct (shown X this WARN); lia].
Qed.

Lemma logShape_counts level module message additionalRoomIds isRecursive new :
  logShape X this level module message additionalRoomIds isRecursive new ->
  lookedUp new
  = (if shown X this level && negb isRecursive
     then Set_of [] (managementRoomID this :: normalise additionalRoomIds)
     else []) /\
  sends new
  = if shown X this level
    then S (if shown X this WARN then failedLookups new else 0)
    else 0.
Proof.
  intros (console & room & -> & -> & Hroom).
  assert (Hc : forall fn : option LogFunction,
             let c := match fn with
                      | Some logFunction => [LogCall (E:=E) logFunction module [inl message]]
                      | None => []
                      end in
             lookedUp c = [] /\ failedLookups c = 0 /\ sends c = 0)
    by (intros [fn|]; repeat split).
  destruct (Hc (lookup (LogLevel_toString level) levelToFn)) as (Hc1 & Hc2 & Hc3).
  assert (Hs : let s := if LogLevel_is level ERROR
                        then [CaptureMessage (E:=E) (module ++ ": " ++ message) "error"]
                        else [] in
               lookedUp s = [] /\ failedLookups s = 0 /\ sends s = 0)
    by (destruct (LogLevel_is level ERROR); repeat split).
  destruct Hs as (Hs1 & Hs2 & Hs3).
  rewrite !lookedUp_app, !failedLookups_app, !sends_app, Hc1, Hc2, Hc3, Hs1, Hs2, Hs3.
  rewrite app_nil_r. simpl.
  destruct (shown X this level); simpl; [|subst room; split; reflexivity].
  destruct Hroom as (content & s & lookups & -> & Hsend & _ & _ & Hrec).
  apply sendShape_counts in Hsend. destruct Hsend as (Hl & Hf & Hn).
  rewrite lookedUp_app, failedLookups_app, sends_app, Hl, Hf, Hn, app_nil_r.
  destruct isRecursive; simpl.
  - destruct Hrec as [-> _]. simpl. split; [reflexivity | now destruct (shown X this WARN)].
  - apply pillsShape_counts in Hrec. destruct Hrec as [Hl' Hs']. rewrite Hl', Hs'.
    split; [reflexivity | destruct (shown X this WARN); lia].
Qed.

Lemma added_app (st st' : State E C) (new : list (Effect E)) :
  effects st' = (new ++ effects st)%list -> added st st' = new.
Proof.
  intros H. unfold added. rewrite H, length_app, Nat.add_sub.
  now rewrite firstn_app, Nat.sub_diag, firstn_all, app_nil_r.
Qed.

(** *** Room ids as patterns *)

(** X15: the pattern [escapeRegex] makes of a room id has a backslash
    before every character a regular expression gives a meaning to, and
    stands for the room id itself, character by character; so two room
    ids never give the same pattern. *)
Theorem escapeRegex_is_literal :
  (forall v : string, literal (escapeRegex v) = Some v) /\
  (forall v v' : string, escapeRegex v = escapeRegex v' -> v = v').
Proof.
  assert (H : forall v : string, literal (escapeRegex v) = Some v).
  { induction v as [|c v IH]; [reflexivity|].
    cbn [escapeRegex]. destruct (special c) eqn:Hc.
    - cbn [literal]. rewrite Hc, IH.
      reflexivity.
    - cbn [literal]. rewrite Hc, IH.
      destruct (Ascii.eqb c "\"%char) eqn:Hb; [|reflexivity].
      apply Ascii.eqb_eq in Hb. subst c. discriminate. }
  split; [exact H|].
  intros v v' Heq. apply (f_equal literal) in Heq. rewrite !H in Heq. congruence.
Qed.

(** X10: once the fuel covers the call and the calls made for failed
    lookups, [logMessage] fails in one case only, whatever the client
    does: the level has no entry in [levelToFn], which is the case of
    [TRACE] alone, and the error is the [TypeError] of the last
    statements. With any other level the call returns, and the last
    thing it does is to hand the module and the message, as given, to
    the console function of the level. *)
Theorem logMessage_fails_only_on_unknown_level :
  forall (n : nat) (level : LogLevel) (module message : string)
         (additionalRoomIds : RoomIdsArg) (isRecursive : bool) (st : State E C),
    let res := logMessage X this (S (S n)) level module message additionalRoomIds
                 isRecursive st in
    match lookup (LogLevel_toString level) levelToFn with
    | Some logFunction =>
        fst res = inr tt /\
        exists rest, effects (snd res) = LogCall logFunction module [inl message] :: rest
    | None =>
        level = TRACE /\
        fst res = inl (Throw (TypeError "Unable to find logFunction for log level: TRACE"))
    end.
Proof.
  intros n level module message additionalRoomIds isRecursive st res. subst res.
  destruct (logMessage_shape n level module message additionalRoomIds isRecursive st)
    as (st' & new & -> & _ & Heff & (console & room & -> & -> & _)).
  destruct level; simpl; try (split; [reflexivity|]; rewrite Heff; simpl; eauto).
  split; reflexivity.
Qed.

(** X11: every message a call of [logMessage] asks the client to send,
    the notices of failed lookups included, goes to the management room,
    as an [m.notice] in the html format. *)
Theorem logMessage_sends_to_management_room_only :
  forall (n : nat) (level : LogLevel) (module message : string)
         (additionalRoomIds : RoomIdsArg) (isRecursive : bool) (st : State E C)
         (roomId : string) (content : TextualMessageEventContent) (r : E + string),
    let res := logMessage X this (S (S n)) level module message additionalRoomIds
                 isRecursive st in
    In (SendMessage roomId content r) (added st (snd res)) ->
    roomId = managementRoomID this /\ msgtype content = "m.notice" /\
    format content = "org.matrix.custom.html".
Proof.
  intros n level module message additionalRoomIds isRecursive st roomId content r res.
  subst res.
  destruct (logMessage_shape n level module message additionalRoomIds isRecursive st)
    as (st' & new & -> & _ & Heff & Hshape).
  cbn [snd]. rewrite (added_app _ _ _ Heff). intros Hin.
  apply logShape_toManagementRoom in Hshape. rewrite Forall_forall in Hshape.
  exact (Hshape _ Hin).
Qed.

(** X12: when the level is not shown (verbose logging is off and
    [LogLevel.INFO] does not include the level), a call of [logMessage]
    makes no call on the client and leaves it as it was. *)
Theorem logMessage_hidden_level_spares_client :
  forall (n : nat) (level : LogLevel) (module message : string)
         (additionalRoomIds : RoomIdsArg) (isRecursive : bool) (st : State E C),
    verboseLogging this = false -> includes X INFO level = false ->
    let res := logMessage X this (S (S n)) level module message additionalRoomIds
                 isRecursive st in
    clientState (snd res) = clientState st /\ clientFree (added st (snd res)).
Proof.
  intros n level module message additionalRoomIds isRecursive st Hv Hi res. subst res.
  assert (Hshown : shown X this level = false) by (unfold shown; now rewrite Hv, Hi).
  destruct (logMessage_shape n level module message additionalRoomIds isRecursive st)
    as (st' & new & -> & Hc & Heff & (console & room & -> & -> & Hroom)).
  cbn [snd]. split; [exact (Hc Hshown)|]. rewrite (added_app _ _ _ Heff).
  rewrite Hshown in Hroom. subst room. cbn [app].
  intros ev Hin. apply in_app_or in Hin. destruct Hin as [Hin | Hin].
  - destruct (lookup (LogLevel_toString level) levelToFn); simpl in Hin;
      [destruct Hin as [<- | []]; exact I | contradiction].
  - destruct (LogLevel_is level ERROR); simpl in Hin;
      [destruct Hin as [<- | []]; exact I | contradiction].
Qed.

Lemma Set_of_spec (roomIds : list string) :
  forall seen,
    NoDup (Set_of seen roomIds) /\
    forall roomId, In roomId (Set_of seen roomIds) <-> In roomId roomIds /\ ~ In roomId seen.
Proof.
  induction roomIds as [|x roomIds IH]; intros seen; simpl.
  - split; [constructor | tauto].
  - destruct (existsb (String.eqb x) seen) eqn:Hex.
    + apply existsb_exists in Hex. destruct Hex as (y & Hy & Hxy).
      apply String.eqb_eq in Hxy. subst y.
      destruct (IH seen) as [Hnd Hin]. split; [exact Hnd|].
      intros roomId. rewrite Hin. split; [tauto|].
      intros [[<- | H] Hn]; tauto.
    + assert (Hx : ~ In x seen).
      { intros Hin. apply not_true_iff_false in Hex. apply Hex, existsb_exists.
        exists x. split; [exact Hin | apply String.eqb_refl]. }
      destruct (IH (x :: seen)) as [Hnd Hin]. split.
      * constructor; [|exact Hnd]. rewrite Hin. simpl. tauto.
      * intros roomId. simpl. rewrite Hin. simpl.
        destruct (string_dec x roomId) as [<- | Hne]; tauto.
Qed.

(** X13: a call of [logMessage] that is shown and not recursive looks up
    the alias of the management room and of every additional room id,
    each once however often it was given, in the order given, the
    management room first, and whether or not earlier lookups failed; a
    call that is hidden or recursive looks nothing up. *)
Theorem logMessage_looks_up_each_room_once :
  forall (n : nat) (level : LogLevel) (module message : string)
         (additionalRoomIds : RoomIdsArg) (isRecursive : bool) (st : State E C),
    let res := logMessage X this (S (S n)) level module message additionalRoomIds
                 isRecursive st in
    let rooms := lookedUp (added st (snd res)) in
    rooms = (if (verboseLogging this || includes X INFO level) && negb isRecursive
             then Set_of [] (managementRoomID this :: normalise additionalRoomIds)
             else []) /\
    NoDup rooms /\
    ((verboseLogging this || includes X INFO level) && negb isRecursive = true ->
     forall roomId, In roomId rooms <->
                    roomId = managementRoomID this \/ In roomId (normalise additionalRoomIds)).
Proof.
  intros n level module message additionalRoomIds isRecursive st res rooms.
  subst rooms res.
  destruct (logMessage_shape n level module message additionalRoomIds isRecursive st)
    as (st' & new & -> & _ & Heff & Hshape).
  simpl snd. rewrite (added_app _ _ _ Heff).
  apply logShape_counts in Hshape. destruct Hshape as [-> _]. unfold shown.
  destruct (Set_of_spec (managementRoomID this :: normalise additionalRoomIds) [])
    as [Hnd Hin].
  split; [reflexivity|].
  destruct ((verboseLogging this || includes X INFO level) && negb isRecursive).
  - split; [exact Hnd|]. intros _ roomId. rewrite Hin. simpl.
    split; [intros [[<- | H] _]; auto | intros [-> | H]; auto].
  - split; [constructor | discriminate].
Qed.

(** X14: a call of [logMessage] that is shown asks the client to send one
    message, and, when warnings are shown, one more for each lookup that
    failed; a failed send is not tried again. A call that is hidden
    sends nothing. *)
Theorem logMessage_sends_one_message_per_failure :
  forall (n : nat) (level : LogLevel) (module message : string)
         (additionalRoomIds : RoomIdsArg) (isRecursive : bool) (st : State E C),
    let res := logMessage X this (S (S n)) level module message additionalRoomIds
                 isRecursive st in
    sends (added st (snd res))
    = if verboseLogging this || includes X INFO level
      then S (if verboseLogging this || includes X INFO WARN
              then failedLookups (added st (snd res)) else 0)
      else 0.
Proof.
  intros n level module message additionalRoomIds isRecursive st res. subst res.
  destruct (logMessage_shape n level module message additionalRoomIds isRecursive st)
    as (st' & new & -> & _ & Heff & Hshape).
  simpl snd. rewrite (added_app _ _ _ Heff).
  apply logShape_counts in Hshape. destruct Hshape as [_ ->]. reflexivity.
Qed.

End Facts.

End ManagementRoomFacts.

(** ** The timeline listener of the bot *)

Module TimelineFacts.
Import Timeline.

Local Open Scope string_scope.

Section Facts.

Context {Ev W : Type}.
Variable this : Draupnir Ev W.

(** What one event adds to the calls made. *)
Lemma handleTimelineEvent_calls (roomID : string) (event : Ev) (st : State Ev W) :
  exists new,
    calls (handleTimelineEvent this roomID event st) = (new ++ calls st)%list /\
    dispatched new = match command this (roomID, event) with
                     | Some body => [(roomID, event, body)]
                     | None => []
                     end /\
    reported new = (if String.eqb roomID (managementRoomID this)
                       && negb (unreadable this (roomID, event))
                    then [(roomID, event)] else []) /\
    reactions new = (if unreadable this (roomID, event)
                     then [(roomID, event_id this event, "⚠");
                           (roomID, event_id this event, "UISI");
                           (roomID, event_id this event, "🚨")]
                     else []).
Proof.
  unfold handleTimelineEvent, managementRoomMessageListener, command, unreadable.
  cbn [fst snd].
  destruct (isInvitation this event (clientUserID this));
    destruct (String.eqb roomID (managementRoomID this)); cbn [negb andb];
    try (destruct (textBody this event) as [body|];
         [destruct (String.eqb body undecryptable)|]);
    cbn [call world calls];
    match goal with
    | |- context [if isProtectedRoom this ?w roomID then _ else _] =>
        destruct (isProtectedRoom this w roomID)
    end;
    cbn [call world calls];
    match goal with
    | |- exists new, ?l = (new ++ calls st)%list /\ _ =>
        let rec strip l :=
          lazymatch l with
          | calls st => constr:(@nil (Call Ev))
          | ?c :: ?l' => let r := strip l' in constr:(c :: r)
          end in
        let n := strip l in exists n
    end;
    repeat split.
Qed.

Lemma dispatched_app (a b : list (Call Ev)) :
  dispatched (a ++ b) = (dispatched b ++ dispatched a)%list.
Proof.
  induction a as [|c a IH]; simpl; [now rewrite app_nil_r|].
  destruct c; rewrite ?IH, ?app_assoc; reflexivity.
Qed.

Lemma reported_app (a b : list (Call Ev)) :
  reported (a ++ b) = (reported b ++ reported a)%list.
Proof.
  induction a as [|c a IH]; simpl; [now rewrite app_nil_r|].
  destruct c; rewrite ?IH, ?app_assoc; reflexivity.
Qed.

Lemma reactions_app (a b : list (Call Ev)) :
  reactions (a ++ b) = (reactions b ++ reactions a)%list.
Proof.
  induction a as [|c a IH]; simpl; [now rewrite app_nil_r|].
  destruct c; rewrite ?IH, ?app_assoc; reflexivity.
Qed.

Lemma in_dispatched (cs : list (Call Ev)) (roomID : string) (event : Ev) (body : string) :
  In (HandleCommandMessageEvent roomID event body) cs ->
  In (roomID, event, body) (dispatched cs).
Proof.
  induction cs as [|c cs IH]; [contradiction|].
  intros [-> | Hin].
  - simpl. apply in_or_app. right. now left.
  - destruct c; simpl; auto. apply in_or_app. left. auto.
Qed.

(** What the events of a timeline add to the calls made. *)
Lemma handleAll_calls (events : list (string * Ev)) :
  forall st : State Ev W,
    dispatched (calls (handleAll this events st))
    = (dispatched (calls st)
         ++ flat_map (fun e => match command this e with
                               | Some body => [(fst e, snd e, body)]
                               | None => []
                               end) events)%list /\
    reported (calls (handleAll this events st))
    = (reported (calls st)
         ++ filter (fun e => String.eqb (fst e) (managementRoomID this)
                             && negb (unreadable this e)) events)%list /\
    reactions (calls (handleAll this events st))
    = (reactions (calls st)
         ++ flat_map (fun e => if unreadable this e
                               then [(fst e, event_id this (snd e), "⚠");
                                     (fst e, event_id this (snd e), "UISI");
                                     (fst e, event_id this (snd e), "🚨")]
                               else []) events)%list.
Proof.
  induction events as [|[roomID event] events IH]; intros st.
  - simpl. now rewrite !app_nil_r.
  - cbn [handleAll fold_left fst snd].
    destruct (IH (handleTimelineEvent this roomID event st)) as (Hd & Hr & Ha).
    unfold handleAll in Hd, Hr, Ha. rewrite Hd, Hr, Ha. clear Hd Hr Ha IH.
    destruct (handleTimelineEvent_calls roomID event st) as (new & -> & Hd & Hr & Ha).
    rewrite dispatched_app, reported_app, reactions_app, Hd, Hr, Ha.
    cbn [flat_map filter fst snd]. rewrite <- !app_assoc.
    repeat split.
    destruct (String.eqb roomID (managementRoomID this) && negb (unreadable this (roomID, event)));
      reflexivity.
Qed.

(** X16: whatever events the timeline brings, from whatever rooms, the
    commands handed to the command dispatcher are exactly the bodies of
    the text messages of the management room, the notice of an
    undecryptable message apart, each with its room and its event, in
    the order received; an event of another room is never dispatched. *)
Theorem commands_come_from_management_room :
  forall (events : list (string * Ev)) (w : W),
    let st := handleAll this events {| world := w; calls := [] |} in
    dispatched (calls st)
    = flat_map (fun e => match command this e with
                         | Some body => [(fst e, snd e, body)]
                         | None => []
                         end) events /\
    forall roomID event body,
      In (HandleCommandMessageEvent roomID event body) (calls st) ->
      roomID = managementRoomID this /\ textBody this event = Some body /\
      body <> undecryptable.
Proof.
  intros events w st. subst st.
  destruct (handleAll_calls events {| world := w; calls := [] |}) as (Hd & _ & _).
  cbn [calls dispatched app] in Hd. split; [exact Hd|].
  intros roomID event body Hin. apply in_dispatched in Hin. rewrite Hd in Hin.
  apply in_flat_map in Hin. destruct Hin as ([roomID' event'] & _ & Hin).
  unfold command in Hin. cbn [fst snd] in Hin.
  destruct (String.eqb roomID' (managementRoomID this)) eqn:Hroom; [|contradiction].
  destruct (textBody this event') as [body'|] eqn:Htext; [|contradiction].
  destruct (String.eqb body' undecryptable) eqn:Hbody; [contradiction|].
  destruct Hin as [Heq | []]. injection Heq as -> -> ->.
  apply String.eqb_eq in Hroom. apply String.eqb_neq in Hbody. auto.
Qed.

(** X17: the notice of an undecryptable message in the management room
    gets the three reactions [⚠], [UISI] and [🚨], in this order, on
    the event itself, and is handed neither to the command dispatcher
    nor to the report manager; no other event gets a reaction from the
    listener, and the report manager is handed every other event of the
    management room and no event of another room. *)
Theorem undecryptable_notice_is_flagged :
  forall (events : list (string * Ev)) (w : W),
    let st := handleAll this events {| world := w; calls := [] |} in
    reactions (calls st)
    = flat_map (fun e => if unreadable this e
                         then [(fst e, event_id this (snd e), "⚠");
                               (fst e, event_id this (snd e), "UISI");
                               (fst e, event_id this (snd e), "🚨")]
                         else []) events /\
    reported (calls st)
    = filter (fun e => String.eqb (fst e) (managementRoomID this)
                       && negb (unreadable this e)) events /\
    forall e, unreadable this e = true -> command this e = None.
Proof.
  intros events w st. subst st.
  destruct (handleAll_calls events {| world := w; calls := [] |}) as (_ & Hr & Ha).
  cbn [calls reported reactions app] in Hr, Ha. split; [exact Ha|]. split; [exact Hr|].
  intros e. unfold unreadable, command.
  destruct (String.eqb (fst e) (managementRoomID this)); [|discriminate].
  destruct (textBody this (snd e)) as [body|]; [|discriminate].
  cbn [andb]. now intros ->.
Qed.

End Facts.

End TimelineFacts.

(** ** The properties at work on sample runs *)

Module ExamplesFacts.
Import DeadDocument Matrix Paged Examples MatrixFacts PagedFacts.

(** A node that is not a root is refused before anything is built; a
    root is not. *)
Lemma renderMatrix_requires_root_witness :
  renderMatrix narrow sendOk 10 (DocumentNode 7 Bold []) 0
  = {| outcome := Thrown (TypeError rootMessage); trace := [];
       collected := []; finalWorld := 0 |} /\
  outcome (renderMatrix narrow sendOk 10 twoParagraphs 0)
  <> Thrown (TypeError rootMessage).
Proof.
  split.
  - apply (proj1 (renderMatrix_requires_root narrow sendOk 10 (DocumentNode 7 Bold []) 0)).
    discriminate.
  - apply (proj2 (renderMatrix_requires_root narrow sendOk 10 twoParagraphs 0)).
    reflexivity.
Defined.


(** A walker over a copy of the tree returns another object: the first
    pair of increments ends the run. *)
Lemma checkEqual_stops_on_mismatch_witness :
  Object_is (Some (clone twoParagraphs)) (Some twoParagraphs) = false /\
  outcome (renderMatrix skewed sendOk 10 twoParagraphs 0)
  = Thrown (TypeError bugMessage).
Proof.
  split; [reflexivity|].
  apply (proj1 (checkEqual_stops_on_mismatch skewed sendOk 10 twoParagraphs 0)
           constructions (Some twoParagraphs) (Some (clone twoParagraphs)) []);
    reflexivity.
Defined.

(** Walkers that return the same nodes in different phases pass the
    check: the html walker of [phaseSkewed] leaves each container where
    the markdown walker enters it, every pair of increments returns one
    node, and the run returns after sending a page whose html closes
    each paragraph before it opens it. *)
Lemma phase_is_not_compared :
  phasesOf Markdown twoParagraphs = [Enter; Enter; Enter; Exit; Enter; Enter; Exit; Exit] /\
  phasesOf Html twoParagraphs = [Exit; Exit; Enter; Enter; Exit; Enter; Enter; Enter] /\
  outcome (renderMatrix phaseSkewed sendOk 10 twoParagraphs 0) = Returned ["$0"%string] /\
  map snd (sentPages (trace (renderMatrix phaseSkewed sendOk 10 twoParagraphs 0)))
  = [Some "</p>hello<p></p>world<p>"%string].
Proof. vm_compute. repeat split. Defined.

(** The second of three sends fails: the run throws what the callback
    failed with and has collected the identifier of the first send. *)
Lemma callback_failure_propagates_witness :
  outcome (renderMatrix narrow sendFailingSecond 10 twoParagraphs 0)
  = Thrown (Foreign "M_LIMIT_EXCEEDED"%string) /\
  collected (renderMatrix narrow sendFailingSecond 10 twoParagraphs 0) = ["$0"%string] /\
  length (sentPages (trace (renderMatrix narrow sendOk 10 twoParagraphs 0))) = 3.
Proof.
  assert (Htrace : trace (renderMatrix narrow sendFailingSecond 10 twoParagraphs 0)
                   = failingRunPrefix
                       ++ ESend (fst failedPages) (snd failedPages)
                                (inl "M_LIMIT_EXCEEDED"%string) :: [])
    by (vm_compute; reflexivity).
  destruct (callback_failure_propagates narrow sendFailingSecond 10 twoParagraphs 0
              failingRunPrefix (fst failedPages) (snd failedPages)
              "M_LIMIT_EXCEEDED"%string [] Htrace) as (_ & Hout & Hids).
  split; [exact Hout|]. split; [|reflexivity].
  rewrite Hids. reflexivity.
Defined.

(** The three pages of [twoParagraphs] on narrow streams add up to its
    two renderings. *)
Lemma pagination_keeps_all_content_witness :
  length (fringe twoParagraphs) <= 10 /\
  sentText Markdown (trace (renderMatrix narrow sendOk 10 twoParagraphs 0))
  = render MARKDOWN_RENDERER twoParagraphs /\
  sentText Html (trace (renderMatrix narrow sendOk 10 twoParagraphs 0))
  = "<p>hello</p><p>world</p>"%string.
Proof.
  assert (Hfuel : length (fringe twoParagraphs) <= 10) by (simpl; lia).
  split; [exact Hfuel|].
  destruct (pagination_keeps_all_content 14 rendererOf sendOk 10 twoParagraphs 0
              eq_refl Hfuel) as [H _].
  destruct (H [eventIdOf 0; eventIdOf 1; eventIdOf 2] eq_refl) as [Hmd Hhtml].
  split; [exact Hmd | exact Hhtml].
Defined.

(** On wide streams [twoParagraphs] goes out as one page pair, sent at
    the final flush. *)
Lemma one_page_when_content_fits_witness :
  String.length (render HTML_RENDERER twoParagraphs) < 100 /\
  sentPages (trace (renderMatrix wide sendOk 10 twoParagraphs 0))
  = [(Some (render MARKDOWN_RENDERER twoParagraphs),
      Some "<p>hello</p><p>world</p>"%string)] /\
  outcome (renderMatrix wide sendOk 10 twoParagraphs 0) = Returned ["$0"%string].
Proof.
  assert (Hmd : String.length (render (rendererOf Markdown) twoParagraphs) < 100)
    by (vm_compute; lia).
  assert (Hhtml : String.length (render (rendererOf Html) twoParagraphs) < 100)
    by (vm_compute; lia).
  assert (Hfuel : length (fringe twoParagraphs) <= 10) by (simpl; lia).
  split; [exact Hhtml|].
  assert (Hne : render (rendererOf Markdown) twoParagraphs <> ""%string)
    by (vm_compute; discriminate).
  destruct (one_page_when_content_fits 100 rendererOf sendOk 10 twoParagraphs 0
              eq_refl Hfuel Hmd Hhtml (or_introl Hne))
    as (_ & Hpages & Hout).
  split.
  - vm_compute in Hpages. vm_compute. exact Hpages.
  - vm_compute in Hout. vm_compute. exact Hout.
Defined.

(** An empty root renders nothing, well below any limit, and the
    callback is not invoked at all. *)
Lemma empty_root_is_never_sent :
  tag emptyRoot = Root /\
  String.length (render MARKDOWN_RENDERER emptyRoot) < 100 /\
  String.length (render HTML_RENDERER emptyRoot) < 100 /\
  ~ sentOnce (renderMatrix wide sendOk 10 emptyRoot 0).
Proof.
  split; [reflexivity|]. split; [simpl; lia|]. split; [simpl; lia|].
  unfold sentOnce. vm_compute. discriminate.
Defined.



(** When the first page of [twoParagraphs] is sent, the html stream
    already holds the start of the second paragraph, rendered by the
    increments made before the send; it goes out in the second page. *)
Lemma second_page_is_rendered_before_first_send :
  ~ nothingRenderedAhead 14 rendererOf sendOk twoParagraphs 0.
Proof.
  intros H.
  specialize (H 5 sixthIteration (snd (sendIfReady narrow sendOk sixthIteration))).
  destruct H as [_ H].
  - vm_compute. reflexivity.
  - vm_compute. reflexivity.
  - vm_compute. discriminate.
  - vm_compute in H. discriminate.
Defined.

(** The identifiers returned are the three the callback returned. *)
Lemma pages_sent_as_read_witness :
  [eventIdOf 0; eventIdOf 1; eventIdOf 2]
  = sentIds (trace (renderMatrix narrow sendOk 10 twoParagraphs 0)).
Proof.
  exact (proj2 (proj2 (proj2 (pages_sent_as_read narrow sendOk 10 twoParagraphs 0)))
           [eventIdOf 0; eventIdOf 1; eventIdOf 2]
           ltac:(vm_compute; reflexivity)).
Defined.

(** An empty root is rendered without a single send. *)
Lemma one_identifier_per_page_sent_witness :
  outcome (renderMatrix (toolkit 14 rendererOf) sendOk 10 emptyRoot 0) = Returned [] /\
  sentPages (trace (renderMatrix (toolkit 14 rendererOf) sendOk 10 emptyRoot 0)) = [].
Proof.
  exact (proj1 one_identifier_per_page_sent nat 14 rendererOf sendOk 10 emptyRoot 0
           eq_refl ltac:(simpl; lia) eq_refl eq_refl).
Defined.

(** [<b>a{[1.5, existing]}</b>] has three children, in order. *)
Lemma JSXFactory_children_witness :
  exists cs next',
    JSX.JSXFactory (E := string) ECMAScript.node Bold tt
      [JSX.RawString "a"; JSX.RawArray [JSX.RawNumber 1.5%float; JSX.RawNode emptyRoot]] 5
    = inr (DocumentNode 5 Bold cs, next') /\
    Forall2 (JSX.becomes (E := string) ECMAScript.node 6 next')
      (JSX.flattenAll
         [JSX.RawString "a"; JSX.RawArray [JSX.RawNumber 1.5%float; JSX.RawNode emptyRoot]])
      cs.
Proof.
  exact (JSXFacts.JSXFactory_children (E := string) ECMAScript.node unit Bold tt
           [JSX.RawString "a"; JSX.RawArray [JSX.RawNumber 1.5%float; JSX.RawNode emptyRoot]]
           5).
Defined.

(** [<b>{1e21}{NaN}</b>] has two text leaves, neither of which carries a
    decimal numeral, and a child whose [toJSON] method throws makes the
    call throw what that method throws, which need not be a
    [TypeError]. *)
Lemma number_text_is_what_toString_returns :
  JSX.JSXFactory (E := string) ECMAScript.node Bold tt
    [JSX.RawNumber 1e21%float; JSX.RawNumber nan] 0
  = inr (DocumentNode 0 Bold [LeafNode 1 TextNode "1e+21"; LeafNode 2 TextNode "NaN"], 3) /\
  JSX.decimalNumeral "1e+21" = false /\
  JSX.decimalNumeral "NaN" = false /\
  JSX.JSXFactory (E := string) ECMAScript.node Bold tt
    [JSX.RawString "a"; JSX.RawOther None (inl (Foreign "boom"%string))] 0
  = inl (Foreign "boom"%string).
Proof. vm_compute. repeat split. Defined.

(** The pages of [twoParagraphs] on narrow streams, as sent. *)
Example twoParagraphs_pages :
  map snd (sentPages (trace (renderMatrix narrow sendOk 10 twoParagraphs 0)))
  = [Some "<p>hello</p>"; Some "<p>world"; Some "</p>"]%string.
Proof. vm_compute. reflexivity. Qed.

(** [<b>a{[1.5, existing]}{true}</b>] is refused, and without the
    boolean it has three children; [null] and [undefined] are refused
    with the message of the engine. *)
Example JSXFactory_sample :
  JSX.JSXFactory (E := string) ECMAScript.node Bold tt
    [JSX.RawString "a"; JSX.RawArray [JSX.RawNumber 1.5%float; JSX.RawNode emptyRoot]] 5
  = inr (DocumentNode 5 Bold
           [LeafNode 6 TextNode "a"; LeafNode 7 TextNode "1.5"; emptyRoot], 8) /\
  JSX.JSXFactory (E := string) ECMAScript.node Bold tt
    [JSX.RawString "a"; JSX.RawArray [JSX.RawNumber 1.5%float];
     JSX.RawOther None (inr (Some "true"%string))] 5
  = inl (TypeError "Unexpected raw child true") /\
  JSX.JSXFactory (E := string) ECMAScript.node Bold tt [JSX.RawNullish JSX.JSNull] 5
  = inl (TypeError "Cannot read properties of null (reading 'leafNode')") /\
  JSX.JSXFactory (E := string) ECMAScript.node Bold tt [JSX.RawNullish JSX.JSUndefined] 5
  = inl (TypeError "Cannot read properties of undefined (reading 'leafNode')").
Proof. vm_compute. repeat split. Qed.

(** [toString()] on some numbers. *)
Example Number_toString_sample :
  map ECMAScript.Number_toString
    [0%float; (-0)%float; 1%float; (-1.5)%float; 123456789%float;
     9007199254740992%float; 1e21%float; 0x1p-1074%float; 0x1p-20%float;
     0x1.fffffffffffffp1023%float; infinity; neg_infinity; nan]
  = ["0"; "0"; "1"; "-1.5"; "123456789";
     "9007199254740992"; "1e+21"; "5e-324"; "9.5367431640625e-7";
     "1.7976931348623157e+308"; "Infinity"; "-Infinity"; "NaN"]%string.
Proof. vm_compute. reflexivity. Qed.

End ExamplesFacts.

(** ** The further properties at work on samples *)

Module SamplesFacts.
Import DeadDocument Matrix Paged Examples Samples Traces TracesFacts.

Local Open Scope string_scope.

(** The send that fails in the run of [twoParagraphs] comes right after
    the flush and the reads of its pages. *)
Lemma send_follows_flush_witness :
  exists pre' a b,
    failingRunPrefix
    = (pre' ++ [EIncrement Markdown (inr a); EIncrement Html (inr b);
                EEnsureNewPage Html; EEnsureNewPage Markdown;
                EReadPage Markdown (fst failedPages);
                EReadPage Html (snd failedPages)])%list.
Proof.
  apply (send_follows_flush narrow sendFailingSecond 10 twoParagraphs 0 failingRunPrefix
           (fst failedPages) (snd failedPages) (inl "M_LIMIT_EXCEEDED") []).
  vm_compute. reflexivity.
Defined.

(** In the run of [emptyRoot] the markdown walker is not incremented
    after it returned [undefined]. *)
Lemma no_increment_after_undefined_witness :
  trace (renderMatrix wide sendOk 10 emptyRoot 0)
  = (emptyRunStart ++ EIncrement Markdown (inr None)
       :: [EIncrement Html (inr None); EEnsureNewPage Html; EEnsureNewPage Markdown])%list /\
  ~ In (EIncrement (E:=string) Markdown (inr None))
       [EIncrement Html (inr None); EEnsureNewPage Html; EEnsureNewPage Markdown].
Proof.
  assert (H : trace (renderMatrix wide sendOk 10 emptyRoot 0)
              = (emptyRunStart ++ EIncrement Markdown (inr None)
                   :: [EIncrement Html (inr None); EEnsureNewPage Html;
                       EEnsureNewPage Markdown])%list)
    by (vm_compute; reflexivity).
  split; [exact H|].
  exact (no_increment_after_undefined wide sendOk 10 emptyRoot 0 emptyRunStart Markdown
           _ H (inr None)).
Defined.

(** The run of [emptyRoot] returns after both walkers ended. *)
Lemma returns_after_both_walkers_end_witness :
  exists pre last,
    trace (renderMatrix wide sendOk 10 emptyRoot 0)
    = (pre ++ [EIncrement Markdown (inr None); EIncrement Html (inr None);
               EEnsureNewPage Html; EEnsureNewPage Markdown] ++ last)%list /\
    live pre /\
    (last = [] \/
     exists text html eventId,
       last = [EReadPage Markdown text; EReadPage Html html;
               ESend text html (inr eventId)]).
Proof.
  apply (returns_after_both_walkers_end wide sendOk 10 emptyRoot 0 []).
  vm_compute. reflexivity.
Defined.

(** The three pages of [twoParagraphs], as the client is asked to send
    them. *)
Example renderMatrixAndSend_sample :
  fst (finalWorld (MatrixSend.renderMatrixAndSend narrow 10 twoParagraphs
                     "!room:example.org" tt (MatrixSend.logging numbering) ([], 0)))
  = map (fun p => ("!room:example.org",
                   {| MatrixSend.msgtype := "m.notice";
                      MatrixSend.body := fst p;
                      MatrixSend.format := "org.matrix.custom.html";
                      MatrixSend.formatted_body := snd p |}))
        (sentPages (trace (renderMatrix narrow sendOk 10 twoParagraphs 0))).
Proof. vm_compute. reflexivity. Qed.

(** The boolean is blamed, not the [null] after it. *)
Lemma JSXFactory_blames_first_bad_child_witness :
  exists thrown,
    JSX.JSXFactory ECMAScript.node Paragraph tt badChildren 0 = inl thrown /\
    JSX.JSXFactory ECMAScript.node Paragraph tt
      ([JSX.RawString "a"; JSX.RawNumber 1.5%float]
         ++ [JSX.RawOther None (inr (Some "true"%string))]) 0
    = inl thrown /\
    (forall v, JSX.RawOther (E := string) None (inr (Some "true"%string)) = JSX.RawNullish v ->
               thrown = TypeError (JSX.cannotRead ECMAScript.node v)) /\
    (forall e j, JSX.RawOther (E := string) None (inr (Some "true"%string)) = JSX.RawOther (Some e) j ->
                 thrown = e) /\
    (forall e, JSX.RawOther (E := string) None (inr (Some "true"%string)) = JSX.RawOther None (inl e) ->
               thrown = e) /\
    (forall json, JSX.RawOther (E := string) None (inr (Some "true"%string)) = JSX.RawOther None (inr json) ->
                  thrown = TypeError ("Unexpected raw child " ++ JSX.templateText json)).
Proof.
  exact (JSXArrayFacts.JSXFactory_blames_first_bad_child string ECMAScript.node unit
           Paragraph tt badChildren 0
           [JSX.RawString "a"; JSX.RawNumber 1.5%float] [JSX.RawNullish JSX.JSNull]
           (JSX.RawOther None (inr (Some "true"%string)))
           eq_refl eq_refl eq_refl).
Defined.

Import ManagementRoom.

(** A message the management room is sent goes to that room. *)
Lemma logMessage_sends_to_management_room_only_witness :
  "!admin:example.org" = managementRoomID output /\
  msgtype (plainContent externals "restarted") = "m.notice" /\
  format (plainContent externals "restarted") = "org.matrix.custom.html".
Proof.
  apply (ManagementRoomFacts.logMessage_sends_to_management_room_only externals output
           0 INFO "main" "restarted" Null true fresh
           "!admin:example.org" (plainContent externals "restarted") (inr "$0")).
  vm_compute. right. left. reflexivity.
Defined.

(** A debug message does not reach the client. *)
Lemma logMessage_hidden_level_spares_client_witness :
  clientState (snd (logMessage externals output 2 DEBUG "main" "tick"
                      (OneRoomId "!gone:example.org") false fresh)) = 0 /\
  clientFree (added fresh (snd (logMessage externals output 2 DEBUG "main" "tick"
                                  (OneRoomId "!gone:example.org") false fresh))).
Proof.
  exact (ManagementRoomFacts.logMessage_hidden_level_spares_client externals output
           0 DEBUG "main" "tick" (OneRoomId "!gone:example.org") false fresh
           eq_refl eq_refl).
Defined.

(** A warning that names a room twice and a room that cannot be looked
    up: three lookups, the notice of the failure and the warning; the
    notice goes out without the mark of its level. *)
Example logMessage_sample :
  let res := logMessage externals output 2 WARN "main" "left !gone:example.org"
               (RoomIds ["!lobby:example.org"; "!gone:example.org"; "!lobby:example.org"])
               false fresh in
  fst res = inr tt /\
  lookedUp (effects (snd res))
  = ["!admin:example.org"; "!lobby:example.org"; "!gone:example.org"] /\
  map (fun ev => match ev with SendMessage _ content _ => body content | _ => "" end)
      (filter (fun ev => match ev with SendMessage _ _ _ => true | _ => false end)
              (rev (effects (snd res))))
  = ["Failed to resolve room alias for !gone:example.org - see console for details";
     "⚠ | left !gone:example.org"].
Proof. vm_compute. repeat split. Qed.

(** Of three events one is dispatched as a command, and the message
    that could not be decrypted gets three reactions. *)
Example timeline_sample :
  let st := Timeline.handleAll bot timeline {| Timeline.world := 0; Timeline.calls := [] |} in
  map snd (Timeline.dispatched (Timeline.calls st)) = ["!draupnir ban @mallory:example.org"] /\
  map snd (Timeline.reactions (Timeline.calls st)) = ["⚠"; "UISI"; "🚨"] /\
  length (Timeline.reported (Timeline.calls st)) = 1.
Proof. vm_compute. repeat split. Qed.

End SamplesFacts.
